(** * PlanWise API: the event conflict-resolution engine

    A shallow embedding of the scheduling core of the PlanWise backend:
    - [utils/event.util.ts]        ([normalizeEvent], [sortEvents]),
    - [services/ai.service.ts]     ([detectConflictsForEvent],
                                    [suggestBetterTime], [generatePriority]),
    - [services/event.service.ts]  (the [EventService] methods over the
                                    module-level [events] map),
    - [validations/event.schema.ts] ([eventSchema]),
    - [controllers/event.controller.ts], [routes/event.route.ts] and the two
      middlewares (the handler chain of each event route).

    Conventions.
    - A valid JavaScript [Date] is represented by its time value, an integer
      number of milliseconds ([Z]).  [z.date()] admits valid dates only, and
      time values are integers of magnitude at most 8.64e15, on which the
      comparisons [<], [>], [>=] and the sign of a difference of two doubles
      agree with the same operations on [Z].
    - Strings are [string]; the string builtins whose behaviour depends on
      Unicode tables ([toLowerCase], [trim], [length]), [JSON.parse] and the
      [Date] string parser are parameters of the development.
    - The module-level [Map<string, INormalizedEvent>] is an association list
      in insertion order, with the update-in-place behaviour of [Map.set].
    - The generative model is a function from requests to response texts;
      every outbound request is recorded in a ghost log.  The service is
      given a second time, in [Fallible], with a model whose answer is a
      text or a rejection and with methods that return or throw; the event
      routes are given there with the order of the router, the body parser
      and the three branches of [errorMiddleware]. *)

From Stdlib Require Import ZArith List String Ascii Bool Lia Permutation Sorted.
Import ListNotations.
Local Open Scope Z_scope.

(** ** Data model ([interfaces/event.interface.ts], [event.schema.ts]) *)

Inductive Mode := online | offline.
Inductive Priority := low | medium | high.

Record IWorkingHours := { wh_start : string; wh_end : string }.

(** A valid [Date], wrapping its time value. *)
Record Date := mkDate { getTime : Z }.

(** [new Date(d)] for a [Date] argument copies the time value. *)
Definition new_Date (d : Date) : Date := mkDate (getTime d).

(** The output type of [eventSchema].  [priority] is an [option]: the service
    methods test [!event.priority], so the embedding keeps the case of an
    absent priority. *)
Module IEventInput.
Record t := mk {
  title : string;
  description : string;
  mode : Mode;
  venue : string;
  startTime : Date;
  endTime : Date;
  priority : option Priority;
  tags : list string;
  workingHours : option IWorkingHours
}.
End IEventInput.

(** [IEvent]: the input together with an [id], priority assigned. *)
Module IEvent.
Record t := mk {
  id : string;
  title : string;
  description : string;
  mode : Mode;
  venue : string;
  startTime : Date;
  endTime : Date;
  priority : Priority;
  tags : list string;
  workingHours : option IWorkingHours
}.
End IEvent.

(** [INormalizedEvent]: times are numbers.  The object spread in
    [normalizeEvent] also copies [workingHours] when the input carries it, so
    the field is kept here. *)
Record INormalizedEvent := mkEvent {
  id : string;
  title : string;
  description : string;
  mode : Mode;
  venue : string;
  startTime : Z;
  endTime : Z;
  priority : Priority;
  tags : list string;
  workingHours : option IWorkingHours
}.

(** ** [utils/event.util.ts] *)

(** [normalizeEvent]: [{ ...event, startTime, endTime }] with both times
    converted by [new Date(.).getTime()]. *)
Definition normalizeEvent (event : IEvent.t) : INormalizedEvent :=
  let startTime := getTime (new_Date (IEvent.startTime event)) in
  let endTime := getTime (new_Date (IEvent.endTime event)) in
  {| id := IEvent.id event;
     title := IEvent.title event;
     description := IEvent.description event;
     mode := IEvent.mode event;
     venue := IEvent.venue event;
     startTime := startTime;
     endTime := endTime;
     priority := IEvent.priority event;
     tags := IEvent.tags event;
     workingHours := IEvent.workingHours event |}.

(** [Array.prototype.sort(compareFn)].  The language specification requires
    the sort to be stable, so for a consistent comparator its result is the
    stable sorted rearrangement of the array; a stable insertion sort
    computes it.  [x] moves past [y] only when [compareFn x y > 0]. *)
Section ArraySort.
Context {A : Type}.
Variable compareFn : A -> A -> Z.

Fixpoint sort_insert (x : A) (l : list A) : list A :=
  match l with
  | [] => [x]
  | y :: l' => if compareFn x y >? 0 then y :: sort_insert x l'
               else x :: y :: l'
  end.

Definition Array_sort (l : list A) : list A := fold_right sort_insert [] l.
End ArraySort.

(** [sortEvents]: [events.sort((a, b) => a.startTime - b.startTime)]. *)
Definition sortEvents (events : list INormalizedEvent) : list INormalizedEvent :=
  Array_sort (fun a b => startTime a - startTime b) events.

(** ** [Map<string, V>] in insertion order *)
Section JsMap.
Context {V : Type}.

Definition JsMap := list (string * V).

Fixpoint Map_get (k : string) (m : JsMap) : option V :=
  match m with
  | [] => None
  | (k', v) :: m' => if String.eqb k' k then Some v else Map_get k m'
  end.

(** [set] on a present key replaces the value and keeps the position; on an
    absent key it appends. *)
Fixpoint Map_set (k : string) (v : V) (m : JsMap) : JsMap :=
  match m with
  | [] => [(k, v)]
  | (k', v') :: m' =>
      if String.eqb k' k then (k, v) :: m' else (k', v') :: Map_set k v m'
  end.

Fixpoint Map_delete (k : string) (m : JsMap) : JsMap :=
  match m with
  | [] => []
  | (k', v') :: m' =>
      if String.eqb k' k then Map_delete k m'
      else (k', v') :: Map_delete k m'
  end.

(** [Array.from(m.values())]: a fresh array of the values. *)
Definition Map_values (m : JsMap) : list V := map snd m.

Definition Map_keys (m : JsMap) : list string := map fst m.
End JsMap.
Arguments JsMap : clear implicits.

(** ** [AiService.detectConflictsForEvent] *)

(** The loop body: skip the event with the candidate's id, push an
    overlapping event on [conflicts]. *)
Definition detect_step (event : INormalizedEvent)
    (conflicts : list INormalizedEvent) (existingEvent : INormalizedEvent)
    : list INormalizedEvent :=
  if String.eqb (id existingEvent) (id event) then conflicts
  else if (startTime event <? endTime existingEvent)
          && (endTime event >? startTime existingEvent)
       then conflicts ++ [existingEvent]
       else conflicts.

Definition detectConflictsForEvent (event : INormalizedEvent)
    (events : list INormalizedEvent) : list INormalizedEvent :=
  fold_left (detect_step event) events [].

(** ** The regular expression of [suggestBetterTime]

    [text.match(/```json\n([\s\S]*?)\n```/)].  Without the [g] flag the match
    is the leftmost one, and the lazy group is the shortest text between the
    opening fence and a closing fence.  If the first opening fence has no
    closing fence after it, no later one has, so the match is: the first
    occurrence of the opening fence, then everything up to the first
    occurrence of the closing fence after it. *)

Definition newline : string := String (ascii_of_nat 10) EmptyString.
Definition fence_open : string := String.append "```json" newline.
Definition fence_close : string := String.append newline "```".

Fixpoint drop_chars (n : nat) (s : string) : string :=
  match n, s with
  | O, _ => s
  | S _, EmptyString => EmptyString
  | S n', String _ s' => drop_chars n' s'
  end.

(** The text after the first occurrence of [pat] in [s]. *)
Fixpoint afterFirst (pat s : string) : option string :=
  if String.prefix pat s then Some (drop_chars (String.length pat) s)
  else match s with
       | EmptyString => None
       | String _ s' => afterFirst pat s'
       end.

(** The text before the first occurrence of [pat] in [s]. *)
Fixpoint beforeFirst (pat s : string) : option string :=
  if String.prefix pat s then Some EmptyString
  else match s with
       | EmptyString => None
       | String c s' => option_map (String c) (beforeFirst pat s')
       end.

(** [jsonMatch[1]] when [jsonMatch] is not [null]. *)
Definition match_json_fence (text : string) : option string :=
  match afterFirst fence_open text with
  | None => None
  | Some rest => beforeFirst fence_close rest
  end.

(** ** Requests to the generative model *)

(** What a prompt is built from.  The working-hours bounds are the strings
    [workingHours?.start || '9:00'] and [workingHours?.end || '18:00']. *)
Inductive Prompt :=
| PriorityPrompt (title description : string)
| BetterTimePrompt (conflictingEvent : INormalizedEvent)
    (allEvents : list INormalizedEvent) (hoursStart hoursEnd : string).

(** [s || dflt] on strings: the empty string is falsy. *)
Definition or_default (s : option string) (dflt : string) : string :=
  match s with
  | Some EmptyString | None => dflt
  | Some s' => s'
  end.

(** The request [suggestBetterTime] sends. *)
Definition betterTimePrompt (candidate : INormalizedEvent)
    (allEvents : list INormalizedEvent)
    (workingHours : option IWorkingHours) : Prompt :=
  BetterTimePrompt candidate allEvents
    (or_default (option_map wh_start workingHours) "9:00")
    (or_default (option_map wh_end workingHours) "18:00").

(** The outcome of a create or an update: [{ event }] or
    [{ conflicts, suggestion }]. *)
Inductive WorkflowResult (JsValue : Type) :=
| Committed (event : INormalizedEvent)
| ConflictReported (conflicts : list INormalizedEvent) (suggestion : JsValue).
Arguments Committed {JsValue} event.
Arguments ConflictReported {JsValue} conflicts suggestion.

(** The outcome of [updateEventById]: [null], a thrown [Error], or a
    workflow result. *)
Inductive UpdateResult (JsValue : Type) :=
| NotFound
| Thrown (message : string)
| Updated (result : WorkflowResult JsValue).
Arguments NotFound {JsValue}.
Arguments Thrown {JsValue} message.
Arguments Updated {JsValue} result.

(** The state of the process: the module-level [events] map, and the ghost
    log of the requests sent to the model so far. *)
Record World := mkWorld {
  events : JsMap INormalizedEvent;
  requests : list Prompt
}.

(** A request to the service: the three mutating operations. *)
Inductive Request :=
| ReqCreate (uuid : string) (event : IEventInput.t)
| ReqUpdate (eventId : string) (eventData : IEventInput.t)
| ReqDelete (eventId : string).

Definition M (A : Type) : Type := World -> A * World.
Definition ret {A} (a : A) : M A := fun w => (a, w).
Definition bind {A B} (c : M A) (k : A -> M B) : M B :=
  fun w => let (a, w') := c w in k a w'.
Notation "x <- c1 ;; c2" := (bind c1 (fun x => c2))
  (at level 61, c1 at next level, right associativity).

Section Engine.
(** JavaScript values as [JSON.parse] returns them, with [null]. *)
Variable JsValue : Type.
Variable null : JsValue.
(** [JSON.parse]; [None] when it throws a [SyntaxError]. *)
Variable JSON_parse : string -> option JsValue.
(** [String.prototype.toLowerCase] and [String.prototype.trim]. *)
Variable toLowerCase : string -> string.
Variable trim : string -> string.
(** The text the model answers to its [n]-th request. *)
Variable model : nat -> Prompt -> string.

(** [(await (await this.model.generateContent(prompt)).response).text()] *)
Definition generateContent (prompt : Prompt) : M string :=
  fun w => (model (List.length (requests w)) prompt,
            {| events := events w; requests := requests w ++ [prompt] |}).

(** *** [AiService.suggestBetterTime] *)

(** The [try] block applied to the response text. *)
Definition parseSuggestion (text : string) : JsValue :=
  match match_json_fence text with
  | Some (String c s) =>
      match JSON_parse (String c s) with
      | Some suggestion => suggestion
      | None => null            (* catch (error) *)
      end
  | Some EmptyString => null   (* jsonMatch[1] is falsy *)
  | None => null               (* jsonMatch is null *)
  end.

Definition suggestBetterTime (conflictingEvent : INormalizedEvent)
    (allEvents : list INormalizedEvent)
    (workingHours : option IWorkingHours) : M JsValue :=
  text <- generateContent
            (betterTimePrompt conflictingEvent allEvents workingHours) ;;
  ret (parseSuggestion text).

(** *** [AiService.generatePriority] *)

Definition classifyPriority (response : string) : Priority :=
  let text := trim (toLowerCase response) in
  if String.eqb text "low" then low
  else if String.eqb text "medium" then medium
  else if String.eqb text "high" then high
  else medium.  (* Default to medium if AI response is unclear *)

Definition generatePriority (title description : string) : M Priority :=
  response <- generateContent (PriorityPrompt title description) ;;
  ret (classifyPriority response).

(** *** [EventService] *)

Definition Array_from_values : M (list INormalizedEvent) :=
  fun w => (Map_values (events w), w).

Definition events_get (k : string) : M (option INormalizedEvent) :=
  fun w => (Map_get k (events w), w).

Definition events_set (k : string) (v : INormalizedEvent) : M unit :=
  fun w => (tt, {| events := Map_set k v (events w);
                   requests := requests w |}).

Definition events_delete (k : string) : M unit :=
  fun w => (tt, {| events := Map_delete k (events w);
                   requests := requests w |}).

(** The part of both workflows after normalization: snapshot, conflict
    detection, then either a suggestion or the commit. *)
Definition detectThenCommit (normalizedEvent : INormalizedEvent)
    (workingHours : option IWorkingHours) : M (WorkflowResult JsValue) :=
  eventsList <- Array_from_values ;;
  let conflicts := detectConflictsForEvent normalizedEvent eventsList in
  if (0 <? List.length conflicts)%nat then
    suggestion <- suggestBetterTime normalizedEvent eventsList workingHours ;;
    ret (ConflictReported conflicts suggestion)
  else
    _ <- events_set (id normalizedEvent) normalizedEvent ;;
    ret (Committed normalizedEvent).

(** [createEvent], lines 31-43: the fresh id, the priority when the input
    has none, the normalization.  [uuid] is the value [randomUUID()]
    returns. *)
Definition prepareCreate (uuid : string) (event : IEventInput.t)
    : M INormalizedEvent :=
  priority <- match IEventInput.priority event with
              | Some p => ret p
              | None => generatePriority (IEventInput.title event)
                          (IEventInput.description event)
              end ;;
  let createdEvent :=
    {| IEvent.id := uuid;
       IEvent.title := IEventInput.title event;
       IEvent.description := IEventInput.description event;
       IEvent.mode := IEventInput.mode event;
       IEvent.venue := IEventInput.venue event;
       IEvent.startTime := IEventInput.startTime event;
       IEvent.endTime := IEventInput.endTime event;
       IEvent.priority := priority;
       IEvent.tags := IEventInput.tags event;
       IEvent.workingHours := IEventInput.workingHours event |} in
  ret (normalizeEvent createdEvent).

Definition createEvent (uuid : string) (event : IEventInput.t)
    : M (WorkflowResult JsValue) :=
  normalizedEvent <- prepareCreate uuid event ;;
  detectThenCommit normalizedEvent (IEventInput.workingHours event).

Definition getEvents : M (list INormalizedEvent) :=
  eventsList <- Array_from_values ;;
  ret (sortEvents eventsList).

Definition getEventById (eventId : string) : M (option INormalizedEvent) :=
  events_get eventId.

(** [updateEventById], lines 92-101: the merge, the priority when the merged
    event has none, the normalization.  [{ ...existing, ...eventData }] takes
    every field of [eventData] and keeps [existing.id]; the optional
    [workingHours] is taken from [eventData] when present. *)
Definition prepareUpdate (existing : INormalizedEvent)
    (eventData : IEventInput.t) : M INormalizedEvent :=
  priority <- match IEventInput.priority eventData with
              | Some p => ret p
              | None => generatePriority (IEventInput.title eventData)
                          (IEventInput.description eventData)
              end ;;
  let updatedEvent :=
    {| IEvent.id := id existing;
       IEvent.title := IEventInput.title eventData;
       IEvent.description := IEventInput.description eventData;
       IEvent.mode := IEventInput.mode eventData;
       IEvent.venue := IEventInput.venue eventData;
       IEvent.startTime := IEventInput.startTime eventData;
       IEvent.endTime := IEventInput.endTime eventData;
       IEvent.priority := priority;
       IEvent.tags := IEventInput.tags eventData;
       IEvent.workingHours :=
         match IEventInput.workingHours eventData with
         | Some h => Some h
         | None => workingHours existing
         end |} in
  ret (normalizeEvent updatedEvent).

Definition updateEventById (eventId : string) (eventData : IEventInput.t)
    : M (UpdateResult JsValue) :=
  found <- events_get eventId ;;
  match found with
  | None => ret NotFound
  | Some existing =>
      normalizedEvent <- prepareUpdate existing eventData ;;
      if startTime normalizedEvent >=? endTime normalizedEvent then
        ret (Thrown "End time must be greater than start time")
      else
        r <- detectThenCommit normalizedEvent
               (IEventInput.workingHours eventData) ;;
        ret (Updated r)
  end.

Definition deleteEventById (eventId : string)
    : M (option INormalizedEvent) :=
  found <- events_get eventId ;;
  match found with
  | None => ret None
  | Some event =>
      _ <- events_delete eventId ;;
      ret (Some event)
  end.

Definition filterEventsByTag (tag : string) : M (list INormalizedEvent) :=
  eventList <- Array_from_values ;;
  ret (filter (fun event => existsb (String.eqb tag) (tags event)) eventList).

(** Requests served one after the other. *)
Definition applyRequest (r : Request) (w : World) : World :=
  match r with
  | ReqCreate uuid event => snd (createEvent uuid event w)
  | ReqUpdate eventId eventData => snd (updateEventById eventId eventData w)
  | ReqDelete eventId => snd (deleteEventById eventId w)
  end.

Definition runRequests (rs : list Request) (w : World) : World :=
  fold_left (fun w' r => applyRequest r w') rs w.

End Engine.

(** ** [validations/event.schema.ts] *)

(** A JSON value of a request body.  A number is kept as its literal: the
    schema accepts no number anywhere. *)
#[local] Set Warnings "-register-all".
Inductive Json :=
| JNull
| JBool (b : bool)
| JNumber (literal : string)
| JString (s : string)
| JArray (items : list Json)
| JObject (members : list (string * Json)).
#[local] Set Warnings "register-all".

(** The members of the body object the schema reads; [None] is an absent key
    ([undefined]).  Other keys are stripped by [z.object]. *)
Record RawBody := {
  raw_title : option Json;
  raw_description : option Json;
  raw_mode : option Json;
  raw_venue : option Json;
  raw_startTime : option Json;
  raw_endTime : option Json;
  raw_priority : option Json;
  raw_tags : option Json;
  raw_workingHours : option Json
}.

Definition is_digit_upto (hi : nat) (c : ascii) : bool :=
  (48 <=? nat_of_ascii c)%nat && (nat_of_ascii c <=? 48 + hi)%nat.

(** [/^([0-1]?[0-9]|2[0-3]):[0-5][0-9]$/.test(s)] *)
Definition hhmm_test (s : string) : bool :=
  match s with
  | String h (String ":" (String m1 (String m2 EmptyString))) =>
      is_digit_upto 9 h && is_digit_upto 5 m1 && is_digit_upto 9 m2
  | String h1 (String h2 (String ":" (String m1 (String m2 EmptyString)))) =>
      ((is_digit_upto 1 h1 && is_digit_upto 9 h2)
       || (Ascii.eqb h1 "2" && is_digit_upto 3 h2))
      && is_digit_upto 5 m1 && is_digit_upto 9 m2
  | _ => false
  end.

Definition option_bind {A B} (o : option A) (k : A -> option B) : option B :=
  match o with
  | Some a => k a
  | None => None
  end.
Notation "x <-? o ;; k" := (option_bind o (fun x => k))
  (at level 61, o at next level, right associativity).

Fixpoint lookup_member (k : string) (members : list (string * Json))
    : option Json :=
  match members with
  | [] => None
  | (k', v) :: rest => if String.eqb k' k then Some v else lookup_member k rest
  end.

Section Schema.
(** [String.prototype.trim] and the [length] of a string. *)
Variable trim : string -> string.
Variable js_length : string -> nat.
(** The time value of [new Date(s)] for a string; [None] for an invalid
    date. *)
Variable Date_parse : string -> option Z.

(** [z.string(..).trim().min(lo).max(hi)]; [hi = None] without [.max]. *)
Definition z_string (lo : nat) (hi : option nat) (v : option Json)
    : option string :=
  match v with
  | Some (JString s) =>
      let t := trim s in
      if (lo <=? js_length t)%nat
         && match hi with
            | Some h => (js_length t <=? h)%nat
            | None => true
            end
      then Some t else None
  | _ => None
  end.

(** [z.enum(['online', 'offline'], ..).default('offline')] *)
Definition z_mode (v : option Json) : option Mode :=
  match v with
  | None => Some offline
  | Some (JString s) =>
      if String.eqb s "online" then Some online
      else if String.eqb s "offline" then Some offline
      else None
  | Some _ => None
  end.

(** [z.enum(['high', 'medium', 'low'], ..).default('medium')] *)
Definition z_priority (v : option Json) : option Priority :=
  match v with
  | None => Some medium
  | Some (JString s) =>
      if String.eqb s "high" then Some high
      else if String.eqb s "medium" then Some medium
      else if String.eqb s "low" then Some low
      else None
  | Some _ => None
  end.

(** [z.preprocess(arg => typeof arg === 'string' ... ? new Date(arg) : arg,
    z.date(..))]: of the JSON values only a string becomes a [Date], and
    [z.date] rejects an invalid one. *)
Definition z_date (v : option Json) : option Date :=
  match v with
  | Some (JString s) => option_map mkDate (Date_parse s)
  | _ => None
  end.

Fixpoint z_tag_items (items : list Json) : option (list string) :=
  match items with
  | [] => Some []
  | item :: rest =>
      t <-? z_string 1 None (Some item) ;;
      ts <-? z_tag_items rest ;;
      Some (t :: ts)
  end.

(** [z.array(z.string().trim().min(1, ..)).optional().default([])] *)
Definition z_tags (v : option Json) : option (list string) :=
  match v with
  | None => Some []
  | Some (JArray items) => z_tag_items items
  | Some _ => None
  end.

Definition z_hhmm (v : option Json) : option string :=
  match v with
  | Some (JString s) => if hhmm_test s then Some s else None
  | _ => None
  end.

(** [z.object({ start: .., end: .. }).optional()]; the outer [option] is
    the verdict, the inner one the presence of the member. *)
Definition z_workingHours (v : option Json)
    : option (option IWorkingHours) :=
  match v with
  | None => Some None
  | Some (JObject members) =>
      s <-? z_hhmm (lookup_member "start" members) ;;
      e <-? z_hhmm (lookup_member "end" members) ;;
      Some (Some {| wh_start := s; wh_end := e |})
  | Some _ => None
  end.

(** [eventSchema.parseAsync(req.body)]; [None] for a [ZodError]. *)
Definition eventSchema (body : RawBody) : option IEventInput.t :=
  title <-? z_string 3 (Some 100%nat) (raw_title body) ;;
  description <-? z_string 3 (Some 300%nat) (raw_description body) ;;
  mode <-? z_mode (raw_mode body) ;;
  venue <-? z_string 3 None (raw_venue body) ;;
  startTime <-? z_date (raw_startTime body) ;;
  endTime <-? z_date (raw_endTime body) ;;
  priority <-? z_priority (raw_priority body) ;;
  tags <-? z_tags (raw_tags body) ;;
  workingHours <-? z_workingHours (raw_workingHours body) ;;
  (* .refine((data) => data.endTime > data.startTime, ..) *)
  if getTime endTime >? getTime startTime then
    Some {| IEventInput.title := title;
            IEventInput.description := description;
            IEventInput.mode := mode;
            IEventInput.venue := venue;
            IEventInput.startTime := startTime;
            IEventInput.endTime := endTime;
            IEventInput.priority := Some priority;
            IEventInput.tags := tags;
            IEventInput.workingHours := workingHours |}
  else None.
End Schema.

(** ** An instance of the parameters, for computing examples

    The string builtins on ASCII text, and a [JSON.parse] that reads the one
    shape the prompt asks for, [{ "startTime": "..." }]. *)
Module Ascii7.
Definition is_space (c : ascii) : bool :=
  let n := nat_of_ascii c in
  ((9 <=? n) && (n <=? 13) || (n =? 32))%nat.

Definition lower_char (c : ascii) : ascii :=
  let n := nat_of_ascii c in
  if ((65 <=? n) && (n <=? 90))%nat then ascii_of_nat (n + 32) else c.

Fixpoint toLowerCase (s : string) : string :=
  match s with
  | EmptyString => EmptyString
  | String c s' => String (lower_char c) (toLowerCase s')
  end.

Fixpoint trim_start (s : string) : string :=
  match s with
  | EmptyString => EmptyString
  | String c s' => if is_space c then trim_start s' else s
  end.

Fixpoint trim_end (s : string) : string :=
  match s with
  | EmptyString => EmptyString
  | String c s' =>
      match trim_end s' with
      | EmptyString => if is_space c then EmptyString else String c EmptyString
      | t => String c t
      end
  end.

Definition trim (s : string) : string := trim_end (trim_start s).

Definition dquote : string := String (ascii_of_nat 34) EmptyString.

Definition startTime_open : string :=
  String.append "{ " (String.append dquote (String.append "startTime"
    (String.append dquote (String.append ": " dquote)))).
Definition startTime_close : string := String.append dquote " }".

Definition JSON_parse (s : string) : option Json :=
  if String.prefix startTime_open s then
    let rest := drop_chars (String.length startTime_open) s in
    match beforeFirst dquote rest with
    | Some iso =>
        if String.eqb rest (String.append iso startTime_close)
        then Some (JObject [("startTime"%string, JString iso)])
        else None
    | None => None
    end
  else None.

(** The [Date] parser on the two timestamps of the examples. *)
Definition Date_parse (s : string) : option Z :=
  if String.eqb s "2025-11-16T09:00:00Z" then Some 1763283600000
  else if String.eqb s "2025-11-16T10:00:00Z" then Some 1763287200000
  else None.

(** A model that answers every request with the same text. *)
Definition constant_model (text : string) : nat -> Prompt -> string :=
  fun _ _ => text.
End Ascii7.

(** ** Sample data *)

Definition sampleInput (title : string) (startTime endTime : Z)
    (tags : list string) : IEventInput.t :=
  {| IEventInput.title := title;
     IEventInput.description := "weekly sync";
     IEventInput.mode := offline;
     IEventInput.venue := "Room A";
     IEventInput.startTime := mkDate startTime;
     IEventInput.endTime := mkDate endTime;
     IEventInput.priority := Some medium;
     IEventInput.tags := tags;
     IEventInput.workingHours := None |}.

Definition sampleEvent (id title : string) (startTime endTime : Z)
    (tags : list string) : INormalizedEvent :=
  {| id := id; title := title; description := "weekly sync";
     mode := offline; venue := "Room A";
     startTime := startTime; endTime := endTime;
     priority := medium; tags := tags; workingHours := None |}.

Definition emptyWorld : World := {| events := []; requests := [] |}.

(** ** Predicates of the specification *)

(** Half-open interval overlap of a candidate with an existing event. *)
Definition overlaps (candidate existing : INormalizedEvent) : Prop :=
  startTime candidate < endTime existing
  /\ endTime candidate > startTime existing.

(** The test of the loop body as one boolean. *)
Definition conflictsWith (candidate existing : INormalizedEvent) : bool :=
  negb (String.eqb (id existing) (id candidate))
  && ((startTime candidate <? endTime existing)
      && (endTime candidate >? startTime existing)).

(** Ascending by start time. *)
Definition ascendingByStart (l : list INormalizedEvent) : Prop :=
  StronglySorted (fun a b => startTime a <= startTime b) l.

Definition includesTag (tag : string) (event : INormalizedEvent) : bool :=
  existsb (String.eqb tag) (tags event).

(** The name of a priority, as the model is asked to answer it. *)
Definition priorityName (p : Priority) : string :=
  match p with
  | low => "low"
  | medium => "medium"
  | high => "high"
  end.

(** [pat] occurs in [s]. *)
Definition occursIn (pat s : string) : Prop :=
  exists pre post, s = String.append pre (String.append pat post).

(** A response with a fenced block: an opening fence, then, after it, a
    closing fence. *)
Definition hasFencedBlock (text : string) : Prop :=
  exists pre block post,
    text = String.append pre (String.append fence_open
             (String.append block (String.append fence_close post))).

(** The upstream validation precondition: [endTime > startTime]. *)
Definition validInput (event : IEventInput.t) : Prop :=
  getTime (IEventInput.startTime event) < getTime (IEventInput.endTime event).

Definition validRequest (r : Request) : Prop :=
  match r with
  | ReqCreate _ event => validInput event
  | ReqUpdate _ eventData => validInput eventData
  | ReqDelete _ => True
  end.

(** The store invariant: keys are distinct, every event is stored under its
    own id and has a non-empty time range. *)
Definition storeInvariant (m : JsMap INormalizedEvent) : Prop :=
  NoDup (Map_keys m)
  /\ Forall (fun kv => id (snd kv) = fst kv
                       /\ startTime (snd kv) < endTime (snd kv)) m.

(** Same relative order of the events that start at the same time. *)
Definition sameTieOrder (l1 l2 : list INormalizedEvent) : Prop :=
  forall t, filter (fun e => startTime e =? t) l1
            = filter (fun e => startTime e =? t) l2.

Definition isPriorityPrompt (q : Prompt) : bool :=
  match q with
  | PriorityPrompt _ _ => true
  | BetterTimePrompt _ _ _ _ => false
  end.

(** The requests sent between two states. *)
Definition newRequests (before after : World) : list Prompt :=
  skipn (List.length (requests before)) (requests after).

(** The service over the example builtins. *)
Module Demo.
Definition createEvent (model : nat -> Prompt -> string) :=
  createEvent Json JNull Ascii7.JSON_parse Ascii7.toLowerCase Ascii7.trim
    model.
Definition updateEventById (model : nat -> Prompt -> string) :=
  updateEventById Json JNull Ascii7.JSON_parse Ascii7.toLowerCase Ascii7.trim
    model.
Definition runRequests (model : nat -> Prompt -> string) :=
  runRequests Json JNull Ascii7.JSON_parse Ascii7.toLowerCase Ascii7.trim
    model.
Definition eventSchema :=
  eventSchema Ascii7.trim String.length Ascii7.Date_parse.
Definition silent : nat -> Prompt -> string := Ascii7.constant_model "".
End Demo.

(** The request body of the README example, with the given timestamps. *)
Definition teamMeeting (startTime endTime : string) : RawBody :=
  {| raw_title := Some (JString "Team Meeting");
     raw_description := Some (JString "Weekly sync-up with project team.");
     raw_mode := Some (JString "offline");
     raw_venue := Some (JString "Conference Room A");
     raw_startTime := Some (JString startTime);
     raw_endTime := Some (JString endTime);
     raw_priority := None;
     raw_tags := Some (JArray [JString "meeting"]);
     raw_workingHours := None |}.

(** A store filled in an order that is not the order of the start times:
    the 10:00 review is created before the 9:00 standup (times in minutes). *)
Definition reviewThenStandup : World :=
  Demo.runRequests Demo.silent
    [ReqCreate "id-review" (sampleInput "review" 600 660 ["work"%string]);
     ReqCreate "id-standup" (sampleInput "standup" 540 600 ["work"%string])]
    emptyWorld.

(** ** The HTTP layer

    [utils/apiError.util.ts], [utils/apiReponse.util.ts],
    [middlewares/validate.middleware.ts], [middlewares/error.middleware.ts],
    [controllers/event.controller.ts] and [routes/event.route.ts]. *)

(** [ApiError]; its [success] field is always [false]. *)
Record ApiError := new_ApiError {
  err_statusCode : nat;
  err_message : string
}.

(** The [data] a controller of the event routes puts in an [ApiResponse]. *)
Inductive ResponseData (JsValue : Type) :=
| DataId (eventId : string)
| DataEvent (event : INormalizedEvent)
| DataEvents (eventsList : list INormalizedEvent)
| DataConflicts (conflicts : list INormalizedEvent) (suggestion : JsValue).
Arguments DataId {JsValue} eventId.
Arguments DataEvent {JsValue} event.
Arguments DataEvents {JsValue} eventsList.
Arguments DataConflicts {JsValue} conflicts suggestion.

(** [ApiResponse]; its [error] field is always [null]. *)
Record ApiResponse (JsValue : Type) := mkApiResponse {
  success : bool;
  statusCode : nat;
  message : string;
  data : ResponseData JsValue
}.
Arguments mkApiResponse {JsValue} success statusCode message data.
Arguments success {JsValue} a.
Arguments statusCode {JsValue} a.
Arguments message {JsValue} a.
Arguments data {JsValue} a.

Definition new_ApiResponse {JsValue} (statusCode : nat) (message : string)
    (data : ResponseData JsValue) : ApiResponse JsValue :=
  mkApiResponse (statusCode <? 400)%nat statusCode message data.

(** What a handler does with a request: [res.status(s).json(body)], or
    [next(err)]. *)
Inductive Handled (JsValue : Type) :=
| Replied (status : nat) (body : ApiResponse JsValue)
| Next (err : ApiError).
Arguments Replied {JsValue} status body.
Arguments Next {JsValue} err.

(** [errorMiddleware] on an [ApiError]: the status, and the [success],
    [status] and [message] members of the JSON body. *)
Definition errorMiddleware (err : ApiError) : nat * (bool * nat * string) :=
  (err_statusCode err, (false, err_statusCode err, err_message err)).

(** The status the client receives. *)
Definition httpStatus {JsValue} (h : Handled JsValue) : nat :=
  match h with
  | Replied status _ => status
  | Next err => fst (errorMiddleware err)
  end.

(** A request to the event routes.  [uuid] is the value [randomUUID()]
    returns while the request is served; an absent [tag] is a query without
    that parameter. *)
Inductive HttpRequest :=
| GetEvents
| PostEvent (uuid : string) (body : RawBody)
| GetFiltered (tag : option string)
| GetEvent (eventId : string)
| PutEvent (eventId : string) (body : RawBody)
| DeleteEvent (eventId : string).

Module Controller.
Section Handlers.
Variable JsValue : Type.
Variable null : JsValue.
Variable JSON_parse : string -> option JsValue.
Variable toLowerCase : string -> string.
Variable trim : string -> string.
Variable js_length : string -> nat.
Variable Date_parse : string -> option Z.
(** The [message] of the [ZodError] for a rejected body. *)
Variable zodMessage : RawBody -> string.
Variable model : nat -> Prompt -> string.

Local Abbreviation service_createEvent :=
  (createEvent JsValue null JSON_parse toLowerCase trim model).
Local Abbreviation service_updateEventById :=
  (updateEventById JsValue null JSON_parse toLowerCase trim model).
Local Abbreviation service_deleteEventById := deleteEventById.
Local Abbreviation service_filterEventsByTag := filterEventsByTag.

(** [validateMiddleware(eventSchema)]: the validated body replaces
    [req.body], or the request ends with a 400. *)
Definition validateMiddleware (body : RawBody) : IEventInput.t + ApiError :=
  match eventSchema trim js_length Date_parse body with
  | Some validatedBody => inl validatedBody
  | None => inr (new_ApiError 400 (zodMessage body))
  end.

(** The controllers.  A validated body is an object, and so is truthy; a
    route parameter or a query parameter is falsy when it is the empty
    string or absent. *)
Definition createEvent (uuid : string) (event : IEventInput.t)
    : M (Handled JsValue) :=
  result <- service_createEvent uuid event ;;
  match result with
  | ConflictReported conflicts suggestion =>
      ret (Replied 409
             (new_ApiResponse 409 "Event conflicts with existing events"
                (DataConflicts conflicts suggestion)))
  | Committed event' =>
      ret (Replied 201
             (new_ApiResponse 201 "Event created successfully"
                (DataId (id event'))))
  end.

Definition fetchEvents : M (Handled JsValue) :=
  eventsList <- getEvents ;;
  if (List.length eventsList =? 0)%nat then
    ret (Next (new_ApiError 404 "No events found"))
  else
    ret (Replied 200
           (new_ApiResponse 200 "Events fetched successfully"
              (DataEvents eventsList))).

Definition fetchEventById (eventId : string) : M (Handled JsValue) :=
  if String.eqb eventId "" then
    ret (Next (new_ApiError 400 "Event ID is required"))
  else
    found <- getEventById eventId ;;
    match found with
    | None => ret (Next (new_ApiError 404 "Event not found"))
    | Some event =>
        ret (Replied 200
               (new_ApiResponse 200 "Event fetched successfully"
                  (DataEvent event)))
    end.

Definition updateEventById (eventId : string) (eventData : IEventInput.t)
    : M (Handled JsValue) :=
  if String.eqb eventId "" then
    ret (Next (new_ApiError 400 "Event ID is required"))
  else
    result <- service_updateEventById eventId eventData ;;
    match result with
    | NotFound => ret (Next (new_ApiError 404 "Event not found"))
    | Updated (ConflictReported conflicts suggestion) =>
        ret (Replied 409
               (new_ApiResponse 409 "Event conflicts with existing events"
                  (DataConflicts conflicts suggestion)))
    | Updated (Committed event) =>
        ret (Replied 200
               (new_ApiResponse 200 "Event updated successfully"
                  (DataEvent event)))
    | Thrown errorMessage =>       (* catch (error: any) *)
        ret (Next (new_ApiError 400 errorMessage))
    end.

Definition deleteEventById (eventId : string) : M (Handled JsValue) :=
  if String.eqb eventId "" then
    ret (Next (new_ApiError 400 "Event ID is required"))
  else
    found <- service_deleteEventById eventId ;;
    match found with
    | None => ret (Next (new_ApiError 404 "Event not found"))
    | Some event =>
        ret (Replied 200
               (new_ApiResponse 200 "Event deleted successfully"
                  (DataEvent event)))
    end.

Definition filterEventsByTag (tag : option string) : M (Handled JsValue) :=
  match tag with
  | None | Some EmptyString =>
      ret (Next (new_ApiError 400 "Tag is required"))
  | Some tag' =>
      filteredEvents <- service_filterEventsByTag tag' ;;
      if (List.length filteredEvents =? 0)%nat then
        ret (Next (new_ApiError 404 "No events found for the given tag"))
      else
        ret (Replied 200
               (new_ApiResponse 200 "Events fetched successfully"
                  (DataEvents filteredEvents)))
  end.

(** [routes/event.route.ts]: the handler chain of each route. *)
Definition serve (req : HttpRequest) : M (Handled JsValue) :=
  match req with
  | GetEvents => fetchEvents
  | PostEvent uuid body =>
      match validateMiddleware body with
      | inl event => createEvent uuid event
      | inr err => ret (Next err)
      end
  | GetFiltered tag => filterEventsByTag tag
  | GetEvent eventId => fetchEventById eventId
  | PutEvent eventId body =>
      match validateMiddleware body with
      | inl eventData => updateEventById eventId eventData
      | inr err => ret (Next err)
      end
  | DeleteEvent eventId => deleteEventById eventId
  end.

(** Requests served one after the other. *)
Definition serveAll (reqs : list HttpRequest) (w : World) : World :=
  fold_left (fun w' req => snd (serve req w')) reqs w.

End Handlers.
End Controller.

(** ** Further predicates *)

(** No two events stored under different keys overlap. *)
Definition noOverlap (m : JsMap INormalizedEvent) : Prop :=
  forall k1 e1 k2 e2,
    In (k1, e1) m -> In (k2, e2) m -> k1 <> k2 -> ~ overlaps e1 e2.

(** Keys are distinct, every event is stored under its own id, and no two
    stored events overlap. *)
Definition bookingInvariant (m : JsMap INormalizedEvent) : Prop :=
  NoDup (Map_keys m)
  /\ Forall (fun kv => id (snd kv) = fst kv) m
  /\ noOverlap m.

Definition backtick : ascii := ascii_of_nat 96.

(** [s] has no backtick. *)
Fixpoint backtickFree (s : string) : bool :=
  match s with
  | EmptyString => true
  | String c s' => negb (Ascii.eqb c backtick) && backtickFree s'
  end.

(** A time of day as text: the decimal digits of the hour, one or two, a
    colon, the two digits of the minute. *)
Definition digit (n : nat) : ascii := ascii_of_nat (48 + n).

Definition two_digits (n : nat) : string :=
  String (digit (n / 10)) (String (digit (n mod 10)) EmptyString).

Definition timeOfDay (padded : bool) (hour minute : nat) : string :=
  String.append
    (if padded then two_digits hour else String (digit hour) EmptyString)
    (String ":" (two_digits minute)).

(** The HTTP layer over the example builtins; a rejected body is answered
    with the same text whatever the body. *)
Definition demoServeAll (reqs : list HttpRequest) (w : World) : World :=
  Controller.serveAll Json JNull Ascii7.JSON_parse Ascii7.toLowerCase
    Ascii7.trim String.length Ascii7.Date_parse (fun _ => "invalid body"%string)
    (Ascii7.constant_model "") reqs w.

Definition demoServe (req : HttpRequest) (w : World)
    : Handled Json * World :=
  Controller.serve Json JNull Ascii7.JSON_parse Ascii7.toLowerCase
    Ascii7.trim String.length Ascii7.Date_parse (fun _ => "invalid body"%string)
    (Ascii7.constant_model "") req w.

(** ** The service and the routes when a call fails

    No [await] of [ai.service.ts] stands inside a [try]: when the call to
    the model rejects, or reading its text throws, the error leaves
    [generatePriority] and [suggestBetterTime], and with them [createEvent]
    and [updateEventById].  Here an answer of the model is a text or a
    rejection, and a method returns a value or throws.  The update merges
    [{ ...existing, ...eventData }] key by key; the router tries
    ['/filtered'] before ['/:id']; [errorMiddleware] has its three
    branches. *)

(** A JavaScript [Error]: its [name] and its [message]. *)
Record JsError := new_Error {
  error_name : string;
  error_message : string
}.

(** What awaiting the model gives. *)
Inductive Completion :=
| Answered (text : string)
| Rejection (error : JsError).

(** What a method does: it returns, or it throws. *)
Inductive Outcome (A : Type) :=
| Returns (a : A)
| Throws (error : JsError).
Arguments Returns {A} a.
Arguments Throws {A} error.

Definition MX (A : Type) : Type := World -> Outcome A * World.
Definition retX {A} (a : A) : MX A := fun w => (Returns a, w).
Definition throwX {A} (error : JsError) : MX A := fun w => (Throws error, w).
Definition bindX {A B} (c : MX A) (k : A -> MX B) : MX B :=
  fun w => match c w with
           | (Returns a, w') => k a w'
           | (Throws error, w') => (Throws error, w')
           end.
Definition liftX {A} (c : M A) : MX A :=
  fun w => let (a, w') := c w in (Returns a, w').
Notation "x <-! c1 ;; c2" := (bindX c1 (fun x => c2))
  (at level 61, c1 at next level, right associativity).

(** [try { block } catch (error) { handler }] *)
Definition tryCatch {A} (block : MX A) (handler : JsError -> MX A) : MX A :=
  fun w => match block w with
           | (Returns a, w') => (Returns a, w')
           | (Throws error, w') => handler error w'
           end.

(** The optional members of an [eventData] object, [priority] and
    [workingHours], when they hold no value: the key is absent, or it is an
    own key holding [undefined].  The object spread copies own keys only. *)
Record OwnUndefined := {
  ownPriority : bool;
  ownWorkingHours : bool
}.

(** The output of [eventSchema] has an own key for every member with a
    value, and no other. *)
Definition parsedKeys : OwnUndefined :=
  {| ownPriority := false; ownWorkingHours := false |}.

(** A member of [{ ...existing, ...eventData }]. *)
Definition spread {A} (existing : option A) (value : option A) (own : bool)
    : option A :=
  match value with
  | Some v => Some v
  | None => if own then None else existing
  end.

(** What is handed to [next]: an [ApiError], or another error. *)
Inductive Passed :=
| PassedApiError (err : ApiError)
| PassedError (err : JsError).

(** What the handlers of a route do with a request:
    [res.status(s).json(body)], or [next(err)]. *)
Inductive Ended (JsValue : Type) :=
| Sent (status : nat) (body : ApiResponse JsValue)
| Failed (err : Passed).
Arguments Sent {JsValue} status body.
Arguments Failed {JsValue} err.

(** [asyncHandler] comes from [utils/asyncHandler.util.js], which is not
    among the sources.  It is taken to be the usual wrapper of an
    asynchronous handler,
    [(req, res, next) => Promise.resolve(handler(req, res, next)).catch(next)]:
    what the handler throws is handed to [next]. *)
Definition asyncHandler {JsValue} (handler : MX (Ended JsValue))
    : M (Ended JsValue) :=
  fun w => match handler w with
           | (Returns ended, w') => (ended, w')
           | (Throws error, w') => (Failed (PassedError error), w')
           end.

(** The segment of a path ['/<segment>']: it is never empty. *)
Record PathSegment := segment {
  segment_head : ascii;
  segment_tail : string
}.
Definition segment_text (seg : PathSegment) : string :=
  String (segment_head seg) (segment_tail seg).

(** A request under ['/api/v1/events'].  [express.json()] comes first: a
    request whose body it cannot parse, whatever its method and path, ends
    with the parser's error.  The others go to ['/'] or to ['/<segment>'];
    a [GET] carries the [tag] of its query, if any, and a [POST] and a
    [PUT] carry the members of the body object that the schema reads.
    [uuid] is the value [randomUUID()] returns while the request is
    served. *)
Inductive Arrival :=
| Malformed (error : JsError)
| GetRoot
| PostRoot (uuid : string) (body : RawBody)
| GetAt (seg : PathSegment) (tag : option string)
| PutAt (seg : PathSegment) (body : RawBody)
| DeleteAt (seg : PathSegment).

(** The error of a route parameter that cannot be decoded. *)
Definition decodeError (seg : PathSegment) : JsError :=
  new_Error "URIError"
    (String.append "Failed to decode param '"
       (String.append (segment_text seg) "'")).

Module Fallible.
Section Service.
Variable JsValue : Type.
Variable null : JsValue.
Variable JSON_parse : string -> option JsValue.
Variable toLowerCase : string -> string.
Variable trim : string -> string.
(** What the model does with its [n]-th request. *)
Variable answers : nat -> Prompt -> Completion.

(** [(await (await this.model.generateContent(prompt)).response).text()] *)
Definition generateContent (prompt : Prompt) : MX string :=
  fun w =>
    (match answers (List.length (requests w)) prompt with
     | Answered text => Returns text
     | Rejection error => Throws error
     end,
     {| events := events w; requests := requests w ++ [prompt] |}).

Definition suggestBetterTime (conflictingEvent : INormalizedEvent)
    (allEvents : list INormalizedEvent)
    (workingHours : option IWorkingHours) : MX JsValue :=
  text <-! generateContent
             (betterTimePrompt conflictingEvent allEvents workingHours) ;;
  retX (parseSuggestion JsValue null JSON_parse text).

Definition generatePriority (title description : string) : MX Priority :=
  response <-! generateContent (PriorityPrompt title description) ;;
  retX (classifyPriority toLowerCase trim response).

(** Both workflows after normalization. *)
Definition detectThenCommit (normalizedEvent : INormalizedEvent)
    (workingHours : option IWorkingHours) : MX (WorkflowResult JsValue) :=
  eventsList <-! liftX Array_from_values ;;
  let conflicts := detectConflictsForEvent normalizedEvent eventsList in
  if (0 <? List.length conflicts)%nat then
    suggestion <-! suggestBetterTime normalizedEvent eventsList workingHours ;;
    retX (ConflictReported conflicts suggestion)
  else
    _ <-! liftX (events_set (id normalizedEvent) normalizedEvent) ;;
    retX (Committed normalizedEvent).

(** [createEvent], lines 31-43. *)
Definition prepareCreate (uuid : string) (event : IEventInput.t)
    : MX INormalizedEvent :=
  priority <-! match IEventInput.priority event with
               | Some p => retX p
               | None => generatePriority (IEventInput.title event)
                           (IEventInput.description event)
               end ;;
  let createdEvent :=
    {| IEvent.id := uuid;
       IEvent.title := IEventInput.title event;
       IEvent.description := IEventInput.description event;
       IEvent.mode := IEventInput.mode event;
       IEvent.venue := IEventInput.venue event;
       IEvent.startTime := IEventInput.startTime event;
       IEvent.endTime := IEventInput.endTime event;
       IEvent.priority := priority;
       IEvent.tags := IEventInput.tags event;
       IEvent.workingHours := IEventInput.workingHours event |} in
  retX (normalizeEvent createdEvent).

Definition createEvent (uuid : string) (event : IEventInput.t)
    : MX (WorkflowResult JsValue) :=
  normalizedEvent <-! prepareCreate uuid event ;;
  detectThenCommit normalizedEvent (IEventInput.workingHours event).

(** [updateEventById], lines 92-101.  The members of [eventData] that
    always hold a value replace those of [existing]; [priority] and
    [workingHours] are spread; [id] is no member of [eventData]. *)
Definition prepareUpdate (existing : INormalizedEvent)
    (eventData : IEventInput.t) (keys : OwnUndefined)
    : MX INormalizedEvent :=
  priority <-! match spread (Some (priority existing))
                       (IEventInput.priority eventData) (ownPriority keys)
               with
               | Some p => retX p
               | None => generatePriority (IEventInput.title eventData)
                           (IEventInput.description eventData)
               end ;;
  let updatedEvent :=
    {| IEvent.id := id existing;
       IEvent.title := IEventInput.title eventData;
       IEvent.description := IEventInput.description eventData;
       IEvent.mode := IEventInput.mode eventData;
       IEvent.venue := IEventInput.venue eventData;
       IEvent.startTime := IEventInput.startTime eventData;
       IEvent.endTime := IEventInput.endTime eventData;
       IEvent.priority := priority;
       IEvent.tags := IEventInput.tags eventData;
       IEvent.workingHours :=
         spread (workingHours existing) (IEventInput.workingHours eventData)
           (ownWorkingHours keys) |} in
  retX (normalizeEvent updatedEvent).

(** [updateEventById]: [Returns None] is the [null] of an unknown id. *)
Definition updateEventById (eventId : string) (eventData : IEventInput.t)
    (keys : OwnUndefined) : MX (option (WorkflowResult JsValue)) :=
  found <-! liftX (events_get eventId) ;;
  match found with
  | None => retX None
  | Some existing =>
      normalizedEvent <-! prepareUpdate existing eventData keys ;;
      if startTime normalizedEvent >=? endTime normalizedEvent then
        throwX (new_Error "Error" "End time must be greater than start time")
      else
        result <-! detectThenCommit normalizedEvent
                     (IEventInput.workingHours eventData) ;;
        retX (Some result)
  end.
End Service.

(** [errorMiddleware]: the status, and the [success], [status] and
    [message] members of the JSON body. *)
Definition errorMiddleware (err : Passed) : nat * (bool * nat * string) :=
  match err with
  | PassedApiError e =>
      (err_statusCode e, (false, err_statusCode e, err_message e))
  | PassedError e =>
      if String.eqb (error_name e) "ValidationError" then
        (400%nat, (false, 400%nat, error_message e))
      else
        (500%nat, (false, 500%nat, "Internal Server Error"%string))
  end.

(** The status the client receives. *)
Definition httpStatus {JsValue} (h : Ended JsValue) : nat :=
  match h with
  | Sent status _ => status
  | Failed err => fst (errorMiddleware err)
  end.

Module Controller.
Section Handlers.
Variable JsValue : Type.
Variable null : JsValue.
Variable JSON_parse : string -> option JsValue.
Variable toLowerCase : string -> string.
Variable trim : string -> string.
Variable js_length : string -> nat.
Variable Date_parse : string -> option Z.
(** The [message] of the [ZodError] for a rejected body. *)
Variable zodMessage : RawBody -> string.
Variable answers : nat -> Prompt -> Completion.
(** The router's match of a path segment against ['/filtered'], and its
    decoding of the segment as the parameter of ['/:id'], which fails on a
    malformed escape. *)
Variable matchesFiltered : PathSegment -> bool.
Variable decodeParam : PathSegment -> option PathSegment.

Local Abbreviation service_createEvent :=
  (createEvent JsValue null JSON_parse toLowerCase trim answers).
Local Abbreviation service_updateEventById :=
  (updateEventById JsValue null JSON_parse toLowerCase trim answers).
Local Abbreviation service_deleteEventById := deleteEventById.
Local Abbreviation service_filterEventsByTag := filterEventsByTag.

(** [validateMiddleware(eventSchema)]: the validated body replaces
    [req.body], or the request ends with a 400. *)
Definition validateMiddleware (body : RawBody) : IEventInput.t + ApiError :=
  match eventSchema trim js_length Date_parse body with
  | Some validatedBody => inl validatedBody
  | None => inr (new_ApiError 400 (zodMessage body))
  end.

(** The controllers.  A validated body is an object, and so is truthy; a
    route parameter or a query parameter is falsy when it is the empty
    string or absent. *)
Definition createEvent (uuid : string) (event : IEventInput.t)
    : M (Ended JsValue) :=
  asyncHandler (
    result <-! service_createEvent uuid event ;;
    match result with
    | ConflictReported conflicts suggestion =>
        retX (Sent 409
                (new_ApiResponse 409 "Event conflicts with existing events"
                   (DataConflicts conflicts suggestion)))
    | Committed event' =>
        retX (Sent 201
                (new_ApiResponse 201 "Event created successfully"
                   (DataId (id event'))))
    end).

Definition fetchEvents : M (Ended JsValue) :=
  asyncHandler (
    eventsList <-! liftX getEvents ;;
    if (List.length eventsList =? 0)%nat then
      retX (Failed (PassedApiError (new_ApiError 404 "No events found")))
    else
      retX (Sent 200
              (new_ApiResponse 200 "Events fetched successfully"
                 (DataEvents eventsList)))).

Definition fetchEventById (eventId : string) : M (Ended JsValue) :=
  asyncHandler (
    if String.eqb eventId "" then
      retX (Failed (PassedApiError (new_ApiError 400 "Event ID is required")))
    else
      found <-! liftX (getEventById eventId) ;;
      match found with
      | None =>
          retX (Failed (PassedApiError (new_ApiError 404 "Event not found")))
      | Some event =>
          retX (Sent 200
                  (new_ApiResponse 200 "Event fetched successfully"
                     (DataEvent event)))
      end).

Definition updateEventById (eventId : string) (eventData : IEventInput.t)
    : M (Ended JsValue) :=
  asyncHandler (
    if String.eqb eventId "" then
      retX (Failed (PassedApiError (new_ApiError 400 "Event ID is required")))
    else
      tryCatch (
        result <-! service_updateEventById eventId eventData parsedKeys ;;
        match result with
        | None =>
            retX (Failed (PassedApiError
                            (new_ApiError 404 "Event not found")))
        | Some (ConflictReported conflicts suggestion) =>
            retX (Sent 409
                    (new_ApiResponse 409
                       "Event conflicts with existing events"
                       (DataConflicts conflicts suggestion)))
        | Some (Committed event) =>
            retX (Sent 200
                    (new_ApiResponse 200 "Event updated successfully"
                       (DataEvent event)))
        end)
        (fun error =>
           retX (Failed (PassedApiError
                           (new_ApiError 400 (error_message error)))))).

Definition deleteEventById (eventId : string) : M (Ended JsValue) :=
  asyncHandler (
    if String.eqb eventId "" then
      retX (Failed (PassedApiError (new_ApiError 400 "Event ID is required")))
    else
      found <-! liftX (service_deleteEventById eventId) ;;
      match found with
      | None =>
          retX (Failed (PassedApiError (new_ApiError 404 "Event not found")))
      | Some event =>
          retX (Sent 200
                  (new_ApiResponse 200 "Event deleted successfully"
                     (DataEvent event)))
      end).

Definition filterEventsByTag (tag : option string) : M (Ended JsValue) :=
  asyncHandler (
    match tag with
    | None | Some EmptyString =>
        retX (Failed (PassedApiError (new_ApiError 400 "Tag is required")))
    | Some tag' =>
        filteredEvents <-! liftX (service_filterEventsByTag tag') ;;
        if (List.length filteredEvents =? 0)%nat then
          retX (Failed (PassedApiError
                          (new_ApiError 404
                             "No events found for the given tag")))
        else
          retX (Sent 200
                  (new_ApiResponse 200 "Events fetched successfully"
                     (DataEvents filteredEvents)))
    end).

(** The parameter of ['/:id']. *)
Definition withParam (seg : PathSegment) (rest : string -> M (Ended JsValue))
    : M (Ended JsValue) :=
  match decodeParam seg with
  | None => ret (Failed (PassedError (decodeError seg)))
  | Some eventId => rest (segment_text eventId)
  end.

(** [validateMiddleware(eventSchema)], then the controller. *)
Definition validated (rawBody : RawBody)
    (controller : IEventInput.t -> M (Ended JsValue)) : M (Ended JsValue) :=
  match validateMiddleware rawBody with
  | inl validatedBody => controller validatedBody
  | inr err => ret (Failed (PassedApiError err))
  end.

(** [app.use(express.json())] in [index.ts], then
    [routes/event.route.ts] in the order of registration: ['/'], then
    ['/filtered'], which has a [GET] handler only, then ['/:id']. *)
Definition serve (req : Arrival) : M (Ended JsValue) :=
  match req with
  | Malformed error => ret (Failed (PassedError error))
  | GetRoot => fetchEvents
  | PostRoot uuid body => validated body (createEvent uuid)
  | GetAt seg tag =>
      if matchesFiltered seg then filterEventsByTag tag
      else withParam seg fetchEventById
  | PutAt seg body =>
      withParam seg (fun eventId => validated body (updateEventById eventId))
  | DeleteAt seg => withParam seg deleteEventById
  end.

(** Requests served one after the other. *)
Definition serveAll (reqs : list Arrival) (w : World) : World :=
  fold_left (fun w' req => snd (serve req w')) reqs w.

End Handlers.
End Controller.
End Fallible.

(** A model that rejects every request, and one that answers every request
    with the same text. *)
Definition rejecting (error : JsError) : nat -> Prompt -> Completion :=
  fun _ _ => Rejection error.
Definition answering (text : string) : nat -> Prompt -> Completion :=
  fun _ _ => Answered text.

Definition fetchFailed : JsError := new_Error "Error" "fetch failed".

(** An answer with a fenced block holding the given timestamp. *)
Definition fencedStartTime (iso : string) : string :=
  String.append fence_open
    (String.append Ascii7.startTime_open
       (String.append iso (String.append Ascii7.startTime_close fence_close))).

(** The router's match against ['/filtered'], which disregards the case of
    the letters; the example paths have no escapes, and decoding leaves
    them as they are. *)
Definition demoMatchesFiltered (seg : PathSegment) : bool :=
  String.eqb (Ascii7.toLowerCase (segment_text seg)) "filtered".

Definition demoDecodeParam (seg : PathSegment) : option PathSegment :=
  Some seg.

(** The failing service and its routes over the example builtins. *)
Module FallibleDemo.
Definition createEvent (answers : nat -> Prompt -> Completion) :=
  Fallible.createEvent Json JNull Ascii7.JSON_parse Ascii7.toLowerCase
    Ascii7.trim answers.
Definition updateEventById (answers : nat -> Prompt -> Completion) :=
  Fallible.updateEventById Json JNull Ascii7.JSON_parse Ascii7.toLowerCase
    Ascii7.trim answers.
Definition serve (answers : nat -> Prompt -> Completion) :=
  Fallible.Controller.serve Json JNull Ascii7.JSON_parse Ascii7.toLowerCase
    Ascii7.trim String.length Ascii7.Date_parse
    (fun _ => "invalid body"%string) answers demoMatchesFiltered
    demoDecodeParam.
Definition serveAll (answers : nat -> Prompt -> Completion) :=
  Fallible.Controller.serveAll Json JNull Ascii7.JSON_parse
    Ascii7.toLowerCase Ascii7.trim String.length Ascii7.Date_parse
    (fun _ => "invalid body"%string) answers demoMatchesFiltered
    demoDecodeParam.
End FallibleDemo.

(** A stored event, other than the one with the given id, that the times of
    an input overlap. *)
Definition clashes (ownId : string) (input : IEventInput.t)
    (m : JsMap INormalizedEvent) (existing : INormalizedEvent) : Prop :=
  In existing (Map_values m)
  /\ id existing <> ownId
  /\ getTime (IEventInput.startTime input) < endTime existing
  /\ getTime (IEventInput.endTime input) > startTime existing.

(** The README meeting, booked through the route into an empty store. *)
Definition meetingBody : RawBody :=
  teamMeeting "2025-11-16T09:00:00Z" "2025-11-16T10:00:00Z".

Definition meetingBooked : World :=
  snd (FallibleDemo.serve (answering "")
         (PostRoot "id-meeting" meetingBody) emptyWorld).

(** A second event, from 0:00 to 1:00 of the epoch's first day. *)
Definition meetingAndOther : World :=
  snd (FallibleDemo.createEvent (answering "") "id-other"
         (sampleInput "other" 0 3600000 []) meetingBooked).

Definition filteredSegment : PathSegment := segment "f" "iltered".
Definition otherSegment : PathSegment := segment "i" "d-other".

(** ** The overlap detector *)

Lemma detect_step_fold (c : INormalizedEvent) (l acc : list INormalizedEvent) :
  fold_left (detect_step c) l acc = acc ++ filter (conflictsWith c) l.
Proof.
  revert acc.
  induction l as [| e l IH]; intros acc; simpl.
  - now rewrite app_nil_r.
  - rewrite IH. unfold detect_step, conflictsWith.
    destruct (String.eqb (id e) (id c)); simpl.
    + reflexivity.
    + destruct ((startTime c <? endTime e) && (endTime c >? startTime e));
        simpl; [now rewrite <- app_assoc | reflexivity].
Qed.

Lemma detect_is_filter (c : INormalizedEvent) (l : list INormalizedEvent) :
  detectConflictsForEvent c l = filter (conflictsWith c) l.
Proof. unfold detectConflictsForEvent. now rewrite detect_step_fold. Qed.

Lemma conflictsWith_spec (c e : INormalizedEvent) :
  conflictsWith c e = true <-> id e <> id c /\ overlaps c e.
Proof.
  unfold conflictsWith, overlaps.
  rewrite !andb_true_iff, negb_true_iff, Z.ltb_lt, Z.gtb_gt.
  destruct (String.eqb_spec (id e) (id c)); intuition congruence.
Qed.

Lemma filter_StronglySorted {A} (R : A -> A -> Prop) (f : A -> bool) l :
  StronglySorted R l -> StronglySorted R (filter f l).
Proof.
  induction 1 as [| x l Hl IH Hx]; simpl; [constructor |].
  destruct (f x); [constructor |]; auto.
  rewrite Forall_forall in *. intros y Hy.
  apply filter_In in Hy. now apply Hx.
Qed.

(** C1.  [detectConflictsForEvent] reports an event of the schedule whose id
    differs from the candidate's exactly when the candidate starts before it
    ends and ends after it starts; it never reports an event with the
    candidate's id, reports only events of the schedule, and never reports
    an event that merely touches the candidate at an endpoint. *)
Theorem detectConflicts_half_open (candidate : INormalizedEvent)
    (schedule : list INormalizedEvent) :
  (forall E, In E schedule -> id E <> id candidate ->
     (In E (detectConflictsForEvent candidate schedule)
      <-> startTime candidate < endTime E /\ endTime candidate > startTime E))
  /\ (forall E, id E = id candidate ->
        ~ In E (detectConflictsForEvent candidate schedule))
  /\ (forall E, In E (detectConflictsForEvent candidate schedule) ->
        In E schedule)
  /\ (forall E, endTime candidate = startTime E
                \/ endTime E = startTime candidate ->
        ~ In E (detectConflictsForEvent candidate schedule)).
Proof.
  rewrite detect_is_filter.
  split; [| split; [| split]].
  - intros E HE Hid. rewrite filter_In, conflictsWith_spec.
    unfold overlaps. tauto.
  - intros E Hid H. apply filter_In in H. destruct H as [_ H].
    apply conflictsWith_spec in H. tauto.
  - intros E H. apply filter_In in H. tauto.
  - intros E Htouch H. apply filter_In in H. destruct H as [_ H].
    apply conflictsWith_spec in H. unfold overlaps in H. lia.
Qed.

Lemma detectConflicts_half_open_witness :
  let A := sampleEvent "a" "standup" 540 600 [] in
  let B := sampleEvent "b" "review" 600 660 [] in
  let candidate := sampleEvent "c" "lunch" 600 630 [] in
  In B (detectConflictsForEvent candidate [A; B])
  /\ ~ In A (detectConflictsForEvent candidate [A; B]).
Proof.
  intros A B candidate.
  destruct (detectConflicts_half_open candidate [A; B])
    as (Hiff & _ & _ & Htouch).
  split.
  - apply Hiff.
    + simpl. right. left. reflexivity.
    + discriminate.
    + simpl. lia.
  - apply Htouch. right. reflexivity.
Defined.

(** ** The map in insertion order *)

Section JsMapFacts.
Context {V : Type}.
Implicit Types (m : JsMap V) (k : string) (v : V).

Lemma Map_get_set k k' v m :
  Map_get k' (Map_set k v m)
  = if String.eqb k k' then Some v else Map_get k' m.
Proof.
  induction m as [| [k0 v0] m IH]; simpl.
  - reflexivity.
  - destruct (String.eqb_spec k0 k) as [-> | Hk]; simpl.
    + destruct (String.eqb k k'); reflexivity.
    + rewrite IH. destruct (String.eqb_spec k0 k') as [-> | Hk'].
      * destruct (String.eqb_spec k k'); [congruence | reflexivity].
      * reflexivity.
Qed.

Lemma Map_get_delete k k' m :
  Map_get k' (Map_delete k m)
  = if String.eqb k k' then None else Map_get k' m.
Proof.
  induction m as [| [k0 v0] m IH]; simpl.
  - now destruct (String.eqb k k').
  - destruct (String.eqb_spec k0 k) as [-> | Hk]; simpl.
    + rewrite IH. now destruct (String.eqb k k').
    + rewrite IH. destruct (String.eqb_spec k0 k') as [-> | Hk'].
      * destruct (String.eqb_spec k k'); [congruence | reflexivity].
      * reflexivity.
Qed.

Lemma Map_get_In k v m : Map_get k m = Some v -> In (k, v) m.
Proof.
  induction m as [| [k0 v0] m IH]; simpl; [discriminate |].
  destruct (String.eqb_spec k0 k) as [-> | Hk].
  - intros [= ->]. now left.
  - intros H. right. now apply IH.
Qed.

Lemma Map_keys_set_In k k' v m :
  In k' (Map_keys (Map_set k v m)) <-> k' = k \/ In k' (Map_keys m).
Proof.
  induction m as [| [k0 v0] m IH]; simpl.
  - intuition.
  - destruct (String.eqb_spec k0 k) as [-> | Hk]; simpl.
    + intuition.
    + rewrite IH. intuition.
Qed.

Lemma Map_set_NoDup k v m :
  NoDup (Map_keys m) -> NoDup (Map_keys (Map_set k v m)).
Proof.
  induction m as [| [k0 v0] m IH]; simpl; intros Hnd.
  - constructor; [intros [] | constructor].
  - inversion Hnd as [| ? ? Hnotin Hnd']; subst.
    destruct (String.eqb_spec k0 k) as [-> | Hk]; simpl.
    + now constructor.
    + constructor; [| now apply IH].
      rewrite Map_keys_set_In. intros [-> | Hin]; [congruence | contradiction].
Qed.

Lemma Map_set_Forall (P : string * V -> Prop) k v m :
  P (k, v) -> Forall P m -> Forall P (Map_set k v m).
Proof.
  intros Hkv. induction 1 as [| [k0 v0] m Hx Hm IH]; simpl.
  - now repeat constructor.
  - destruct (String.eqb k0 k); constructor; assumption.
Qed.

(** [set] on a present key keeps the keys and their order. *)
Lemma Map_keys_set_present k v m :
  In k (Map_keys m) -> Map_keys (Map_set k v m) = Map_keys m.
Proof.
  induction m as [| [k0 v0] m IH]; simpl; [intros [] |].
  destruct (String.eqb_spec k0 k) as [-> | Hk]; simpl.
  - reflexivity.
  - intros [Heq | Hin]; [congruence |]. now rewrite IH.
Qed.

Lemma Map_keys_delete_In k k' m :
  In k' (Map_keys (Map_delete k m)) -> In k' (Map_keys m).
Proof.
  induction m as [| [k0 v0] m IH]; simpl; [tauto |].
  destruct (String.eqb k0 k); simpl; intuition.
Qed.

Lemma Map_delete_NoDup k m :
  NoDup (Map_keys m) -> NoDup (Map_keys (Map_delete k m)).
Proof.
  induction m as [| [k0 v0] m IH]; simpl; intros Hnd; [constructor |].
  inversion Hnd as [| ? ? Hnotin Hnd']; subst.
  destruct (String.eqb k0 k); simpl; [now apply IH |].
  constructor; [| now apply IH].
  intros Hin. apply Hnotin. now apply Map_keys_delete_In in Hin.
Qed.

Lemma Map_delete_Forall (P : string * V -> Prop) k m :
  Forall P m -> Forall P (Map_delete k m).
Proof.
  induction 1 as [| [k0 v0] m Hx Hm IH]; simpl; [constructor |].
  destruct (String.eqb k0 k); [assumption | now constructor].
Qed.

Lemma Map_get_keys k v m : Map_get k m = Some v -> In k (Map_keys m).
Proof.
  intros H. apply Map_get_In in H.
  unfold Map_keys. change k with (fst (k, v)). now apply in_map.
Qed.
End JsMapFacts.

(** ** [sortEvents] *)

Lemma sort_insert_perm {A} (cmp : A -> A -> Z) x l :
  Permutation (sort_insert cmp x l) (x :: l).
Proof.
  induction l as [| y l IH]; simpl; [reflexivity |].
  destruct (cmp x y >? 0); [| reflexivity].
  rewrite IH. apply perm_swap.
Qed.

Lemma Array_sort_perm {A} (cmp : A -> A -> Z) l :
  Permutation (Array_sort cmp l) l.
Proof.
  induction l as [| x l IH]; simpl; [reflexivity |].
  rewrite sort_insert_perm. now constructor.
Qed.

Lemma sort_insert_ascending x l :
  ascendingByStart l ->
  ascendingByStart (sort_insert (fun a b => startTime a - startTime b) x l).
Proof.
  unfold ascendingByStart.
  induction 1 as [| y l Hl IH Hy]; simpl.
  - repeat constructor.
  - destruct (Z.gtb_spec (startTime x - startTime y) 0) as [Hgt | Hle].
    + constructor; [exact IH |].
      eapply Permutation_Forall;
        [symmetry; apply sort_insert_perm |].
      constructor; [lia | exact Hy].
    + constructor; [now constructor |].
      constructor; [lia |].
      eapply Forall_impl; [| exact Hy]. simpl. intros; lia.
Qed.

Lemma sortEvents_ascending l : ascendingByStart (sortEvents l).
Proof.
  unfold sortEvents.
  induction l as [| x l IH]; simpl; [constructor |].
  now apply sort_insert_ascending.
Qed.

Lemma sort_insert_ties x l t :
  filter (fun e => startTime e =? t)
    (sort_insert (fun a b => startTime a - startTime b) x l)
  = filter (fun e => startTime e =? t) (x :: l).
Proof.
  induction l as [| y l IH]; [reflexivity |].
  cbn [sort_insert].
  destruct (Z.gtb_spec (startTime x - startTime y) 0) as [Hgt | Hle];
    [| reflexivity].
  cbn [filter] in *. rewrite IH.
  destruct (Z.eqb_spec (startTime x) t), (Z.eqb_spec (startTime y) t);
    try reflexivity.
  lia.
Qed.

Lemma sortEvents_ties l : sameTieOrder (sortEvents l) l.
Proof.
  intros t. unfold sortEvents.
  induction l as [| x l IH]; [reflexivity |].
  cbn [Array_sort fold_right]. rewrite sort_insert_ties.
  cbn [filter]. unfold Array_sort in IH. now rewrite IH.
Qed.

(** ** The fenced block *)

Local Infix "+++" := String.append (right associativity, at level 60).

Lemma append_assoc_s (a b c : string) : (a +++ b) +++ c = a +++ (b +++ c).
Proof. induction a as [| x a IH]; simpl; [reflexivity | now rewrite IH]. Qed.

Lemma length_append_s (a b : string) :
  String.length (a +++ b) = (String.length a + String.length b)%nat.
Proof. induction a as [| x a IH]; simpl; [reflexivity | now rewrite IH]. Qed.

Lemma prefix_append_s (pat s : string) : String.prefix pat (pat +++ s) = true.
Proof.
  induction pat as [| x pat IH]; simpl; [now destruct s |].
  destruct (ascii_dec x x); [exact IH | contradiction].
Qed.

Lemma prefix_drop (pat s : string) :
  String.prefix pat s = true ->
  s = pat +++ drop_chars (String.length pat) s.
Proof.
  revert s. induction pat as [| x pat IH]; intros s.
  - reflexivity.
  - destruct s as [| y s]; simpl; [discriminate |].
    destruct (ascii_dec x y) as [-> | _]; [| discriminate].
    intros H. f_equal. now apply IH.
Qed.

Lemma drop_chars_append (n : nat) (x y : string) :
  (n <= String.length x)%nat ->
  drop_chars n (x +++ y) = drop_chars n x +++ y.
Proof.
  revert x. induction n as [| n IH]; intros x Hle; [reflexivity |].
  destruct x as [| c x]; simpl in *; [lia |].
  apply IH. lia.
Qed.

Lemma afterFirst_sound (pat s rest : string) :
  afterFirst pat s = Some rest -> exists pre, s = pre +++ pat +++ rest.
Proof.
  induction s as [| c s IH]; cbn [afterFirst].
  - destruct (String.prefix pat "") eqn:Hp; [| discriminate].
    intros [= <-]. exists ""%string. now apply prefix_drop.
  - destruct (String.prefix pat (String c s)) eqn:Hp.
    + intros [= <-]. exists ""%string. now apply prefix_drop.
    + intros H. destruct (IH H) as [pre ->]. now exists (String c pre).
Qed.

Lemma beforeFirst_sound (pat s block : string) :
  beforeFirst pat s = Some block -> exists post, s = block +++ pat +++ post.
Proof.
  revert block. induction s as [| c s IH]; intros block; cbn [beforeFirst].
  - destruct (String.prefix pat "") eqn:Hp; [| discriminate].
    intros [= <-]. eexists. now apply prefix_drop.
  - destruct (String.prefix pat (String c s)) eqn:Hp.
    + intros [= <-]. eexists. now apply prefix_drop.
    + destruct (beforeFirst pat s) as [b |]; [| discriminate].
      intros [= <-]. destruct (IH b eq_refl) as [post ->]. now exists post.
Qed.

Lemma afterFirst_here (pat s : string) :
  String.prefix pat s = true ->
  afterFirst pat s = Some (drop_chars (String.length pat) s).
Proof. destruct s; simpl; intros ->; reflexivity. Qed.

Lemma beforeFirst_here (pat s : string) :
  String.prefix pat s = true -> beforeFirst pat s = Some ""%string.
Proof. destruct s; simpl; intros ->; reflexivity. Qed.

Lemma drop_chars_all (a b : string) :
  drop_chars (String.length a) (a +++ b) = b.
Proof. induction a; simpl; auto. Qed.

Lemma afterFirst_complete (pat pre post : string) :
  exists u, afterFirst pat (pre +++ pat +++ post) = Some (u +++ post).
Proof.
  induction pre as [| c pre IH].
  - exists ""%string. simpl.
    rewrite afterFirst_here by apply prefix_append_s.
    now rewrite drop_chars_all.
  - cbn [String.append afterFirst].
    destruct (String.prefix pat (String c (pre +++ pat +++ post))).
    + exists (drop_chars (String.length pat) (String c pre +++ pat)).
      f_equal. rewrite <- drop_chars_append.
      * now rewrite append_assoc_s.
      * rewrite length_append_s. lia.
    + exact IH.
Qed.

Lemma beforeFirst_complete (pat pre post : string) :
  exists block, beforeFirst pat (pre +++ pat +++ post) = Some block.
Proof.
  induction pre as [| c pre IH].
  - exists ""%string. simpl. apply beforeFirst_here, prefix_append_s.
  - cbn [String.append beforeFirst].
    destruct (String.prefix pat (String c (pre +++ pat +++ post)));
      [now eexists |].
    destruct IH as [b ->]. now eexists.
Qed.

(** The regular expression matches exactly the texts with a fenced block,
    and its group is the text between the fences. *)
Lemma match_json_fence_sound (text block : string) :
  match_json_fence text = Some block ->
  exists pre post,
    text = pre +++ fence_open +++ block +++ fence_close +++ post.
Proof.
  unfold match_json_fence.
  destruct (afterFirst fence_open text) as [rest |] eqn:Ha; [| discriminate].
  intros Hb.
  destruct (afterFirst_sound _ _ _ Ha) as [pre ->].
  destruct (beforeFirst_sound _ _ _ Hb) as [post ->].
  now exists pre, post.
Qed.

Lemma match_json_fence_complete (text : string) :
  hasFencedBlock text -> exists block, match_json_fence text = Some block.
Proof.
  intros (pre & block & post & ->). unfold match_json_fence.
  destruct (afterFirst_complete fence_open pre
              (block +++ fence_close +++ post)) as [u ->].
  rewrite <- append_assoc_s. apply beforeFirst_complete.
Qed.

Lemma match_json_fence_none (text : string) :
  ~ hasFencedBlock text -> match_json_fence text = None.
Proof.
  intros Hno. destruct (match_json_fence text) as [block |] eqn:E;
    [| reflexivity].
  exfalso. apply Hno. destruct (match_json_fence_sound _ _ E) as (pre & post & ->).
  now exists pre, block, post.
Qed.

(** ** Running the service *)

Section Properties.
Variable JsValue : Type.
Variable null : JsValue.
Variable JSON_parse : string -> option JsValue.
Variable toLowerCase : string -> string.
Variable trim : string -> string.
Variable js_length : string -> nat.
Variable Date_parse : string -> option Z.
Variable model : nat -> Prompt -> string.

Local Abbreviation eventSchema := (eventSchema trim js_length Date_parse).
Local Abbreviation parseSuggestion := (parseSuggestion JsValue null JSON_parse).
Local Abbreviation suggestBetterTime :=
  (suggestBetterTime JsValue null JSON_parse model).
Local Abbreviation classifyPriority := (classifyPriority toLowerCase trim).
Local Abbreviation generatePriority := (generatePriority toLowerCase trim model).
Local Abbreviation detectThenCommit := (detectThenCommit JsValue null JSON_parse model).
Local Abbreviation prepareCreate := (prepareCreate toLowerCase trim model).
Local Abbreviation prepareUpdate := (prepareUpdate toLowerCase trim model).
Local Abbreviation createEvent :=
  (createEvent JsValue null JSON_parse toLowerCase trim model).
Local Abbreviation updateEventById :=
  (updateEventById JsValue null JSON_parse toLowerCase trim model).
Local Abbreviation applyRequest :=
  (applyRequest JsValue null JSON_parse toLowerCase trim model).
Local Abbreviation runRequests :=
  (runRequests JsValue null JSON_parse toLowerCase trim model).

Lemma suggestBetterTime_run candidate allEvents workingHours w :
  suggestBetterTime candidate allEvents workingHours w
  = (parseSuggestion
       (model (List.length (requests w))
          (betterTimePrompt candidate allEvents workingHours)),
     {| events := events w;
        requests := requests w
                    ++ [betterTimePrompt candidate allEvents workingHours] |}).
Proof. reflexivity. Qed.

(** The conflict branch of both workflows. *)
Lemma detectThenCommit_conflict candidate workingHours w :
  detectConflictsForEvent candidate (Map_values (events w)) <> [] ->
  detectThenCommit candidate workingHours w
  = (ConflictReported
       (detectConflictsForEvent candidate (Map_values (events w)))
       (parseSuggestion
          (model (List.length (requests w))
             (betterTimePrompt candidate (Map_values (events w))
                workingHours))),
     {| events := events w;
        requests := requests w
                    ++ [betterTimePrompt candidate (Map_values (events w))
                          workingHours] |}).
Proof.
  intros Hne. unfold detectThenCommit, bind, Array_from_values.
  destruct (detectConflictsForEvent candidate (Map_values (events w)))
    as [| c cs] eqn:E; [congruence |].
  reflexivity.
Qed.

(** The commit branch of both workflows. *)
Lemma detectThenCommit_clear candidate workingHours w :
  detectConflictsForEvent candidate (Map_values (events w)) = [] ->
  detectThenCommit candidate workingHours w
  = (Committed candidate,
     {| events := Map_set (id candidate) candidate (events w);
        requests := requests w |}).
Proof.
  intros Hnil. unfold detectThenCommit, bind, Array_from_values.
  rewrite Hnil. reflexivity.
Qed.

(** [prepareCreate] leaves the store alone and returns an event with the
    given id and the input's times. *)
Lemma prepareCreate_run uuid event w :
  exists p,
    prepareCreate uuid event w
    = ({| id := uuid;
          title := IEventInput.title event;
          description := IEventInput.description event;
          mode := IEventInput.mode event;
          venue := IEventInput.venue event;
          startTime := getTime (IEventInput.startTime event);
          endTime := getTime (IEventInput.endTime event);
          priority := p;
          tags := IEventInput.tags event;
          workingHours := IEventInput.workingHours event |},
       {| events := events w;
          requests :=
            requests w
            ++ match IEventInput.priority event with
               | Some _ => []
               | None => [PriorityPrompt (IEventInput.title event)
                            (IEventInput.description event)]
               end |})
    /\ p = match IEventInput.priority event with
           | Some q => q
           | None => classifyPriority
                       (model (List.length (requests w))
                          (PriorityPrompt (IEventInput.title event)
                             (IEventInput.description event)))
           end.
Proof.
  unfold prepareCreate, bind, ret.
  destruct (IEventInput.priority event) as [q |].
  - exists q. rewrite app_nil_r. destruct w. split; reflexivity.
  - eexists. split; reflexivity.
Qed.

Lemma createEvent_run uuid event w :
  createEvent uuid event w
  = detectThenCommit (fst (prepareCreate uuid event w))
      (IEventInput.workingHours event) (snd (prepareCreate uuid event w)).
Proof.
  unfold createEvent, bind.
  destruct (prepareCreate uuid event w) as [candidate w1]. reflexivity.
Qed.

Lemma prepareCreate_events uuid event w :
  events (snd (prepareCreate uuid event w)) = events w.
Proof.
  destruct (prepareCreate_run uuid event w) as (p & -> & _). reflexivity.
Qed.

(** C4 (amended).  [detectConflictsForEvent] returns the conflicting events
    in the order of the schedule it is given: the result is the schedule
    filtered by the conflict test.  It is ascending by start time whenever
    the schedule is, and the conflicts a workflow reports are the values of
    the store, in insertion order, filtered by that test.  The function only
    reads its arguments, and a workflow that reports conflicts leaves the
    store as it is. *)
Theorem detectConflicts_keeps_schedule_order (candidate : INormalizedEvent)
    (schedule : list INormalizedEvent) :
  detectConflictsForEvent candidate schedule
  = filter (conflictsWith candidate) schedule
  /\ (ascendingByStart schedule ->
      ascendingByStart (detectConflictsForEvent candidate schedule))
  /\ (forall workingHours w conflicts suggestion,
        fst (detectThenCommit candidate workingHours w)
        = ConflictReported conflicts suggestion ->
        conflicts = filter (conflictsWith candidate) (Map_values (events w))
        /\ events (snd (detectThenCommit candidate workingHours w))
           = events w).
Proof.
  split; [apply detect_is_filter | split].
  - intros Hs. rewrite detect_is_filter. now apply filter_StronglySorted.
  - intros wh w conflicts suggestion H.
    destruct (detectConflictsForEvent candidate (Map_values (events w)))
      as [| c cs] eqn:E.
    + rewrite (detectThenCommit_clear _ _ _ E) in H. discriminate.
    + assert (Hne : detectConflictsForEvent candidate (Map_values (events w))
                    <> []) by (rewrite E; discriminate).
      rewrite (detectThenCommit_conflict _ _ _ Hne) in *. simpl in H.
      injection H as <- _. split; [apply detect_is_filter | reflexivity].
Qed.


(** C6.  When the model's answer to a time-suggestion request has no fenced
    block, or the block the expression matches does not parse,
    [suggestBetterTime] returns [null]; a create request that meets a
    conflict then returns the conflicting events with a [null] suggestion. *)
Theorem suggestBetterTime_null_on_parse_failure
    (candidate : INormalizedEvent) (allEvents : list INormalizedEvent)
    (workingHours : option IWorkingHours) (w : World) :
  let text :=
    model (List.length (requests w))
      (betterTimePrompt candidate allEvents workingHours) in
  (~ hasFencedBlock text
   \/ exists block,
        match_json_fence text = Some block /\ JSON_parse block = None) ->
  fst (suggestBetterTime candidate allEvents workingHours w) = null
  /\ (forall uuid event w0,
        prepareCreate uuid event w0 = (candidate, w) ->
        IEventInput.workingHours event = workingHours ->
        allEvents = Map_values (events w) ->
        detectConflictsForEvent candidate allEvents <> [] ->
        fst (createEvent uuid event w0)
        = ConflictReported (detectConflictsForEvent candidate allEvents) null).
Proof.
  intros text Hfail.
  assert (Hnull : parseSuggestion text = null).
  { unfold parseSuggestion.
    destruct Hfail as [Hno | (block & -> & Hp)];
      [now rewrite (match_json_fence_none _ Hno) |].
    destruct block; [reflexivity |]. now rewrite Hp. }
  split.
  - rewrite suggestBetterTime_run. exact Hnull.
  - intros uuid event w0 Hprep Hwh -> Hne.
    rewrite createEvent_run, Hprep, Hwh. simpl fst. simpl snd.
    rewrite (detectThenCommit_conflict _ _ _ Hne). simpl.
    f_equal. exact Hnull.
Qed.

(** ** Invariants of the store *)

Lemma storeInvariant_get (m : JsMap INormalizedEvent) k e :
  storeInvariant m -> Map_get k m = Some e ->
  id e = k /\ startTime e < endTime e.
Proof.
  intros [_ Hall] Hget. apply Map_get_In in Hget.
  rewrite Forall_forall in Hall. exact (Hall _ Hget).
Qed.

Lemma storeInvariant_set (m : JsMap INormalizedEvent) e :
  storeInvariant m -> startTime e < endTime e ->
  storeInvariant (Map_set (id e) e m).
Proof.
  intros [Hnd Hall] Hlt. split.
  - now apply Map_set_NoDup.
  - apply Map_set_Forall; [now split | exact Hall].
Qed.

Lemma storeInvariant_delete (m : JsMap INormalizedEvent) k :
  storeInvariant m -> storeInvariant (Map_delete k m).
Proof.
  intros [Hnd Hall]. split.
  - now apply Map_delete_NoDup.
  - now apply Map_delete_Forall.
Qed.

Lemma storeInvariant_ids (m : JsMap INormalizedEvent) :
  storeInvariant m ->
  Forall (fun e => startTime e < endTime e) (Map_values m)
  /\ NoDup (map id (Map_values m)).
Proof.
  intros [Hnd Hall]. split.
  - unfold Map_values. rewrite Forall_map.
    eapply Forall_impl; [| exact Hall]. simpl. tauto.
  - replace (map id (Map_values m)) with (Map_keys m); [exact Hnd |].
    unfold Map_values, Map_keys. rewrite map_map.
    apply map_ext_in. intros kv Hin.
    rewrite Forall_forall in Hall. symmetry. apply (Hall _ Hin).
Qed.

(** What [detectThenCommit] does to the state. *)
Lemma detectThenCommit_outcome candidate workingHours w :
  (exists conflicts suggestion,
     fst (detectThenCommit candidate workingHours w)
     = ConflictReported conflicts suggestion
     /\ events (snd (detectThenCommit candidate workingHours w)) = events w
     /\ requests (snd (detectThenCommit candidate workingHours w))
        = requests w
          ++ [betterTimePrompt candidate (Map_values (events w))
                workingHours])
  \/ (fst (detectThenCommit candidate workingHours w) = Committed candidate
      /\ events (snd (detectThenCommit candidate workingHours w))
         = Map_set (id candidate) candidate (events w)
      /\ requests (snd (detectThenCommit candidate workingHours w))
         = requests w).
Proof.
  destruct (detectConflictsForEvent candidate (Map_values (events w)))
    as [| c cs] eqn:E.
  - right. rewrite (detectThenCommit_clear _ _ _ E). auto.
  - left.
    assert (Hne : detectConflictsForEvent candidate (Map_values (events w))
                  <> []) by (rewrite E; discriminate).
    rewrite (detectThenCommit_conflict _ _ _ Hne). simpl. eauto.
Qed.

Lemma prepareUpdate_facts existing eventData w :
  let candidate := fst (prepareUpdate existing eventData w) in
  id candidate = id existing
  /\ startTime candidate = getTime (IEventInput.startTime eventData)
  /\ endTime candidate = getTime (IEventInput.endTime eventData)
  /\ events (snd (prepareUpdate existing eventData w)) = events w.
Proof.
  unfold prepareUpdate, bind, ret.
  destruct (IEventInput.priority eventData); simpl; auto.
Qed.

(** [updateEventById] on a stored event: the guard, then the part shared
    with [createEvent]. *)
Lemma updateEventById_run eventId eventData w existing :
  Map_get eventId (events w) = Some existing ->
  let candidate := fst (prepareUpdate existing eventData w) in
  let w1 := snd (prepareUpdate existing eventData w) in
  updateEventById eventId eventData w
  = if startTime candidate >=? endTime candidate
    then (Thrown "End time must be greater than start time", w1)
    else (Updated
            (fst (detectThenCommit candidate
                    (IEventInput.workingHours eventData) w1)),
          snd (detectThenCommit candidate
                 (IEventInput.workingHours eventData) w1)).
Proof.
  intros Hget candidate w1.
  unfold updateEventById, bind, events_get, ret. rewrite Hget.
  subst candidate w1.
  destruct (prepareUpdate existing eventData w) as [c w1]. simpl.
  destruct (startTime c >=? endTime c); [reflexivity |].
  now destruct (detectThenCommit c (IEventInput.workingHours eventData) w1).
Qed.

Lemma detectThenCommit_invariant candidate workingHours w :
  startTime candidate < endTime candidate ->
  storeInvariant (events w) ->
  storeInvariant (events (snd (detectThenCommit candidate workingHours w))).
Proof.
  intros Hlt Hinv.
  destruct (detectThenCommit_outcome candidate workingHours w)
    as [(cs & sg & _ & -> & _) | (_ & -> & _)].
  - exact Hinv.
  - now apply storeInvariant_set.
Qed.


Lemma applyRequest_invariant r w :
  validRequest r -> storeInvariant (events w) ->
  storeInvariant (events (applyRequest r w)).
Proof.
  intros Hvalid Hinv.
  destruct r as [uuid event | eventId eventData | eventId]; simpl.
  - rewrite createEvent_run.
    destruct (prepareCreate_run uuid event w) as (p & Hrun & _).
    apply detectThenCommit_invariant.
    + rewrite Hrun. exact Hvalid.
    + now rewrite prepareCreate_events.
  - destruct (Map_get eventId (events w)) as [existing |] eqn:Hget.
    + rewrite (updateEventById_run _ eventData _ _ Hget).
      destruct (prepareUpdate_facts existing eventData w)
        as (_ & Hs & He & Hev).
      destruct (_ >=? _); simpl.
      * now rewrite Hev.
      * apply detectThenCommit_invariant; [| now rewrite Hev].
        rewrite Hs, He. exact Hvalid.
    + unfold updateEventById, bind, events_get, ret. rewrite Hget.
      exact Hinv.
  - unfold deleteEventById, bind, events_get, events_delete, ret.
    destruct (Map_get eventId (events w)); simpl; [| exact Hinv].
    now apply storeInvariant_delete.
Qed.

Lemma runRequests_invariant rs w :
  Forall validRequest rs -> storeInvariant (events w) ->
  storeInvariant (events (runRequests rs w)).
Proof.
  intros Hvalid. revert w.
  induction Hvalid as [| r rs Hr _ IH]; intros w Hinv; simpl.
  - exact Hinv.
  - apply IH. now apply applyRequest_invariant.
Qed.

(** A request removes the event stored under a key only by deleting that
    key. *)
Lemma applyRequest_keeps_keys r w k e :
  Map_get k (events w) = Some e ->
  Map_get k (events (applyRequest r w)) = None -> r = ReqDelete k.
Proof.
  intros Hget.
  destruct r as [uuid event | eventId eventData | eventId]; simpl.
  - rewrite createEvent_run.
    destruct (detectThenCommit_outcome (fst (prepareCreate uuid event w))
                (IEventInput.workingHours event)
                (snd (prepareCreate uuid event w)))
      as [(cs & sg & _ & -> & _) | (_ & -> & _)];
      rewrite prepareCreate_events.
    + congruence.
    + rewrite Map_get_set. destruct (String.eqb _ k); congruence.
  - destruct (Map_get eventId (events w)) as [existing |] eqn:Hex.
    + rewrite (updateEventById_run _ eventData _ _ Hex).
      destruct (prepareUpdate_facts existing eventData w)
        as (_ & _ & _ & Hev).
      destruct (_ >=? _); simpl.
      * rewrite Hev. congruence.
      * destruct (detectThenCommit_outcome
                    (fst (prepareUpdate existing eventData w))
                    (IEventInput.workingHours eventData)
                    (snd (prepareUpdate existing eventData w)))
          as [(cs & sg & _ & -> & _) | (_ & -> & _)]; rewrite Hev.
        -- congruence.
        -- rewrite Map_get_set. destruct (String.eqb _ k); congruence.
    + unfold updateEventById, bind, events_get, ret. rewrite Hex. simpl.
      congruence.
  - unfold deleteEventById, bind, events_get, events_delete, ret.
    destruct (Map_get eventId (events w)); simpl.
    + rewrite Map_get_delete.
      destruct (String.eqb_spec eventId k); congruence.
    + congruence.
Qed.

(** A committed update replaces the event under its key, in place. *)
Lemma updateEventById_replaces eventId eventData w event :
  storeInvariant (events w) ->
  fst (updateEventById eventId eventData w) = Updated (Committed event) ->
  id event = eventId
  /\ Map_get eventId (events (snd (updateEventById eventId eventData w)))
     = Some event
  /\ Map_keys (events (snd (updateEventById eventId eventData w)))
     = Map_keys (events w).
Proof.
  intros Hinv.
  destruct (Map_get eventId (events w)) as [existing |] eqn:Hget.
  - rewrite (updateEventById_run _ eventData _ _ Hget).
    destruct (prepareUpdate_facts existing eventData w)
      as (Hid & _ & _ & Hev).
    destruct (storeInvariant_get _ _ _ Hinv Hget) as [Hkey _].
    destruct (_ >=? _); simpl; [discriminate |].
    intros Hc. injection Hc as Hc.
    destruct (detectThenCommit_outcome
                (fst (prepareUpdate existing eventData w))
                (IEventInput.workingHours eventData)
                (snd (prepareUpdate existing eventData w)))
      as [(cs & sg & Hr & _) | (Hr & Hs & _)]; rewrite Hr in Hc.
    + discriminate.
    + injection Hc as <-. rewrite Hs, Hev, Hid, Hkey.
      split; [reflexivity |].
      split.
      * rewrite Map_get_set. now rewrite String.eqb_refl.
      * apply Map_keys_set_present. eapply Map_get_keys. exact Hget.
  - unfold updateEventById, bind, events_get, ret. rewrite Hget. simpl.
    discriminate.
Qed.

(** C7.  After any sequence of create, update and delete requests whose
    inputs end after they start, every stored event starts before it ends
    and the stored ids are pairwise distinct.  A stored event is kept under
    its id by every further request except the delete of that id, and a
    committed update replaces the event under the same id, in place. *)
Theorem store_invariants_along_requests (rs : list Request) :
  Forall validRequest rs ->
  let w := runRequests rs emptyWorld in
  Forall (fun e => startTime e < endTime e) (Map_values (events w))
  /\ NoDup (map id (Map_values (events w)))
  /\ (forall r k e,
        validRequest r -> Map_get k (events w) = Some e ->
        id e = k
        /\ match Map_get k (events (applyRequest r w)) with
           | Some e' => id e' = id e
           | None => r = ReqDelete k
           end)
  /\ (forall eventId eventData event,
        fst (updateEventById eventId eventData w)
        = Updated (Committed event) ->
        id event = eventId
        /\ Map_get eventId
             (events (snd (updateEventById eventId eventData w)))
           = Some event
        /\ Map_keys (events (snd (updateEventById eventId eventData w)))
           = Map_keys (events w)).
Proof.
  intros Hvalid w.
  assert (Hinv : storeInvariant (events w)).
  { apply runRequests_invariant; [exact Hvalid |].
    split; simpl; constructor. }
  destruct (storeInvariant_ids _ Hinv) as [Htimes Hids].
  split; [exact Htimes |]. split; [exact Hids |].
  split.
  - intros r k e Hr Hget.
    destruct (storeInvariant_get _ _ _ Hinv Hget) as [Hid _].
    split; [exact Hid |].
    destruct (Map_get k (events (applyRequest r w))) as [e' |] eqn:Hafter.
    + pose proof (applyRequest_invariant r w Hr Hinv) as Hinv'.
      destruct (storeInvariant_get _ _ _ Hinv' Hafter) as [Hid' _].
      congruence.
    + eapply applyRequest_keeps_keys; eassumption.
  - intros eventId eventData event. now apply updateEventById_replaces.
Qed.

(** ** The request schema *)

Lemma z_priority_inv (v : option Json) (p : Priority) :
  z_priority v = Some p ->
  (v = None /\ p = medium) \/ v = Some (JString (priorityName p)).
Proof.
  destruct v as [[| b | n | s | l | l] |]; simpl; try discriminate.
  - destruct (String.eqb_spec s "high") as [-> | _];
      [intros [= <-]; now right |].
    destruct (String.eqb_spec s "medium") as [-> | _];
      [intros [= <-]; now right |].
    destruct (String.eqb_spec s "low") as [-> | _];
      [intros [= <-]; now right | discriminate].
  - intros [= <-]. now left.
Qed.

(** What the schema guarantees of an accepted body: the priority it read or
    defaulted, and an end after the start. *)
Lemma eventSchema_accepts body input :
  eventSchema body = Some input ->
  exists p,
    z_priority (raw_priority body) = Some p
    /\ IEventInput.priority input = Some p
    /\ validInput input.
Proof.
  unfold eventSchema, option_bind. intros H.
  repeat match type of H with
         | context [match ?o with Some _ => _ | None => _ end] =>
             destruct o eqn:?; [| discriminate]
         end.
  match type of H with
  | context [if ?b then _ else _] => destruct b eqn:Hgt; [| discriminate]
  end.
  injection H as <-. unfold validInput. simpl.
  eexists. split; [reflexivity |]. split; [reflexivity | lia].
Qed.

(** [createEvent] on an input that carries a priority. *)
Lemma createEvent_with_priority uuid input w p :
  IEventInput.priority input = Some p ->
  existsb isPriorityPrompt
    (newRequests w (snd (createEvent uuid input w))) = false
  /\ priority (fst (prepareCreate uuid input w)) = p
  /\ (forall committed,
        fst (createEvent uuid input w) = Committed committed ->
        priority committed = p).
Proof.
  intros Hp.
  rewrite createEvent_run.
  destruct (prepareCreate_run uuid input w) as (q & Hrun & Hq).
  rewrite Hp in Hrun, Hq. subst q. rewrite Hrun. simpl fst. simpl snd.
  rewrite app_nil_r.
  set (w1 := {| events := events w; requests := requests w |}).
  set (c := mkEvent _ _ _ _ _ _ _ _ _ _).
  assert (Hc : priority c = p) by reflexivity.
  destruct (detectThenCommit_outcome c (IEventInput.workingHours input) w1)
    as [(cs & sg & Hr & _ & Hq) | (Hr & _ & Hq)];
    unfold newRequests; rewrite Hq, Hr; simpl requests.
  - rewrite skipn_app, skipn_all, Nat.sub_diag.
    split; [reflexivity |]. split; [exact Hc | discriminate].
  - rewrite skipn_all.
    split; [reflexivity |]. split; [exact Hc |].
    intros committed [= <-]. exact Hc.
Qed.

(** C10.  A body the schema accepts yields an input whose priority is
    present: the caller's, or [medium] when the body has none.  On such an
    input [createEvent] sends no priority request to the model, and the
    candidate, hence the committed event, carries that priority. *)
Theorem schema_priority_always_present (body : RawBody)
    (input : IEventInput.t) :
  eventSchema body = Some input ->
  exists p,
    IEventInput.priority input = Some p
    /\ (raw_priority body = None -> p = medium)
    /\ (forall v, raw_priority body = Some v -> v = JString (priorityName p))
    /\ (forall uuid w,
          existsb isPriorityPrompt
            (newRequests w (snd (createEvent uuid input w))) = false
          /\ priority (fst (prepareCreate uuid input w)) = p
          /\ (forall committed,
                fst (createEvent uuid input w) = Committed committed ->
                priority committed = p)).
Proof.
  intros Hok.
  destruct (eventSchema_accepts body input Hok) as (p & Hz & Hp & _).
  exists p. split; [exact Hp |].
  split; [| split].
  - intros Hnone.
    destruct (z_priority_inv _ _ Hz) as [[_ ->] | Hsome];
      [reflexivity | congruence].
  - intros v Hv.
    destruct (z_priority_inv _ _ Hz) as [[Hnone _] | Hsome]; congruence.
  - intros uuid w. now apply createEvent_with_priority.
Qed.


End Properties.

(** ** Listing and filtering *)

Lemma filter_Permutation {A} (f : A -> bool) (l l' : list A) :
  Permutation l l' -> Permutation (filter f l) (filter f l').
Proof.
  induction 1 as [| x l l' _ IH | x y l | l l' l'' _ IH1 _ IH2]; simpl.
  - constructor.
  - destruct (f x); [now constructor | exact IH].
  - destruct (f x), (f y); try reflexivity. apply perm_swap.
  - now transitivity (filter f l').
Qed.

Lemma includesTag_spec tag e : includesTag tag e = true <-> In tag (tags e).
Proof.
  unfold includesTag. rewrite existsb_exists. split.
  - intros (t & Hin & Heq). apply String.eqb_eq in Heq. now subst.
  - intros Hin. exists tag. split; [exact Hin | apply String.eqb_refl].
Qed.

(** C8.  [getEvents] returns the stored events ascending by start time,
    events with equal start times in insertion order; it changes nothing, so
    a second call returns the same sequence. *)
Theorem getEvents_sorted_stable (w : World) :
  let listing := fst (getEvents w) in
  snd (getEvents w) = w
  /\ ascendingByStart listing
  /\ Permutation listing (Map_values (events w))
  /\ sameTieOrder listing (Map_values (events w))
  /\ getEvents (snd (getEvents w)) = getEvents w.
Proof.
  unfold getEvents, bind, Array_from_values, ret. simpl.
  split; [reflexivity |].
  split; [apply sortEvents_ascending |].
  split; [apply Array_sort_perm |].
  split; [apply sortEvents_ties | reflexivity].
Qed.

(** C9, as stated, fails: with the review created before the earlier
    standup, [filterEventsByTag] lists the review first while [getEvents]
    lists the standup first. *)
Lemma filterEventsByTag_not_listing_order :
  let review := sampleEvent "id-review" "review" 600 660 ["work"%string] in
  let standup := sampleEvent "id-standup" "standup" 540 600 ["work"%string] in
  fst (filterEventsByTag "work" reviewThenStandup) = [review; standup]
  /\ fst (getEvents reviewThenStandup) = [standup; review]
  /\ ~ ascendingByStart (fst (filterEventsByTag "work" reviewThenStandup)).
Proof.
  intros review standup.
  split; [reflexivity | split; [reflexivity |]].
  change (fst (filterEventsByTag "work" reviewThenStandup))
    with [review; standup].
  intros H.
  inversion H as [| ? ? _ Hall]; subst.
  inversion Hall as [| ? ? Hle _]; subst. simpl in Hle. lia.
Qed.

(** C9 (amended).  [filterEventsByTag] returns exactly the stored events
    whose tags include the tag, in the insertion order of the store: the
    same events as the tagged ones of [getEvents], possibly in another
    order.  It does not change the store. *)
Theorem filterEventsByTag_insertion_order (tag : string) (w : World) :
  let found := fst (filterEventsByTag tag w) in
  found = filter (includesTag tag) (Map_values (events w))
  /\ (forall e, In e found <-> In e (Map_values (events w)) /\ In tag (tags e))
  /\ Permutation found (filter (includesTag tag) (fst (getEvents w)))
  /\ snd (filterEventsByTag tag w) = w.
Proof.
  unfold filterEventsByTag, getEvents, bind, Array_from_values, ret. simpl.
  split; [reflexivity |].
  split.
  - intros e. rewrite filter_In. fold (includesTag tag e).
    now rewrite includesTag_spec.
  - split; [| reflexivity].
    apply filter_Permutation. symmetry. apply Array_sort_perm.
Qed.

(** C4, as stated, fails: with the review created before the earlier
    standup, a lunch from 9:30 to 10:30 conflicts with both, and the review,
    which starts later, is reported first. *)
Lemma detectConflicts_not_ascending :
  let review := sampleEvent "id-review" "review" 600 660 ["work"%string] in
  let standup := sampleEvent "id-standup" "standup" 540 600 ["work"%string] in
  let lunch := sampleInput "lunch" 570 630 [] in
  fst (Demo.createEvent Demo.silent "id-lunch" lunch reviewThenStandup)
  = ConflictReported [review; standup] JNull
  /\ ~ ascendingByStart
         (detectConflictsForEvent (sampleEvent "id-lunch" "lunch" 570 630 [])
            (Map_values (events reviewThenStandup))).
Proof.
  intros review standup lunch.
  split; [reflexivity |].
  change (detectConflictsForEvent
            (sampleEvent "id-lunch" "lunch" 570 630 [])
            (Map_values (events reviewThenStandup)))
    with [review; standup].
  intros H.
  inversion H as [| ? ? _ Hall]; subst.
  inversion Hall as [| ? ? Hle _]; subst. simpl in Hle. lia.
Qed.

Lemma detectConflicts_keeps_schedule_order_witness :
  let standup := sampleEvent "id-standup" "standup" 540 600 [] in
  let review := sampleEvent "id-review" "review" 600 660 [] in
  let lunch := sampleEvent "id-lunch" "lunch" 570 630 [] in
  ascendingByStart [standup; review]
  /\ ascendingByStart (detectConflictsForEvent lunch [standup; review]).
Proof.
  intros standup review lunch.
  assert (Hs : ascendingByStart [standup; review]).
  { repeat constructor. simpl. lia. }
  split; [exact Hs |].
  exact (proj1 (proj2 (detectConflicts_keeps_schedule_order
                         Json JNull Ascii7.JSON_parse Demo.silent
                         lunch [standup; review])) Hs).
Defined.


(** ** The range check on the create path *)


(** ** Instances of the theorems *)



Lemma suggestBetterTime_null_on_parse_failure_witness :
  let answer :=
    String.append fence_open (String.append "tomorrow at nine" fence_close) in
  let lunch := sampleEvent "id-lunch" "lunch" 570 630 [] in
  (match_json_fence answer = Some "tomorrow at nine"%string
   /\ Ascii7.JSON_parse "tomorrow at nine" = None)
  /\ fst (suggestBetterTime Json JNull Ascii7.JSON_parse
            (Ascii7.constant_model answer) lunch
            (Map_values (events reviewThenStandup)) None reviewThenStandup)
     = JNull.
Proof.
  intros answer lunch.
  assert (H : match_json_fence answer = Some "tomorrow at nine"%string
              /\ Ascii7.JSON_parse "tomorrow at nine" = None)
    by (split; reflexivity).
  split; [exact H |].
  exact (proj1 (suggestBetterTime_null_on_parse_failure Json JNull
                  Ascii7.JSON_parse Ascii7.toLowerCase Ascii7.trim
                  (Ascii7.constant_model answer) lunch
                  (Map_values (events reviewThenStandup)) None
                  reviewThenStandup
                  (or_intror (ex_intro _ "tomorrow at nine"%string H)))).
Defined.

Lemma store_invariants_along_requests_witness :
  let rs :=
    [ReqCreate "id-review" (sampleInput "review" 600 660 []);
     ReqCreate "id-standup" (sampleInput "standup" 540 600 []);
     ReqUpdate "id-standup" (sampleInput "standup" 420 480 []);
     ReqDelete "id-review"] in
  Forall validRequest rs
  /\ NoDup (map id (Map_values
                      (events (Demo.runRequests Demo.silent rs emptyWorld)))).
Proof.
  intros rs.
  assert (H : Forall validRequest rs).
  { repeat constructor; unfold validInput; simpl; lia. }
  split; [exact H |].
  exact (proj1 (proj2 (store_invariants_along_requests Json JNull
                         Ascii7.JSON_parse Ascii7.toLowerCase Ascii7.trim
                         Demo.silent rs H))).
Defined.

Lemma schema_priority_always_present_witness :
  exists input,
    Demo.eventSchema
      (teamMeeting "2025-11-16T09:00:00Z" "2025-11-16T10:00:00Z") = Some input
    /\ IEventInput.priority input = Some medium.
Proof.
  eexists. split; [reflexivity |].
  destruct (schema_priority_always_present Json JNull Ascii7.JSON_parse
              Ascii7.toLowerCase Ascii7.trim String.length Ascii7.Date_parse
              Demo.silent
              (teamMeeting "2025-11-16T09:00:00Z" "2025-11-16T10:00:00Z")
              _ eq_refl) as (p & Hp & Hdefault & _).
  rewrite Hp. f_equal. apply Hdefault. reflexivity.
Defined.

(** * Further properties of the code *)

(** ** The overlap detector, continued *)

Lemma overlaps_sym (a b : INormalizedEvent) : overlaps a b <-> overlaps b a.
Proof. unfold overlaps. lia. Qed.

Lemma conflictsWith_sym (a b : INormalizedEvent) :
  conflictsWith a b = conflictsWith b a.
Proof.
  apply eq_true_iff_eq. rewrite !conflictsWith_spec, overlaps_sym.
  intuition congruence.
Qed.

(** X1.  Conflict is symmetric: an event is reported against a candidate
    exactly when the candidate would be reported against that event. *)
Theorem detectConflicts_symmetric (a b : INormalizedEvent) :
  In b (detectConflictsForEvent a [b]) <-> In a (detectConflictsForEvent b [a]).
Proof.
  rewrite !detect_is_filter. simpl.
  rewrite (conflictsWith_sym b a).
  destruct (conflictsWith a b) eqn:E; simpl; [| tauto].
  apply conflictsWith_spec in E. intuition.
Qed.

(** X2.  Detection works event by event: the conflicts against two schedules
    put end to end are the conflicts against the first followed by those
    against the second; an empty schedule has none, and there are never more
    conflicts than scheduled events. *)
Theorem detectConflicts_app (candidate : INormalizedEvent)
    (l1 l2 : list INormalizedEvent) :
  detectConflictsForEvent candidate (l1 ++ l2)
  = detectConflictsForEvent candidate l1
    ++ detectConflictsForEvent candidate l2
  /\ detectConflictsForEvent candidate [] = []
  /\ (List.length (detectConflictsForEvent candidate l1)
      <= List.length l1)%nat.
Proof.
  rewrite !detect_is_filter. split; [apply filter_app |].
  split; [reflexivity | apply filter_length_le].
Qed.

(** X3.  The stored version of the candidate does not count: an entry of
    the schedule with the candidate's id can be removed without changing
    the conflicts. *)
Theorem detectConflicts_ignores_own_entry (candidate old : INormalizedEvent)
    (l1 l2 : list INormalizedEvent) :
  id old = id candidate ->
  detectConflictsForEvent candidate (l1 ++ old :: l2)
  = detectConflictsForEvent candidate (l1 ++ l2).
Proof.
  intros Hid. rewrite !detect_is_filter, !filter_app. simpl.
  unfold conflictsWith at 2. rewrite Hid, String.eqb_refl. reflexivity.
Qed.

(** ** [sortEvents], continued *)

Lemma sort_insert_front x l :
  Forall (fun y => startTime x <= startTime y) l ->
  sort_insert (fun a b => startTime a - startTime b) x l = x :: l.
Proof.
  destruct l as [| y l]; [reflexivity |].
  intros H. inversion H as [| ? ? Hle _]; subst. simpl.
  destruct (Z.gtb_spec (startTime x - startTime y) 0); [lia | reflexivity].
Qed.

Lemma sortEvents_of_ascending l : ascendingByStart l -> sortEvents l = l.
Proof.
  unfold sortEvents, ascendingByStart.
  induction 1 as [| x l Hl IH Hx]; [reflexivity |].
  cbn [Array_sort fold_right]. unfold Array_sort in IH. rewrite IH.
  now apply sort_insert_front.
Qed.

(** X4.  [sortEvents] leaves a list that is already ascending by start time
    as it is; sorting twice is sorting once; and no event is lost or
    added. *)
Theorem sortEvents_fixes_ascending (l : list INormalizedEvent) :
  (ascendingByStart l -> sortEvents l = l)
  /\ sortEvents (sortEvents l) = sortEvents l
  /\ List.length (sortEvents l) = List.length l.
Proof.
  split; [apply sortEvents_of_ascending |].
  split.
  - apply sortEvents_of_ascending, sortEvents_ascending.
  - apply Permutation_length, Array_sort_perm.
Qed.

Lemma sameTieOrder_nil l : sameTieOrder [] l -> l = [].
Proof.
  destruct l as [| y l]; [reflexivity |].
  intros H. specialize (H (startTime y)). simpl in H.
  rewrite Z.eqb_refl in H. discriminate.
Qed.

Lemma sameTieOrder_In l1 l2 x : sameTieOrder l1 l2 -> In x l1 -> In x l2.
Proof.
  intros H Hin.
  assert (Hf : In x (filter (fun e => startTime e =? startTime x) l1)).
  { apply filter_In. split; [exact Hin | apply Z.eqb_refl]. }
  rewrite (H (startTime x)) in Hf. now apply filter_In in Hf.
Qed.

Lemma ascending_ties_eq l1 :
  forall l2, ascendingByStart l1 -> ascendingByStart l2 ->
             sameTieOrder l1 l2 -> l1 = l2.
Proof.
  unfold ascendingByStart.
  induction l1 as [| x l1 IH]; intros l2 H1 H2 Hties.
  - symmetry. now apply sameTieOrder_nil.
  - destruct l2 as [| y l2].
    + assert (Hnil : x :: l1 = []).
      { apply sameTieOrder_nil. intros t. symmetry. apply Hties. }
      discriminate.
    + inversion H1 as [| ? ? H1' Hx]; subst.
      inversion H2 as [| ? ? H2' Hy]; subst.
      rewrite Forall_forall in Hx, Hy.
      assert (Hxy : startTime x = startTime y).
      { assert (Hin1 : In x (y :: l2)).
        { apply (sameTieOrder_In (x :: l1)); [exact Hties | now left]. }
        assert (Hin2 : In y (x :: l1)).
        { apply (sameTieOrder_In (y :: l2));
            [intros t; symmetry; apply Hties | now left]. }
        assert (startTime y <= startTime x).
        { destruct Hin1 as [<- | Hin1]; [lia | now apply Hy]. }
        assert (startTime x <= startTime y).
        { destruct Hin2 as [<- | Hin2]; [lia | now apply Hx]. }
        lia. }
      assert (Hhead : x = y).
      { specialize (Hties (startTime x)). simpl in Hties.
        rewrite <- Hxy, Z.eqb_refl in Hties. congruence. }
      subst y. f_equal. apply IH; [assumption | assumption |].
      intros t. specialize (Hties t). simpl in Hties.
      destruct (startTime x =? t); congruence.
Qed.

(** X5.  The listing order is determined: a list that is ascending by start
    time and keeps, for every start time, the events with that start time in
    the order of the input is the result of [sortEvents]. *)
Theorem sortEvents_unique (l l' : list INormalizedEvent) :
  ascendingByStart l' -> sameTieOrder l' l -> l' = sortEvents l.
Proof.
  intros Hasc Hties.
  apply ascending_ties_eq; [exact Hasc | apply sortEvents_ascending |].
  intros t. rewrite Hties. symmetry. apply sortEvents_ties.
Qed.

(** ** The fenced block, continued *)

Lemma prefix_app_true (pat x y : string) :
  String.prefix pat x = true -> String.prefix pat (x +++ y) = true.
Proof.
  intros H. rewrite (prefix_drop _ _ H), append_assoc_s.
  apply prefix_append_s.
Qed.

Lemma occursIn_nil (pat : string) : pat <> ""%string -> ~ occursIn pat "".
Proof.
  intros Hne (pre & post & H).
  destruct pre; [destruct pat; [congruence | discriminate] | discriminate].
Qed.

(** The text [beforeFirst] returns ends before the first occurrence. *)
Lemma beforeFirst_first (pat s block : string) :
  pat <> ""%string ->
  beforeFirst pat s = Some block -> ~ occursIn pat block.
Proof.
  intros Hne. revert block.
  induction s as [| c s IH]; intros block; cbn [beforeFirst].
  - destruct (String.prefix pat ""); [| discriminate].
    intros [= <-]. now apply occursIn_nil.
  - destruct (String.prefix pat (String c s)) eqn:Hp.
    + intros [= <-]. now apply occursIn_nil.
    + destruct (beforeFirst pat s) as [b |] eqn:Hb; [| discriminate].
      intros [= <-] (pre & post & Hocc).
      destruct pre as [| c' pre]; simpl in Hocc.
      * destruct (beforeFirst_sound _ _ _ Hb) as [post' Hs].
        assert (Hpre : String.prefix pat (String c b) = true)
          by (rewrite Hocc; apply prefix_append_s).
        apply (prefix_app_true _ _ (pat +++ post')) in Hpre.
        cbn [String.append] in Hpre. rewrite <- Hs in Hpre. congruence.
      * injection Hocc as _ Hocc. apply (IH b eq_refl).
        now exists pre, post.
Qed.

(** The text [afterFirst] skips has no earlier occurrence. *)
Lemma afterFirst_first (pat s rest : string) :
  pat <> ""%string ->
  afterFirst pat s = Some rest ->
  exists pre, s = pre +++ pat +++ rest /\ ~ occursIn pat pre.
Proof.
  intros Hne.
  induction s as [| c s IH]; cbn [afterFirst].
  - destruct (String.prefix pat "") eqn:Hp; [| discriminate].
    intros [= <-]. exists ""%string.
    split; [now apply prefix_drop | now apply occursIn_nil].
  - destruct (String.prefix pat (String c s)) eqn:Hp.
    + intros [= <-]. exists ""%string.
      split; [now apply prefix_drop | now apply occursIn_nil].
    + intros H. destruct (IH H) as (pre & Hs & Hno).
      exists (String c pre). split; [simpl; now rewrite <- Hs |].
      intros (p & q & Hocc).
      destruct p as [| c' p]; simpl in Hocc.
      * assert (Hpre : String.prefix pat (String c pre) = true)
          by (rewrite Hocc; apply prefix_append_s).
        apply (prefix_app_true _ _ (pat +++ rest)) in Hpre.
        cbn [String.append] in Hpre. rewrite <- Hs in Hpre. congruence.
      * injection Hocc as _ Hocc. apply Hno. now exists p, q.
Qed.

Lemma fence_open_not_here (c : ascii) (s : string) :
  Ascii.eqb c backtick = false -> String.prefix fence_open (String c s) = false.
Proof.
  intros Hc.
  change fence_open with (String backtick (String.append "``json" newline)).
  cbn [String.prefix].
  destruct (ascii_dec backtick c) as [<- | _]; [discriminate | reflexivity].
Qed.

Lemma afterFirst_backtickFree (pre rest : string) :
  backtickFree pre = true ->
  afterFirst fence_open (pre +++ fence_open +++ rest) = Some rest.
Proof.
  induction pre as [| c pre IH]; intros Hfree.
  - change ("" +++ fence_open +++ rest) with (fence_open +++ rest).
    rewrite afterFirst_here by apply prefix_append_s.
    now rewrite drop_chars_all.
  - cbn [backtickFree] in Hfree.
    apply andb_true_iff in Hfree. destruct Hfree as [Hc Hfree].
    apply negb_true_iff in Hc.
    cbn [String.append afterFirst].
    rewrite (fence_open_not_here _ _ Hc). now apply IH.
Qed.

Lemma fence_close_not_here (c : ascii) (block post : string) :
  backtickFree block = true ->
  String.prefix fence_close (String c (block +++ fence_close +++ post))
  = false.
Proof.
  intros Hfree.
  change fence_close
    with (String (ascii_of_nat 10) (String backtick "``")) at 1.
  cbn [String.prefix].
  destruct (ascii_dec (ascii_of_nat 10) c) as [_ | _]; [| reflexivity].
  destruct block as [| c2 block].
  - reflexivity.
  - cbn [String.append String.prefix].
    cbn [backtickFree] in Hfree.
    apply andb_true_iff in Hfree. destruct Hfree as [Hc _].
    apply negb_true_iff in Hc.
    destruct (ascii_dec backtick c2) as [<- | _];
      [discriminate | reflexivity].
Qed.

Lemma beforeFirst_backtickFree (block post : string) :
  backtickFree block = true ->
  beforeFirst fence_close (block +++ fence_close +++ post) = Some block.
Proof.
  induction block as [| c block IH]; intros Hfree.
  - change ("" +++ fence_close +++ post) with (fence_close +++ post).
    apply beforeFirst_here, prefix_append_s.
  - cbn [String.append beforeFirst].
    assert (Hrest : backtickFree block = true).
    { cbn [backtickFree] in Hfree. now apply andb_true_iff in Hfree. }
    rewrite (fence_close_not_here _ _ _ Hrest), (IH Hrest). reflexivity.
Qed.

(** X6.  A block without backticks survives the round trip: when the answer
    wraps it in the fence, after any backtick-free preamble and before any
    text, [suggestBetterTime] parses exactly that block, and returns [null]
    when the block is empty or does not parse. *)
Theorem parseSuggestion_fenced_block (JsValue : Type) (null : JsValue)
    (JSON_parse : string -> option JsValue) (pre block post : string) :
  backtickFree pre = true -> backtickFree block = true ->
  let text := pre +++ fence_open +++ block +++ fence_close +++ post in
  match_json_fence text = Some block
  /\ parseSuggestion JsValue null JSON_parse text
     = match block with
       | EmptyString => null
       | _ => match JSON_parse block with
              | Some suggestion => suggestion
              | None => null
              end
       end.
Proof.
  intros Hpre Hblock text.
  assert (Hm : match_json_fence text = Some block).
  { unfold match_json_fence, text.
    rewrite (afterFirst_backtickFree _ _ Hpre).
    now apply beforeFirst_backtickFree. }
  split; [exact Hm |].
  unfold parseSuggestion. rewrite Hm. now destruct block.
Qed.

(** X7.  The match is the leftmost and the group the shortest: the block
    lies between the first opening fence of the text and the first closing
    fence after it, so it contains no closing fence, and no opening fence
    lies before it. *)
Theorem match_json_fence_leftmost_shortest (text block : string) :
  match_json_fence text = Some block ->
  exists pre post,
    text = pre +++ fence_open +++ block +++ fence_close +++ post
    /\ ~ occursIn fence_open pre
    /\ ~ occursIn fence_close block.
Proof.
  unfold match_json_fence.
  destruct (afterFirst fence_open text) as [rest |] eqn:Ha; [| discriminate].
  intros Hb.
  assert (Hopen : fence_open <> ""%string) by (vm_compute; discriminate).
  assert (Hclose : fence_close <> ""%string) by (vm_compute; discriminate).
  destruct (afterFirst_first _ _ _ Hopen Ha) as (pre & -> & Hno).
  destruct (beforeFirst_sound _ _ _ Hb) as [post ->].
  exists pre, post. split; [reflexivity |]. split; [exact Hno |].
  eapply beforeFirst_first; [exact Hclose | exact Hb].
Qed.

(** ** The map in insertion order, continued *)

Lemma Map_set_In {V} (k : string) (v : V) (m : JsMap V) :
  In (k, v) (Map_set k v m).
Proof.
  induction m as [| [k0 v0] m IH]; simpl; [now left |].
  destruct (String.eqb k0 k); [now left | now right].
Qed.

Lemma Map_set_In_inv {V} (k k' : string) (v e : V) (m : JsMap V) :
  NoDup (Map_keys m) ->
  In (k', e) (Map_set k v m) ->
  (k' = k /\ e = v) \/ (k' <> k /\ In (k', e) m).
Proof.
  induction m as [| [k0 v0] m IH]; simpl; intros Hnd Hin.
  - destruct Hin as [[= <- <-] | []]. now left.
  - inversion Hnd as [| ? ? Hnotin Hnd']; subst.
    destruct (String.eqb_spec k0 k) as [-> | Hk].
    + destruct Hin as [[= <- <-] | Hin]; [now left |].
      right. split; [| now right].
      intros ->. apply Hnotin.
      unfold Map_keys. change k with (fst (k, e)). now apply in_map.
    + destruct Hin as [[= <- <-] | Hin]; [right; split; [exact Hk | now left] |].
      destruct (IH Hnd' Hin) as [H | [H1 H2]]; [now left |].
      right. split; [exact H1 | now right].
Qed.

Lemma Map_delete_In {V} (k k' : string) (e : V) (m : JsMap V) :
  In (k', e) (Map_delete k m) -> k' <> k /\ In (k', e) m.
Proof.
  induction m as [| [k0 v0] m IH]; simpl; [tauto |].
  destruct (String.eqb_spec k0 k) as [-> | Hk].
  - intros Hin. destruct (IH Hin). split; [assumption | now right].
  - intros [[= <- <-] | Hin]; [split; [exact Hk | now left] |].
    destruct (IH Hin). split; [assumption | now right].
Qed.

Lemma skipn_length_app {A} (l x : list A) : skipn (List.length l) (l ++ x) = x.
Proof. now rewrite skipn_app, skipn_all, Nat.sub_diag. Qed.

(** ** The booking invariant *)

Lemma bookingInvariant_set (m : JsMap INormalizedEvent) c :
  bookingInvariant m ->
  detectConflictsForEvent c (Map_values m) = [] ->
  bookingInvariant (Map_set (id c) c m).
Proof.
  intros (Hnd & Hkeyed & Hfree) Hclear.
  assert (Hc : forall k e, In (k, e) m -> k <> id c -> ~ overlaps c e).
  { intros k e Hin Hk Hov.
    rewrite Forall_forall in Hkeyed. pose proof (Hkeyed _ Hin) as Hid.
    simpl in Hid.
    assert (Hconf : In e (detectConflictsForEvent c (Map_values m))).
    { rewrite detect_is_filter. apply filter_In. split.
      - unfold Map_values. change e with (snd (k, e)). now apply in_map.
      - apply conflictsWith_spec. split; [congruence | exact Hov]. }
    rewrite Hclear in Hconf. exact Hconf. }
  split; [now apply Map_set_NoDup |].
  split; [now apply Map_set_Forall |].
  intros k1 e1 k2 e2 H1 H2 Hne.
  destruct (Map_set_In_inv _ _ _ _ _ Hnd H1) as [[-> ->] | [Hk1 Hin1]];
    destruct (Map_set_In_inv _ _ _ _ _ Hnd H2) as [[-> ->] | [Hk2 Hin2]].
  - congruence.
  - now apply (Hc k2).
  - rewrite overlaps_sym. now apply (Hc k1).
  - now apply (Hfree k1 e1 k2 e2).
Qed.

Lemma bookingInvariant_delete (m : JsMap INormalizedEvent) k :
  bookingInvariant m -> bookingInvariant (Map_delete k m).
Proof.
  intros (Hnd & Hkeyed & Hfree).
  split; [now apply Map_delete_NoDup |].
  split; [now apply Map_delete_Forall |].
  intros k1 e1 k2 e2 H1 H2.
  apply Map_delete_In in H1, H2. now apply Hfree.
Qed.

Lemma bookingInvariant_values (m : JsMap INormalizedEvent) :
  bookingInvariant m ->
  forall e1 e2, In e1 (Map_values m) -> In e2 (Map_values m) ->
                id e1 <> id e2 -> ~ overlaps e1 e2.
Proof.
  intros (_ & Hkeyed & Hfree) e1 e2 H1 H2 Hne.
  unfold Map_values in H1, H2.
  apply in_map_iff in H1, H2.
  destruct H1 as ([k1 e1'] & <- & H1), H2 as ([k2 e2'] & <- & H2).
  rewrite Forall_forall in Hkeyed.
  pose proof (Hkeyed _ H1) as Hid1. pose proof (Hkeyed _ H2) as Hid2.
  simpl in *. apply (Hfree k1 e1' k2 e2'); congruence.
Qed.

Section ServiceFacts.
Variable JsValue : Type.
Variable null : JsValue.
Variable JSON_parse : string -> option JsValue.
Variable toLowerCase : string -> string.
Variable trim : string -> string.
Variable js_length : string -> nat.
Variable Date_parse : string -> option Z.
Variable zodMessage : RawBody -> string.
Variable model : nat -> Prompt -> string.

Local Abbreviation eventSchema := (eventSchema trim js_length Date_parse).
Local Abbreviation detectThenCommit :=
  (detectThenCommit JsValue null JSON_parse model).
Local Abbreviation prepareCreate := (prepareCreate toLowerCase trim model).
Local Abbreviation prepareUpdate := (prepareUpdate toLowerCase trim model).
Local Abbreviation createEvent :=
  (createEvent JsValue null JSON_parse toLowerCase trim model).
Local Abbreviation updateEventById :=
  (updateEventById JsValue null JSON_parse toLowerCase trim model).
Local Abbreviation applyRequest :=
  (applyRequest JsValue null JSON_parse toLowerCase trim model).
Local Abbreviation runRequests :=
  (runRequests JsValue null JSON_parse toLowerCase trim model).
Local Abbreviation serve :=
  (Controller.serve JsValue null JSON_parse toLowerCase trim js_length
     Date_parse zodMessage model).
Local Abbreviation serveAll :=
  (Controller.serveAll JsValue null JSON_parse toLowerCase trim js_length
     Date_parse zodMessage model).
Local Abbreviation dtc_conflict :=
  (detectThenCommit_conflict JsValue null JSON_parse model).
Local Abbreviation dtc_clear :=
  (detectThenCommit_clear JsValue null JSON_parse model).
Local Abbreviation create_run :=
  (createEvent_run JsValue null JSON_parse toLowerCase trim model).
Local Abbreviation update_run :=
  (updateEventById_run JsValue null JSON_parse toLowerCase trim model).
Local Abbreviation prepCreate_run :=
  (prepareCreate_run toLowerCase trim model).
Local Abbreviation prepCreate_events :=
  (prepareCreate_events toLowerCase trim model).
Local Abbreviation prepUpdate_facts :=
  (prepareUpdate_facts toLowerCase trim model).

(** The two ways [detectThenCommit] ends, with the reason. *)
Lemma detectThenCommit_cases candidate workingHours w :
  (detectConflictsForEvent candidate (Map_values (events w)) <> []
   /\ detectThenCommit candidate workingHours w
      = (ConflictReported
           (detectConflictsForEvent candidate (Map_values (events w)))
           (parseSuggestion JsValue null JSON_parse
              (model (List.length (requests w))
                 (betterTimePrompt candidate (Map_values (events w))
                    workingHours))),
         {| events := events w;
            requests := requests w
                        ++ [betterTimePrompt candidate
                              (Map_values (events w)) workingHours] |}))
  \/ (detectConflictsForEvent candidate (Map_values (events w)) = []
      /\ detectThenCommit candidate workingHours w
         = (Committed candidate,
            {| events := Map_set (id candidate) candidate (events w);
               requests := requests w |})).
Proof.
  destruct (detectConflictsForEvent candidate (Map_values (events w)))
    as [| c cs] eqn:E.
  - right. split; [reflexivity |]. now apply dtc_clear.
  - left. split; [discriminate |]. rewrite <- E. apply dtc_conflict.
    rewrite E. discriminate.
Qed.

Lemma detectThenCommit_booking candidate workingHours w :
  bookingInvariant (events w) ->
  bookingInvariant (events (snd (detectThenCommit candidate workingHours w))).
Proof.
  intros Hinv.
  destruct (detectThenCommit_cases candidate workingHours w)
    as [[_ ->] | [Hclear ->]]; simpl.
  - exact Hinv.
  - now apply bookingInvariant_set.
Qed.

Lemma applyRequest_booking r w :
  bookingInvariant (events w) -> bookingInvariant (events (applyRequest r w)).
Proof.
  intros Hinv.
  destruct r as [uuid event | eventId eventData | eventId]; simpl.
  - rewrite create_run. apply detectThenCommit_booking.
    now rewrite prepCreate_events.
  - destruct (Map_get eventId (events w)) as [existing |] eqn:Hget.
    + rewrite (update_run _ eventData _ _ Hget).
      destruct (prepUpdate_facts existing eventData w) as (_ & _ & _ & Hev).
      destruct (_ >=? _); simpl.
      * now rewrite Hev.
      * apply detectThenCommit_booking. now rewrite Hev.
    + unfold updateEventById, bind, events_get, ret. rewrite Hget.
      exact Hinv.
  - unfold deleteEventById, bind, events_get, events_delete, ret.
    destruct (Map_get eventId (events w)); simpl; [| exact Hinv].
    now apply bookingInvariant_delete.
Qed.

Lemma runRequests_booking rs w :
  bookingInvariant (events w) -> bookingInvariant (events (runRequests rs w)).
Proof.
  revert w. induction rs as [| r rs IH]; intros w Hinv; simpl.
  - exact Hinv.
  - apply IH. now apply applyRequest_booking.
Qed.

Lemma bookingInvariant_empty : bookingInvariant (events emptyWorld).
Proof.
  split; [constructor |]. split; [constructor |].
  intros k1 e1 k2 e2 [].
Qed.

(** X8.  No double booking: after any sequence of create, update and delete
    requests, whatever their inputs, no two stored events with different ids
    overlap. *)
Theorem no_double_booking (rs : list Request) :
  let w := runRequests rs emptyWorld in
  forall e1 e2,
    In e1 (Map_values (events w)) -> In e2 (Map_values (events w)) ->
    id e1 <> id e2 ->
    ~ (startTime e1 < endTime e2 /\ endTime e1 > startTime e2).
Proof.
  intros w. apply bookingInvariant_values.
  apply runRequests_booking, bookingInvariant_empty.
Qed.

(** X9.  A committed create can be read back: the event carries the drawn
    id and the input's times, met no conflict, is returned by
    [getEventById] under that id and listed by [getEvents], and every other
    entry of the store is as before. *)
Theorem createEvent_committed_is_stored (uuid : string)
    (event : IEventInput.t) (w : World) (e : INormalizedEvent) :
  fst (createEvent uuid event w) = Committed e ->
  let w' := snd (createEvent uuid event w) in
  id e = uuid
  /\ startTime e = getTime (IEventInput.startTime event)
  /\ endTime e = getTime (IEventInput.endTime event)
  /\ detectConflictsForEvent e (Map_values (events w)) = []
  /\ fst (getEventById uuid w') = Some e
  /\ In e (fst (getEvents w'))
  /\ (forall k, k <> uuid -> Map_get k (events w') = Map_get k (events w)).
Proof.
  rewrite create_run.
  destruct (prepCreate_run uuid event w) as (p & Hrun & _).
  pose proof (prepCreate_events uuid event w) as Hev.
  set (c := fst (prepareCreate uuid event w)) in *.
  set (w1 := snd (prepareCreate uuid event w)) in *.
  assert (Hc : id c = uuid
               /\ startTime c = getTime (IEventInput.startTime event)
               /\ endTime c = getTime (IEventInput.endTime event)).
  { unfold c. rewrite Hrun. repeat split. }
  destruct (detectThenCommit_cases c (IEventInput.workingHours event) w1)
    as [[_ ->] | [Hclear ->]]; simpl; [discriminate |].
  intros [= <-]. destruct Hc as (Hid & Hs & He).
  rewrite Hev in *. rewrite Hid.
  split; [reflexivity |]. split; [exact Hs |]. split; [exact He |].
  split; [exact Hclear |].
  split; [| split].
  - unfold getEventById, events_get. simpl.
    rewrite Map_get_set. now rewrite String.eqb_refl.
  - unfold getEvents, bind, Array_from_values, ret. simpl.
    eapply Permutation_in; [symmetry; apply Array_sort_perm |].
    unfold Map_values. change c with (snd (uuid, c)). apply in_map.
    apply Map_set_In.
  - intros k Hk. rewrite Map_get_set.
    destruct (String.eqb_spec uuid k); [congruence | reflexivity].
Qed.

(** X11.  [deleteEventById] on an unknown id returns nothing and changes
    nothing; on a stored id it returns the stored event.  Afterwards the id
    is unknown, every other entry is as before, no request was sent to the
    model, and deleting again returns nothing. *)
Theorem deleteEventById_removes (eventId : string) (w : World) :
  let w' := snd (deleteEventById eventId w) in
  fst (deleteEventById eventId w) = Map_get eventId (events w)
  /\ (Map_get eventId (events w) = None -> w' = w)
  /\ Map_get eventId (events w') = None
  /\ (forall k, k <> eventId -> Map_get k (events w') = Map_get k (events w))
  /\ requests w' = requests w
  /\ deleteEventById eventId w' = (None, w').
Proof.
  unfold deleteEventById, bind, events_get, events_delete, ret.
  destruct (Map_get eventId (events w)) as [e |] eqn:Hget; simpl.
  - split; [reflexivity |]. split; [discriminate |].
    assert (Hgone : Map_get eventId (Map_delete eventId (events w)) = None)
      by (rewrite Map_get_delete; now rewrite String.eqb_refl).
    split; [exact Hgone |]. split.
    + intros k Hk. rewrite Map_get_delete.
      destruct (String.eqb_spec eventId k); [congruence | reflexivity].
    + split; [reflexivity |]. now rewrite Hgone.
  - split; [reflexivity |]. split; [reflexivity |].
    split; [exact Hget |]. split; [reflexivity |].
    split; [reflexivity |]. now rewrite Hget.
Qed.

(** X12.  [updateEventById] touches one entry at most: on an unknown id it
    returns [null] and changes nothing, not even asking the model; in every
    case the keys of the store and their order stay, and every entry under
    another id is as before. *)
Theorem updateEventById_touches_one_entry (eventId : string)
    (eventData : IEventInput.t) (w : World) :
  storeInvariant (events w) ->
  let w' := snd (updateEventById eventId eventData w) in
  (Map_get eventId (events w) = None ->
   updateEventById eventId eventData w = (NotFound, w))
  /\ Map_keys (events w') = Map_keys (events w)
  /\ (forall k, k <> eventId -> Map_get k (events w') = Map_get k (events w)).
Proof.
  intros Hinv.
  destruct (Map_get eventId (events w)) as [existing |] eqn:Hget.
  - split; [discriminate |].
    rewrite (update_run _ eventData _ _ Hget).
    destruct (prepUpdate_facts existing eventData w) as (Hid & _ & _ & Hev).
    destruct (storeInvariant_get _ _ _ Hinv Hget) as [Hkey _].
    set (c := fst (prepareUpdate existing eventData w)) in *.
    set (w1 := snd (prepareUpdate existing eventData w)) in *.
    destruct (startTime c >=? endTime c); simpl; [now rewrite Hev |].
    destruct (detectThenCommit_cases c (IEventInput.workingHours eventData)
                w1) as [[_ ->] | [_ ->]]; simpl; rewrite Hev.
    + split; reflexivity.
    + rewrite Hid, Hkey. split.
      * apply Map_keys_set_present. eapply Map_get_keys. exact Hget.
      * intros k Hk. rewrite Map_get_set.
        destruct (String.eqb_spec eventId k); [congruence | reflexivity].
  - unfold updateEventById, bind, events_get, ret. rewrite Hget. simpl.
    repeat split.
Qed.

(** X13.  An update is never in conflict with the event it updates: the
    conflicts [updateEventById] reports are stored events with another id
    that overlap the new times, there is at least one, and the store is
    left as it is. *)
Theorem updateEventById_conflicts_are_others (eventId : string)
    (eventData : IEventInput.t) (w : World)
    (conflicts : list INormalizedEvent) (suggestion : JsValue) :
  storeInvariant (events w) ->
  fst (updateEventById eventId eventData w)
  = Updated (ConflictReported conflicts suggestion) ->
  conflicts <> []
  /\ Forall (fun e =>
               In e (Map_values (events w))
               /\ id e <> eventId
               /\ getTime (IEventInput.startTime eventData) < endTime e
               /\ getTime (IEventInput.endTime eventData) > startTime e)
       conflicts
  /\ events (snd (updateEventById eventId eventData w)) = events w.
Proof.
  intros Hinv.
  destruct (Map_get eventId (events w)) as [existing |] eqn:Hget.
  - rewrite (update_run _ eventData _ _ Hget).
    destruct (prepUpdate_facts existing eventData w) as (Hid & Hs & He & Hev).
    destruct (storeInvariant_get _ _ _ Hinv Hget) as [Hkey _].
    set (c := fst (prepareUpdate existing eventData w)) in *.
    set (w1 := snd (prepareUpdate existing eventData w)) in *.
    destruct (startTime c >=? endTime c); simpl; [discriminate |].
    destruct (detectThenCommit_cases c (IEventInput.workingHours eventData)
                w1) as [[Hne ->] | [_ ->]]; simpl; [| discriminate].
    intros [= <- _]. rewrite Hev in *.
    split; [exact Hne |]. split; [| reflexivity].
    rewrite detect_is_filter. apply Forall_forall. intros e Hin.
    apply filter_In in Hin. destruct Hin as [Hin Hconf].
    apply conflictsWith_spec in Hconf. destruct Hconf as [Hne' [Ho1 Ho2]].
    split; [exact Hin |]. split; [congruence | lia].
  - unfold updateEventById, bind, events_get, ret. rewrite Hget. simpl.
    discriminate.
Qed.


(** ** The event routes *)

Ltac run_handler :=
  unfold serve, Controller.validateMiddleware, Controller.createEvent,
    Controller.fetchEvents, Controller.fetchEventById,
    Controller.updateEventById, Controller.deleteEventById,
    Controller.filterEventsByTag, getEventById, events_get, bind, ret.

(** A served request leaves the state alone or acts on it as one service
    request with a validated input. *)
Lemma serve_as_request req w :
  snd (serve req w) = w
  \/ exists r, validRequest r /\ snd (serve req w) = applyRequest r w.
Proof.
  destruct req as [| uuid body | tag | eventId | eventId body | eventId];
    run_handler.
  - left. unfold getEvents, bind, ret, Array_from_values.
    now destruct (_ =? _)%nat.
  - destruct (eventSchema body) as [input |] eqn:Hok; [| now left].
    right. exists (ReqCreate uuid input). split.
    + now destruct (eventSchema_accepts _ _ _ _ _ Hok) as (p & _ & _ & Hv).
    + simpl. now destruct (createEvent uuid input w) as [[e | cs sg] w'].
  - left. destruct tag as [[| c t] |]; try reflexivity.
    unfold filterEventsByTag, bind, ret, Array_from_values.
    now destruct (_ =? _)%nat.
  - left. destruct (String.eqb eventId ""); [reflexivity |].
    now destruct (Map_get eventId (events w)).
  - destruct (eventSchema body) as [input |] eqn:Hok; [| now left].
    destruct (String.eqb eventId ""); [now left |].
    right. exists (ReqUpdate eventId input). split.
    + now destruct (eventSchema_accepts _ _ _ _ _ Hok) as (p & _ & _ & Hv).
    + simpl. now destruct (updateEventById eventId input w)
        as [[| msg | [e | cs sg]] w'].
  - destruct (String.eqb eventId ""); [now left |].
    right. exists (ReqDelete eventId). split; [exact I |].
    simpl. now destruct (deleteEventById eventId w) as [[e |] w'].
Qed.

Lemma serveAll_invariants reqs w :
  storeInvariant (events w) -> bookingInvariant (events w) ->
  storeInvariant (events (serveAll reqs w))
  /\ bookingInvariant (events (serveAll reqs w)).
Proof.
  revert w. induction reqs as [| req reqs IH]; intros w Hs Hb; simpl.
  - now split.
  - apply IH.
    + destruct (serve_as_request req w) as [-> | (r & Hr & ->)];
        [exact Hs |].
      now apply (applyRequest_invariant JsValue null JSON_parse toLowerCase
                   trim model).
    + destruct (serve_as_request req w) as [-> | (r & Hr & ->)];
        [exact Hb |].
      now apply applyRequest_booking.
Qed.

(** X15.  Behind the routes the store is always sound: after any sequence
    of HTTP requests, whatever their bodies, every stored event starts
    before it ends, the stored ids are pairwise distinct, and no two stored
    events overlap. *)
Theorem routes_keep_store_sound (reqs : list HttpRequest) :
  let w := serveAll reqs emptyWorld in
  Forall (fun e => startTime e < endTime e) (Map_values (events w))
  /\ NoDup (map id (Map_values (events w)))
  /\ (forall e1 e2,
        In e1 (Map_values (events w)) -> In e2 (Map_values (events w)) ->
        id e1 <> id e2 ->
        ~ (startTime e1 < endTime e2 /\ endTime e1 > startTime e2)).
Proof.
  intros w.
  destruct (serveAll_invariants reqs emptyWorld) as [Hs Hb].
  - split; simpl; constructor.
  - apply bookingInvariant_empty.
  - destruct (storeInvariant_ids _ Hs) as [Htimes Hids].
    split; [exact Htimes |]. split; [exact Hids |].
    now apply bookingInvariant_values.
Qed.

(** X18.  [GET /events] is answered 404 exactly when the store is empty, and
    otherwise 200 with the events ascending by start time; it changes
    nothing. *)
Theorem get_events_replies (w : World) :
  snd (serve GetEvents w) = w
  /\ (events w = [] ->
      fst (serve GetEvents w) = Next (new_ApiError 404 "No events found"))
  /\ (events w <> [] ->
      fst (serve GetEvents w)
      = Replied 200
          (new_ApiResponse 200 "Events fetched successfully"
             (DataEvents (sortEvents (Map_values (events w)))))).
Proof.
  run_handler. unfold getEvents, bind, ret, Array_from_values.
  assert (Hlen : List.length (sortEvents (Map_values (events w)))
                 = List.length (events w)).
  { unfold sortEvents. rewrite (Permutation_length (Array_sort_perm _ _)).
    unfold Map_values. apply length_map. }
  rewrite Hlen.
  destruct (events w) as [| kv m]; simpl.
  - split; [reflexivity |]. split; [reflexivity | congruence].
  - split; [reflexivity |]. split; [discriminate | reflexivity].
Qed.

(** X20.  [GET /events/filtered] is answered 400 without a tag or with an
    empty one, 404 when no stored event carries the tag, and otherwise 200
    with the stored events that carry it; it changes nothing. *)
Theorem get_filtered_replies (tag : option string) (w : World) :
  snd (serve (GetFiltered tag) w) = w
  /\ ((tag = None \/ tag = Some ""%string) ->
      fst (serve (GetFiltered tag) w)
      = Next (new_ApiError 400 "Tag is required"))
  /\ (forall t, tag = Some t -> t <> ""%string ->
        ((forall e, In e (Map_values (events w)) -> ~ In t (tags e)) ->
         fst (serve (GetFiltered tag) w)
         = Next (new_ApiError 404 "No events found for the given tag"))
        /\ (forall e, In e (Map_values (events w)) -> In t (tags e) ->
              exists found,
                fst (serve (GetFiltered tag) w)
                = Replied 200
                    (new_ApiResponse 200 "Events fetched successfully"
                       (DataEvents found))
                /\ forall e', In e' found
                              <-> In e' (Map_values (events w))
                                  /\ In t (tags e'))).
Proof.
  run_handler. unfold filterEventsByTag, bind, ret, Array_from_values.
  split; [| split].
  - destruct tag as [[| c t] |]; try reflexivity.
    now destruct (_ =? _)%nat.
  - intros [-> | ->]; reflexivity.
  - intros t -> Ht. destruct t as [| c t]; [contradiction |].
    fold (includesTag (String c t)).
    set (found := filter (includesTag (String c t)) (Map_values (events w))).
    split.
    + intros Hnone.
      assert (Hnil : found = []).
      { destruct found as [| e rest] eqn:E; [reflexivity | exfalso].
        assert (Hin : In e found) by (rewrite E; now left).
        apply filter_In in Hin. destruct Hin as [Hin Htag].
        apply includesTag_spec in Htag. exact (Hnone e Hin Htag). }
      rewrite Hnil. reflexivity.
    + intros e Hin Htag.
      assert (Hf : In e found).
      { apply filter_In. split; [exact Hin | now apply includesTag_spec]. }
      destruct found as [| e0 rest] eqn:E; [contradiction |].
      cbn [List.length Nat.eqb fst].
      eexists. split; [reflexivity |].
      intros e'. rewrite <- E. unfold found.
      rewrite filter_In, includesTag_spec. reflexivity.
Qed.

(** ** The request schema, continued *)

Local Abbreviation z_string := (z_string trim js_length).
Local Abbreviation z_tags := (z_tags trim js_length).
Local Abbreviation z_date := (z_date Date_parse).

Lemma z_string_inv lo hi v t :
  z_string lo hi v = Some t ->
  exists s,
    v = Some (JString s) /\ t = trim s
    /\ (lo <= js_length t)%nat
    /\ (forall h, hi = Some h -> (js_length t <= h)%nat).
Proof.
  unfold z_string.
  destruct v as [[| b | n | s | l | l] |]; try discriminate.
  destruct (Nat.leb_spec lo (js_length (trim s))) as [Hlo | _];
    [| discriminate].
  destruct hi as [h |]; simpl.
  - destruct (Nat.leb_spec (js_length (trim s)) h) as [Hhi | _];
      [| discriminate].
    intros [= <-]. exists s. repeat split; [assumption |].
    now intros ? [= <-].
  - intros [= <-]. exists s. repeat split; [assumption | discriminate].
Qed.

Lemma z_tag_items_inv items ts :
  z_tag_items trim js_length items = Some ts ->
  Forall (fun t => (1 <= js_length t)%nat) ts
  /\ List.length ts = List.length items.
Proof.
  revert ts. induction items as [| item items IH]; intros ts;
    cbn [z_tag_items].
  - intros [= <-]. split; [constructor | reflexivity].
  - unfold option_bind.
    destruct (z_string 1 None (Some item)) as [t |] eqn:Ht; [| discriminate].
    destruct (z_tag_items trim js_length items) as [ts' |];
      [| discriminate].
    intros [= <-]. destruct (IH ts' eq_refl) as [Hall Hlen].
    destruct (z_string_inv _ _ _ _ Ht) as (s & _ & _ & Hlo & _).
    split; [now constructor | simpl; now rewrite Hlen].
Qed.

Lemma z_date_inv v d :
  z_date v = Some d ->
  exists s, v = Some (JString s) /\ Date_parse s = Some (getTime d).
Proof.
  unfold z_date.
  destruct v as [[| b | n | s | l | l] |]; try discriminate.
  destruct (Date_parse s) as [t |] eqn:E; [| discriminate].
  simpl. intros [= <-]. exists s. split; [reflexivity | exact E].
Qed.

Lemma z_hhmm_inv v s : z_hhmm v = Some s -> hhmm_test s = true.
Proof.
  unfold z_hhmm.
  destruct v as [[| b | n | s' | l | l] |]; try discriminate.
  destruct (hhmm_test s') eqn:E; [| discriminate]. now intros [= <-].
Qed.

Ltac invert_schema H :=
  unfold eventSchema, option_bind in H;
  repeat match type of H with
         | context [match ?o with Some _ => _ | None => _ end] =>
             destruct o eqn:?; [| discriminate]
         end;
  match type of H with
  | context [if ?b then _ else _] => destruct b eqn:?; [| discriminate]
  end;
  injection H as <-.

(** X22.  What validation guarantees of an accepted body: title,
    description and venue are the trimmed texts of the body, of length 3 to
    100, 3 to 300, and at least 3; every tag is non-empty; both times are
    strings the date parser accepts, the end after the start; working
    hours, when given, are two times of day. *)
Theorem eventSchema_guarantees (body : RawBody) (input : IEventInput.t) :
  eventSchema body = Some input ->
  (exists s, raw_title body = Some (JString s)
             /\ IEventInput.title input = trim s)
  /\ (3 <= js_length (IEventInput.title input) <= 100)%nat
  /\ (exists s, raw_description body = Some (JString s)
                /\ IEventInput.description input = trim s)
  /\ (3 <= js_length (IEventInput.description input) <= 300)%nat
  /\ (exists s, raw_venue body = Some (JString s)
                /\ IEventInput.venue input = trim s)
  /\ (3 <= js_length (IEventInput.venue input))%nat
  /\ Forall (fun t => (1 <= js_length t)%nat) (IEventInput.tags input)
  /\ (exists s, raw_startTime body = Some (JString s)
                /\ Date_parse s
                   = Some (getTime (IEventInput.startTime input)))
  /\ (exists s, raw_endTime body = Some (JString s)
                /\ Date_parse s = Some (getTime (IEventInput.endTime input)))
  /\ getTime (IEventInput.startTime input)
     < getTime (IEventInput.endTime input)
  /\ (forall h, IEventInput.workingHours input = Some h ->
        hhmm_test (wh_start h) = true /\ hhmm_test (wh_end h) = true).
Proof.
  intros H. invert_schema H. cbn.
  repeat match goal with
         | Hz : z_string _ _ _ = Some _ |- _ =>
             apply z_string_inv in Hz;
             destruct Hz as (? & ? & ? & ? & ?)
         | Hd : z_date _ = Some _ |- _ =>
             apply z_date_inv in Hd; destruct Hd as (? & ? & ?)
         end.
  repeat match goal with
         | Hh : forall h, Some ?n = Some h -> _ |- _ =>
             specialize (Hh n eq_refl)
         end.
  repeat (split; [solve [eauto | lia] |]).
  split.
  - match goal with
    | Ht : z_tags ?v = Some _ |- _ =>
        unfold z_tags in Ht;
        destruct v as [[| ? | ? | ? | items | ?] |]; try discriminate
    end.
    + match goal with
      | Ht : z_tag_items _ _ _ = Some _ |- _ =>
          now apply z_tag_items_inv in Ht
      end.
    + match goal with Ht : Some [] = Some _ |- _ => injection Ht as <- end.
      constructor.
  - repeat (split; [solve [eauto | lia] |]).
    intros h Hh.
    match goal with
    | Hw : z_workingHours ?v = Some _ |- _ =>
        unfold z_workingHours, option_bind in Hw;
        destruct v as [[| ? | ? | ? | ? | members] |]; try discriminate
    end.
    + destruct (z_hhmm (lookup_member "start" members)) as [from |]
        eqn:Hstart; [| discriminate].
      destruct (z_hhmm (lookup_member "end" members)) as [till |]
        eqn:Hend; [| discriminate].
      match goal with Hw : Some (Some _) = Some _ |- _ =>
        injection Hw as <- end.
      injection Hh as <-. simpl.
      split; eapply z_hhmm_inv; eassumption.
    + match goal with Hw : Some None = Some _ |- _ =>
        injection Hw as <- end.
      discriminate.
Qed.

(** X23.  Required and optional members: a body is accepted only if title,
    description, venue, start and end are present; an absent mode becomes
    [offline], absent tags the empty list, and absent working hours stay
    absent. *)
Theorem eventSchema_defaults (body : RawBody) (input : IEventInput.t) :
  eventSchema body = Some input ->
  (raw_title body <> None /\ raw_description body <> None
   /\ raw_venue body <> None /\ raw_startTime body <> None
   /\ raw_endTime body <> None)
  /\ (raw_mode body = None -> IEventInput.mode input = offline)
  /\ (raw_tags body = None -> IEventInput.tags input = [])
  /\ (raw_workingHours body = None -> IEventInput.workingHours input = None).
Proof.
  intros H. invert_schema H. cbn.
  repeat match goal with
         | Hz : z_string _ _ _ = Some _ |- _ =>
             apply z_string_inv in Hz;
             destruct Hz as (? & ? & _)
         | Hd : z_date _ = Some _ |- _ =>
             apply z_date_inv in Hd; destruct Hd as (? & ? & _)
         end.
  split; [repeat split; congruence |].
  split; [| split].
  - intros Hm.
    match goal with Hz : z_mode _ = Some _ |- _ => rewrite Hm in Hz end.
    simpl in *. congruence.
  - intros Ht.
    match goal with Hz : z_tags _ = Some _ |- _ => rewrite Ht in Hz end.
    simpl in *. congruence.
  - intros Hw.
    match goal with Hz : z_workingHours _ = Some _ |- _ =>
      rewrite Hw in Hz end.
    simpl in *. congruence.
Qed.

End ServiceFacts.

(** ** The working-hours pattern *)

Lemma is_digit_upto_spec (hi : nat) (c : ascii) :
  is_digit_upto hi c = true -> exists n, (n <= hi)%nat /\ c = digit n.
Proof.
  unfold is_digit_upto. rewrite andb_true_iff, !Nat.leb_le. intros [Hlo Hhi].
  exists (nat_of_ascii c - 48)%nat. split; [lia |].
  unfold digit. replace (48 + (nat_of_ascii c - 48))%nat with (nat_of_ascii c)
    by lia.
  symmetry. apply ascii_nat_embedding.
Qed.

Lemma two_digits_of (a b : nat) :
  (b <= 9)%nat ->
  String (digit a) (String (digit b) EmptyString) = two_digits (10 * a + b).
Proof.
  intros Hb. unfold two_digits.
  assert (Hdiv : ((10 * a + b) / 10 = a)%nat).
  { rewrite (Nat.mul_comm 10 a), Nat.div_add_l by lia.
    rewrite Nat.div_small by lia. lia. }
  assert (Hmod : ((10 * a + b) mod 10 = b)%nat).
  { rewrite (Nat.add_comm (10 * a) b), (Nat.mul_comm 10 a).
    rewrite Nat.Div0.mod_add. apply Nat.mod_small. lia. }
  now rewrite Hdiv, Hmod.
Qed.

Lemma hhmm_test_all_times :
  forallb (fun h =>
             forallb (fun m =>
                        hhmm_test (timeOfDay true h m)
                        && (if (h <? 10)%nat
                            then hhmm_test (timeOfDay false h m)
                            else true))
               (seq 0 60))
    (seq 0 24) = true.
Proof. vm_compute. reflexivity. Qed.

Ltac split_bits H :=
  repeat match type of H with
         | context [match ?b with true => _ | false => _ end] =>
             is_var b; destruct b
         end.

(* The accepting leaves: one digit for the hour, or two. *)
Ltac accept_short H :=
  let Hd1 := fresh "Hd1" in let Hd2 := fresh "Hd2" in
  let Hd3 := fresh "Hd3" in
  let Hh := fresh "Hh" in let Hm := fresh "Hm" in let Hn := fresh "Hn" in
  let Lh := fresh "Lh" in let Lm := fresh "Lm" in let Ln := fresh "Ln" in
  apply andb_true_iff in H; destruct H as [H Hd3];
  apply andb_true_iff in H; destruct H as [Hd1 Hd2];
  apply is_digit_upto_spec in Hd1, Hd2, Hd3;
  destruct Hd1 as (?h & Lh & Hh), Hd2 as (?m & Lm & Hm),
           Hd3 as (?n & Ln & Hn);
  match type of Hh with _ = digit ?h =>
  match type of Hm with _ = digit ?m =>
  match type of Hn with _ = digit ?n =>
    exists false, h, (10 * m + n)%nat;
    split; [lia |]; split; [lia |]; split; [lia |];
    unfold timeOfDay; rewrite <- (two_digits_of m n) by lia
  end end end;
  cbn [String.append]; congruence.

Ltac accept_long H :=
  let Hd1 := fresh "Hd1" in let Hd2 := fresh "Hd2" in
  let Hd3 := fresh "Hd3" in let Hd4 := fresh "Hd4" in
  let Hm := fresh "Hm" in let Hn := fresh "Hn" in
  let Ha := fresh "Ha" in let Hb := fresh "Hb" in
  let Lm := fresh "Lm" in let Ln := fresh "Ln" in
  let La := fresh "La" in let Lb := fresh "Lb" in
  apply andb_true_iff in H; destruct H as [H Hd4];
  apply andb_true_iff in H; destruct H as [H Hd3];
  apply is_digit_upto_spec in Hd3, Hd4;
  destruct Hd3 as (?m & Lm & Hm), Hd4 as (?n & Ln & Hn);
  apply orb_true_iff in H; destruct H as [H | H];
  apply andb_true_iff in H; destruct H as [Hd1 Hd2];
  [ apply is_digit_upto_spec in Hd1 | apply Ascii.eqb_eq in Hd1 ];
  apply is_digit_upto_spec in Hd2;
  [ destruct Hd1 as (?a & La & Ha), Hd2 as (?b & Lb & Hb);
    match type of Ha with _ = digit ?a =>
    match type of Hb with _ = digit ?b =>
    match type of Hm with _ = digit ?m =>
    match type of Hn with _ = digit ?n =>
      exists true, (10 * a + b)%nat, (10 * m + n)%nat;
      split; [lia |]; split; [lia |]; split; [discriminate |];
      unfold timeOfDay;
      rewrite <- (two_digits_of a b), <- (two_digits_of m n) by lia
    end end end end
  | destruct Hd2 as (?b & Lb & Hb);
    match type of Hb with _ = digit ?b =>
    match type of Hm with _ = digit ?m =>
    match type of Hn with _ = digit ?n =>
      exists true, (10 * 2 + b)%nat, (10 * m + n)%nat;
      split; [lia |]; split; [lia |]; split; [discriminate |];
      unfold timeOfDay;
      rewrite <- (two_digits_of 2 b), <- (two_digits_of m n) by lia;
      change (digit 2) with "2"%char
    end end end ];
  cbn [String.append]; congruence.

(** X24.  The working-hours pattern accepts exactly the times of day: an
    hour from 0 to 23, written with two digits or, below 10, also with one,
    a colon, and a minute from 00 to 59. *)
Theorem hhmm_test_times_of_day (s : string) :
  hhmm_test s = true
  <-> exists padded hour minute,
        (hour < 24)%nat /\ (minute < 60)%nat
        /\ (padded = false -> (hour < 10)%nat)
        /\ s = timeOfDay padded hour minute.
Proof.
  split.
  - intros H.
    destruct s as [| h1 s]; [discriminate H |].
    destruct s as [| c2 s]; [discriminate H |].
    destruct c2 as [a0 a1 a2 a3 a4 a5 a6 a7].
    destruct s as [| c3 rest].
    { unfold hhmm_test in H. split_bits H; discriminate H. }
    destruct c3 as [b0 b1 b2 b3 b4 b5 b6 b7].
    destruct rest as [| m1 [| m2 [| x rest]]];
      unfold hhmm_test in H; split_bits H;
      try discriminate H;
      first [accept_short H | accept_long H].
  - intros (padded & h & m & Hh & Hm & Hpad & ->).
    pose proof hhmm_test_all_times as Hall.
    rewrite forallb_forall in Hall.
    assert (Hin : In h (seq 0 24)) by (apply in_seq; lia).
    specialize (Hall h Hin). rewrite forallb_forall in Hall.
    assert (Hin' : In m (seq 0 60)) by (apply in_seq; lia).
    specialize (Hall m Hin'). apply andb_true_iff in Hall.
    destruct Hall as [Hpadded Hshort].
    destruct padded; [exact Hpadded |].
    specialize (Hpad eq_refl).
    destruct (Nat.ltb_spec h 10); [exact Hshort | lia].
Qed.

(** ** Instances of the further properties *)

Lemma reviewThenStandup_invariant : storeInvariant (events reviewThenStandup).
Proof.
  split.
  - change (NoDup ["id-review"%string; "id-standup"%string]).
    constructor; [intros [H | []]; discriminate H |].
    constructor; [intros [] | constructor].
  - change (Forall (fun kv => id (snd kv) = fst kv
                              /\ startTime (snd kv) < endTime (snd kv))
              (events reviewThenStandup)).
    apply Forall_forall. intros kv Hin. vm_compute in Hin.
    destruct Hin as [<- | [<- | []]]; split; reflexivity.
Qed.

Lemma detectConflicts_ignores_own_entry_witness :
  let review := sampleEvent "id-review" "review" 600 660 [] in
  let old := sampleEvent "id-standup" "standup" 540 600 [] in
  let moved := sampleEvent "id-standup" "standup" 530 610 [] in
  id old = id moved
  /\ detectConflictsForEvent moved ([review] ++ old :: [])
     = detectConflictsForEvent moved ([review] ++ []).
Proof.
  intros review old moved.
  assert (H : id old = id moved) by reflexivity.
  split; [exact H |].
  exact (detectConflicts_ignores_own_entry moved old [review] [] H).
Defined.

Lemma sortEvents_fixes_ascending_witness :
  let standup := sampleEvent "id-standup" "standup" 540 600 [] in
  let review := sampleEvent "id-review" "review" 600 660 [] in
  ascendingByStart [standup; review]
  /\ sortEvents [standup; review] = [standup; review].
Proof.
  intros standup review.
  assert (H : ascendingByStart [standup; review]).
  { repeat constructor. simpl. lia. }
  split; [exact H |].
  exact (proj1 (sortEvents_fixes_ascending [standup; review]) H).
Defined.

Lemma sortEvents_unique_witness :
  let standup := sampleEvent "id-standup" "standup" 540 600 [] in
  let review := sampleEvent "id-review" "review" 600 660 [] in
  (ascendingByStart [standup; review]
   /\ sameTieOrder [standup; review] [review; standup])
  /\ [standup; review] = sortEvents [review; standup].
Proof.
  intros standup review.
  assert (H1 : ascendingByStart [standup; review]).
  { repeat constructor. simpl. lia. }
  assert (H2 : sameTieOrder [standup; review] [review; standup]).
  { intros t. cbv [standup review sampleEvent filter startTime].
    destruct (Z.eqb_spec 540 t), (Z.eqb_spec 600 t); try reflexivity. lia. }
  split; [split; assumption |].
  exact (sortEvents_unique [review; standup] [standup; review] H1 H2).
Defined.

Lemma parseSuggestion_fenced_block_witness :
  let block :=
    String.append Ascii7.startTime_open
      (String.append "2025-11-16T11:00:00.000Z" Ascii7.startTime_close) in
  let text :=
    String.append "Here is a slot:"
      (String.append fence_open (String.append block fence_close)) in
  (backtickFree "Here is a slot:" = true /\ backtickFree block = true)
  /\ match_json_fence text = Some block.
Proof.
  intros block text.
  assert (H1 : backtickFree "Here is a slot:" = true) by reflexivity.
  assert (H2 : backtickFree block = true) by reflexivity.
  split; [split; assumption |].
  exact (proj1 (parseSuggestion_fenced_block Json JNull Ascii7.JSON_parse
                  "Here is a slot:" block "" H1 H2)).
Defined.

Lemma match_json_fence_leftmost_shortest_witness :
  let text := String.append fence_open (String.append "{}" fence_close) in
  match_json_fence text = Some "{}"%string
  /\ ~ occursIn fence_close "{}".
Proof.
  intros text.
  assert (H : match_json_fence text = Some "{}"%string) by reflexivity.
  split; [exact H |].
  destruct (match_json_fence_leftmost_shortest text "{}" H)
    as (pre & post & _ & _ & Hshort).
  exact Hshort.
Defined.

Lemma no_double_booking_witness :
  let review := sampleEvent "id-review" "review" 600 660 ["work"%string] in
  let standup := sampleEvent "id-standup" "standup" 540 600 ["work"%string] in
  (In review (Map_values (events reviewThenStandup))
   /\ In standup (Map_values (events reviewThenStandup))
   /\ id review <> id standup)
  /\ ~ (startTime review < endTime standup
        /\ endTime review > startTime standup).
Proof.
  intros review standup.
  assert (H1 : In review (Map_values (events reviewThenStandup)))
    by (left; reflexivity).
  assert (H2 : In standup (Map_values (events reviewThenStandup)))
    by (right; left; reflexivity).
  assert (H3 : id review <> id standup) by discriminate.
  split; [repeat split; assumption |].
  exact (no_double_booking Json JNull Ascii7.JSON_parse Ascii7.toLowerCase
           Ascii7.trim Demo.silent
           [ReqCreate "id-review"
              (sampleInput "review" 600 660 ["work"%string]);
            ReqCreate "id-standup"
              (sampleInput "standup" 540 600 ["work"%string])]
           review standup H1 H2 H3).
Defined.

Lemma createEvent_committed_is_stored_witness :
  let input := sampleInput "review" 600 660 [] in
  let review := sampleEvent "id-review" "review" 600 660 [] in
  fst (Demo.createEvent Demo.silent "id-review" input emptyWorld)
  = Committed review
  /\ fst (getEventById "id-review"
            (snd (Demo.createEvent Demo.silent "id-review" input emptyWorld)))
     = Some review.
Proof.
  intros input review.
  assert (H : fst (Demo.createEvent Demo.silent "id-review" input emptyWorld)
              = Committed review) by reflexivity.
  split; [exact H |].
  exact (proj1 (proj2 (proj2 (proj2 (proj2
           (createEvent_committed_is_stored Json JNull Ascii7.JSON_parse
              Ascii7.toLowerCase Ascii7.trim Demo.silent
              "id-review" input emptyWorld review H)))))).
Defined.

Lemma deleteEventById_removes_witness :
  Map_get "id-lunch" (events reviewThenStandup) = None
  /\ snd (deleteEventById "id-lunch" reviewThenStandup) = reviewThenStandup.
Proof.
  assert (H : Map_get "id-lunch" (events reviewThenStandup) = None)
    by reflexivity.
  split; [exact H |].
  exact (proj1 (proj2 (deleteEventById_removes "id-lunch" reviewThenStandup))
           H).
Defined.

Lemma updateEventById_touches_one_entry_witness :
  let eventData := sampleInput "standup" 480 540 [] in
  storeInvariant (events reviewThenStandup)
  /\ Map_keys (events (snd (Demo.updateEventById Demo.silent "id-standup"
                              eventData reviewThenStandup)))
     = Map_keys (events reviewThenStandup).
Proof.
  intros eventData.
  split; [exact reviewThenStandup_invariant |].
  exact (proj1 (proj2
           (updateEventById_touches_one_entry Json JNull Ascii7.JSON_parse
              Ascii7.toLowerCase Ascii7.trim Demo.silent
              "id-standup" eventData reviewThenStandup
              reviewThenStandup_invariant))).
Defined.

Lemma updateEventById_conflicts_are_others_witness :
  let eventData := sampleInput "standup" 570 630 [] in
  let review := sampleEvent "id-review" "review" 600 660 ["work"%string] in
  (storeInvariant (events reviewThenStandup)
   /\ fst (Demo.updateEventById Demo.silent "id-standup" eventData
             reviewThenStandup)
      = Updated (ConflictReported [review] JNull))
  /\ events (snd (Demo.updateEventById Demo.silent "id-standup" eventData
                    reviewThenStandup))
     = events reviewThenStandup.
Proof.
  intros eventData review.
  assert (H : fst (Demo.updateEventById Demo.silent "id-standup" eventData
                     reviewThenStandup)
              = Updated (ConflictReported [review] JNull)) by reflexivity.
  split; [split; [exact reviewThenStandup_invariant | exact H] |].
  exact (proj2 (proj2
           (updateEventById_conflicts_are_others Json JNull Ascii7.JSON_parse
              Ascii7.toLowerCase Ascii7.trim Demo.silent
              "id-standup" eventData reviewThenStandup [review] JNull
              reviewThenStandup_invariant H))).
Defined.


Lemma routes_keep_store_sound_witness :
  let reqs :=
    [PostEvent "id-1"
       (teamMeeting "2025-11-16T09:00:00Z" "2025-11-16T10:00:00Z");
     PostEvent "id-2"
       (teamMeeting "2025-11-16T10:00:00Z" "2025-11-16T09:00:00Z");
     PostEvent "id-3"
       (teamMeeting "2025-11-16T09:00:00Z" "2025-11-16T10:00:00Z");
     DeleteEvent "id-2"] in
  Map_keys (events (demoServeAll reqs emptyWorld)) = ["id-1"%string]
  /\ Forall (fun e => startTime e < endTime e)
       (Map_values (events (demoServeAll reqs emptyWorld))).
Proof.
  intros reqs. split; [reflexivity |].
  exact (proj1 (routes_keep_store_sound Json JNull Ascii7.JSON_parse
                  Ascii7.toLowerCase Ascii7.trim String.length
                  Ascii7.Date_parse (fun _ => "invalid body"%string)
                  Demo.silent reqs)).
Defined.

Lemma get_events_replies_witness :
  events emptyWorld = []
  /\ fst (demoServe GetEvents emptyWorld)
     = Next (new_ApiError 404 "No events found").
Proof.
  assert (H : events emptyWorld = []) by reflexivity.
  split; [exact H |].
  exact (proj1 (proj2 (get_events_replies Json JNull Ascii7.JSON_parse
                         Ascii7.toLowerCase Ascii7.trim String.length
                         Ascii7.Date_parse (fun _ => "invalid body"%string)
                         Demo.silent emptyWorld)) H).
Defined.

Lemma get_filtered_replies_witness :
  (forall e, In e (Map_values (events reviewThenStandup)) ->
             ~ In "home"%string (tags e))
  /\ fst (demoServe (GetFiltered (Some "home"%string)) reviewThenStandup)
     = Next (new_ApiError 404 "No events found for the given tag").
Proof.
  assert (H : forall e, In e (Map_values (events reviewThenStandup)) ->
                        ~ In "home"%string (tags e)).
  { intros e Hin Htag. vm_compute in Hin.
    destruct Hin as [<- | [<- | []]]; simpl in Htag;
      destruct Htag as [Heq | []]; discriminate Heq. }
  split; [exact H |].
  exact (proj1 (proj2 (proj2
           (get_filtered_replies Json JNull Ascii7.JSON_parse
              Ascii7.toLowerCase Ascii7.trim String.length
              Ascii7.Date_parse (fun _ => "invalid body"%string)
              Demo.silent (Some "home"%string) reviewThenStandup))
           "home"%string eq_refl ltac:(discriminate)) H).
Defined.

Lemma eventSchema_guarantees_witness :
  exists input,
    Demo.eventSchema
      (teamMeeting "2025-11-16T09:00:00Z" "2025-11-16T10:00:00Z") = Some input
    /\ (3 <= String.length (IEventInput.title input) <= 100)%nat.
Proof.
  eexists. split; [reflexivity |].
  exact (proj1 (proj2 (eventSchema_guarantees Ascii7.trim String.length
                         Ascii7.Date_parse
                         (teamMeeting "2025-11-16T09:00:00Z"
                            "2025-11-16T10:00:00Z") _ eq_refl))).
Defined.

Lemma eventSchema_defaults_witness :
  exists input,
    (Demo.eventSchema
       (teamMeeting "2025-11-16T09:00:00Z" "2025-11-16T10:00:00Z")
     = Some input
     /\ raw_workingHours
          (teamMeeting "2025-11-16T09:00:00Z" "2025-11-16T10:00:00Z") = None)
    /\ IEventInput.workingHours input = None.
Proof.
  eexists.
  assert (H : raw_workingHours
                (teamMeeting "2025-11-16T09:00:00Z" "2025-11-16T10:00:00Z")
              = None) by reflexivity.
  split; [split; [reflexivity | exact H] |].
  exact (proj2 (proj2 (proj2
           (eventSchema_defaults Ascii7.trim String.length Ascii7.Date_parse
              (teamMeeting "2025-11-16T09:00:00Z" "2025-11-16T10:00:00Z")
              _ eq_refl))) H).
Defined.

(** ** The service when a call fails *)

Section FallibleFacts.
Variable JsValue : Type.
Variable null : JsValue.
Variable JSON_parse : string -> option JsValue.
Variable toLowerCase : string -> string.
Variable trim : string -> string.
Variable js_length : string -> nat.
Variable Date_parse : string -> option Z.
Variable zodMessage : RawBody -> string.
Variable answers : nat -> Prompt -> Completion.
Variable matchesFiltered : PathSegment -> bool.
Variable decodeParam : PathSegment -> option PathSegment.

(** When the model answers every request, the service is the one of the
    first part: [createEvent] returns what it returns there. *)
Lemma fallible_createEvent_answered (model : nat -> Prompt -> string)
    uuid event w :
  Fallible.createEvent JsValue null JSON_parse toLowerCase trim
    (fun n prompt => Answered (model n prompt)) uuid event w
  = (Returns (fst (createEvent JsValue null JSON_parse toLowerCase trim
                     model uuid event w)),
     snd (createEvent JsValue null JSON_parse toLowerCase trim model
            uuid event w)).
Proof.
  cbv [Fallible.createEvent Fallible.prepareCreate Fallible.detectThenCommit
         Fallible.suggestBetterTime Fallible.generatePriority
         Fallible.generateContent bindX retX liftX
         createEvent prepareCreate detectThenCommit
         suggestBetterTime generatePriority generateContent
         bind ret Array_from_values events_set].
  destruct (IEventInput.priority event) as [p |]; cbn [events requests];
    match goal with
    | |- context [(0 <? List.length ?l)%nat] =>
        destruct (0 <? List.length l)%nat
    end; reflexivity.
Qed.

(** Likewise [updateEventById], for an [eventData] whose priority, when it
    has none, is an own key holding [undefined], and whose working hours,
    when it has none, are an absent key. *)
Lemma fallible_updateEventById_answered (model : nat -> Prompt -> string)
    eventId eventData w :
  Fallible.updateEventById JsValue null JSON_parse toLowerCase trim
    (fun n prompt => Answered (model n prompt)) eventId eventData
    {| ownPriority := true; ownWorkingHours := false |} w
  = (match fst (updateEventById JsValue null JSON_parse toLowerCase trim
                  model eventId eventData w)
     with
     | NotFound => Returns None
     | Thrown message => Throws (new_Error "Error" message)
     | Updated result => Returns (Some result)
     end,
     snd (updateEventById JsValue null JSON_parse toLowerCase trim model
            eventId eventData w)).
Proof.
  cbv [Fallible.updateEventById Fallible.prepareUpdate
         Fallible.detectThenCommit Fallible.suggestBetterTime
         Fallible.generatePriority Fallible.generateContent
         bindX retX liftX throwX spread ownPriority ownWorkingHours
         updateEventById prepareUpdate detectThenCommit
         suggestBetterTime generatePriority generateContent
         bind ret Array_from_values events_set events_get].
  destruct (Map_get eventId (events w)) as [existing |]; [| reflexivity].
  destruct (IEventInput.priority eventData) as [p |];
    cbn [events requests startTime endTime normalizeEvent];
    match goal with
    | |- context [?a >=? ?b] => destruct (a >=? b)
    end; try reflexivity;
    match goal with
    | |- context [(0 <? List.length ?l)%nat] =>
        destruct (0 <? List.length l)%nat
    end; reflexivity.
Qed.

Local Abbreviation eventSchema := (eventSchema trim js_length Date_parse).
Local Abbreviation parseSuggestion := (parseSuggestion JsValue null JSON_parse).
Local Abbreviation classifyPriority := (classifyPriority toLowerCase trim).
Local Abbreviation detectThenCommit :=
  (Fallible.detectThenCommit JsValue null JSON_parse answers).
Local Abbreviation prepareCreate :=
  (Fallible.prepareCreate toLowerCase trim answers).
Local Abbreviation prepareUpdate :=
  (Fallible.prepareUpdate toLowerCase trim answers).
Local Abbreviation createEvent :=
  (Fallible.createEvent JsValue null JSON_parse toLowerCase trim answers).
Local Abbreviation updateEventById :=
  (Fallible.updateEventById JsValue null JSON_parse toLowerCase trim answers).
Local Abbreviation serve :=
  (Fallible.Controller.serve JsValue null JSON_parse toLowerCase trim
     js_length Date_parse zodMessage answers matchesFiltered decodeParam).
Local Abbreviation serveAll :=
  (Fallible.Controller.serveAll JsValue null JSON_parse toLowerCase trim
     js_length Date_parse zodMessage answers matchesFiltered decodeParam).

(** The state after one more request to the model. *)
Local Abbreviation sending w prompt :=
  {| events := events w; requests := requests w ++ [prompt] |}.

Lemma fallible_detectThenCommit_run candidate workingHours w :
  detectThenCommit candidate workingHours w
  = match detectConflictsForEvent candidate (Map_values (events w)) with
    | [] =>
        (Returns (Committed candidate),
         {| events := Map_set (id candidate) candidate (events w);
            requests := requests w |})
    | c :: cs =>
        (match answers (List.length (requests w))
                 (betterTimePrompt candidate (Map_values (events w))
                    workingHours)
         with
         | Answered text =>
             Returns (ConflictReported (c :: cs) (parseSuggestion text))
         | Rejection error => Throws error
         end,
         sending w (betterTimePrompt candidate (Map_values (events w))
                      workingHours))
    end.
Proof.
  cbv [Fallible.detectThenCommit Fallible.suggestBetterTime
         Fallible.generateContent bindX liftX Array_from_values retX
         events_set].
  destruct (detectConflictsForEvent candidate (Map_values (events w)))
    as [| c cs].
  - reflexivity.
  - change (0 <? List.length (c :: cs))%nat with true. cbv beta iota.
    now destruct (answers _ _).
Qed.

(** The candidate of a create with the given priority. *)
Local Abbreviation candidateOf uuid event p :=
  {| id := uuid;
     title := IEventInput.title event;
     description := IEventInput.description event;
     mode := IEventInput.mode event;
     venue := IEventInput.venue event;
     startTime := getTime (IEventInput.startTime event);
     endTime := getTime (IEventInput.endTime event);
     priority := p;
     tags := IEventInput.tags event;
     workingHours := IEventInput.workingHours event |}.

Lemma fallible_prepareCreate_run uuid event w :
  prepareCreate uuid event w
  = match IEventInput.priority event with
    | Some p => (Returns (candidateOf uuid event p), w)
    | None =>
        (match answers (List.length (requests w))
                 (PriorityPrompt (IEventInput.title event)
                    (IEventInput.description event))
         with
         | Answered response =>
             Returns (candidateOf uuid event (classifyPriority response))
         | Rejection error => Throws error
         end,
         sending w (PriorityPrompt (IEventInput.title event)
                      (IEventInput.description event)))
    end.
Proof.
  cbv [Fallible.prepareCreate Fallible.generatePriority
         Fallible.generateContent bindX retX].
  destruct (IEventInput.priority event) as [p |]; [reflexivity |].
  now destruct (answers _ _).
Qed.

(** What [prepareCreate] returns has the given id and the times of the
    input; the store is left alone, and a priority request is sent exactly
    when the input has no priority. *)
Lemma fallible_prepareCreate_facts uuid event w :
  events (snd (prepareCreate uuid event w)) = events w
  /\ requests (snd (prepareCreate uuid event w))
     = requests w
       ++ match IEventInput.priority event with
          | Some _ => []
          | None => [PriorityPrompt (IEventInput.title event)
                       (IEventInput.description event)]
          end
  /\ forall candidate,
       fst (prepareCreate uuid event w) = Returns candidate ->
       id candidate = uuid
       /\ startTime candidate = getTime (IEventInput.startTime event)
       /\ endTime candidate = getTime (IEventInput.endTime event).
Proof.
  rewrite fallible_prepareCreate_run.
  destruct (IEventInput.priority event) as [p |]; cbn [fst snd events requests].
  - rewrite app_nil_r. split; [reflexivity |]. split; [reflexivity |].
    intros candidate [= <-]. repeat split.
  - split; [reflexivity |]. split; [reflexivity |].
    destruct (answers _ _); intros candidate H; [| discriminate].
    injection H as <-. repeat split.
Qed.

Lemma fallible_createEvent_run uuid event w :
  createEvent uuid event w
  = match prepareCreate uuid event w with
    | (Returns candidate, w1) =>
        detectThenCommit candidate (IEventInput.workingHours event) w1
    | (Throws error, w1) => (Throws error, w1)
    end.
Proof. reflexivity. Qed.

(** A stored event that the input of a create overlaps is one of the
    conflicts of the candidate. *)
Lemma overlapped_is_conflict candidate schedule E :
  In E schedule -> id E <> id candidate ->
  startTime candidate < endTime E -> endTime candidate > startTime E ->
  detectConflictsForEvent candidate schedule <> [].
Proof.
  intros HE Hid Hs He Hnil.
  assert (Hin : In E (detectConflictsForEvent candidate schedule)).
  { rewrite detect_is_filter. apply filter_In. split; [exact HE |].
    apply conflictsWith_spec. split; [exact Hid |]. split; assumption. }
  rewrite Hnil in Hin. exact Hin.
Qed.

(** The conflicts of a candidate are the stored events that clash with
    its input. *)
Lemma detect_clashes candidate input m c :
  startTime candidate = getTime (IEventInput.startTime input) ->
  endTime candidate = getTime (IEventInput.endTime input) ->
  In c (detectConflictsForEvent candidate (Map_values m))
  <-> clashes (id candidate) input m c.
Proof.
  intros Hs He. rewrite detect_is_filter, filter_In, conflictsWith_spec.
  unfold clashes, overlaps. rewrite Hs, He. tauto.
Qed.

(** C2 (amended).  When the input of a create request overlaps a stored
    event with another id, the store after the request is the store before
    it, so the candidate is not inserted and [getEvents] lists the same
    events.  What [createEvent] returns depends on the calls to the model.
    If the input has no priority and the priority request is rejected,
    [createEvent] throws that error.  Otherwise the candidate has the given
    id and the times of the input, it has at least one conflict, and the
    time request is sent: when the model answers it, [createEvent] returns
    the conflicting events with the suggestion, which is the value parsed
    from the fenced block of that answer, or [null] when the answer has no
    block, an empty one, or one that does not parse; when the model rejects
    it, [createEvent] throws that error and reports nothing. *)
Theorem createEvent_conflict_outcome (uuid : string)
    (event : IEventInput.t) (w : World) :
  (exists E, In E (Map_values (events w))
             /\ id E <> uuid
             /\ getTime (IEventInput.startTime event) < endTime E
             /\ getTime (IEventInput.endTime event) > startTime E) ->
  let result := fst (createEvent uuid event w) in
  let after := snd (createEvent uuid event w) in
  events after = events w
  /\ Map_get uuid (events after) = Map_get uuid (events w)
  /\ fst (getEvents after) = fst (getEvents w)
  /\ match prepareCreate uuid event w with
     | (Throws error, _) => result = Throws error
     | (Returns candidate, sent) =>
         let schedule := Map_values (events w) in
         let conflicts := detectConflictsForEvent candidate schedule in
         id candidate = uuid
         /\ startTime candidate = getTime (IEventInput.startTime event)
         /\ endTime candidate = getTime (IEventInput.endTime event)
         /\ conflicts <> []
         /\ match answers (List.length (requests sent))
                    (betterTimePrompt candidate schedule
                       (IEventInput.workingHours event))
            with
            | Answered text =>
                result
                = Returns
                    (ConflictReported conflicts
                       match match_json_fence text with
                       | Some (String c block) =>
                           match JSON_parse (String c block) with
                           | Some suggestion => suggestion
                           | None => null
                           end
                       | Some EmptyString | None => null
                       end)
            | Rejection error => result = Throws error
            end
     end.
Proof.
  intros (E & HE & Hid & Hs & He) result after.
  subst result after. rewrite fallible_createEvent_run.
  destruct (fallible_prepareCreate_facts uuid event w) as (Hev & _ & Hc).
  destruct (prepareCreate uuid event w) as [[candidate | error] w1];
    cbn [fst snd] in *.
  - destruct (Hc candidate eq_refl) as (Hcid & Hcs & Hce).
    assert (Hne : detectConflictsForEvent candidate (Map_values (events w1))
                  <> []).
    { rewrite Hev. apply (overlapped_is_conflict candidate _ E HE);
        [congruence | lia | lia]. }
    rewrite fallible_detectThenCommit_run.
    destruct (detectConflictsForEvent candidate (Map_values (events w1)))
      as [| c cs] eqn:Hdet; [congruence |].
    cbn [fst snd events]. rewrite Hev in *. rewrite Hdet.
    split; [reflexivity |]. split; [reflexivity |].
    split; [reflexivity |].
    split; [exact Hcid |]. split; [exact Hcs |]. split; [exact Hce |].
    split; [discriminate |].
    destruct (answers _ _); reflexivity.
  - split; [exact Hev |]. split; [now rewrite Hev |].
    split; [| reflexivity].
    unfold getEvents, bind, Array_from_values, ret. cbn [fst].
    now rewrite Hev.
Qed.

(** X10.  What a create costs: [createEvent] sends the model a priority
    request exactly when the input has no priority; then, exactly when that
    request was not rejected and the candidate has a conflict, one time
    request, whether the model answers it or rejects it; and nothing
    else. *)
Theorem createEvent_requests_sent (uuid : string) (event : IEventInput.t)
    (w : World) :
  newRequests w (snd (createEvent uuid event w))
  = match IEventInput.priority event with
    | Some _ => []
    | None => [PriorityPrompt (IEventInput.title event)
                 (IEventInput.description event)]
    end
    ++ match fst (prepareCreate uuid event w) with
       | Returns candidate =>
           match detectConflictsForEvent candidate (Map_values (events w))
           with
           | [] => []
           | _ :: _ =>
               [betterTimePrompt candidate (Map_values (events w))
                  (IEventInput.workingHours event)]
           end
       | Throws _ => []
       end.
Proof.
  rewrite fallible_createEvent_run.
  destruct (fallible_prepareCreate_facts uuid event w) as (Hev & Hreq & _).
  destruct (prepareCreate uuid event w) as [[candidate | error] w1];
    cbn [fst snd] in *; unfold newRequests.
  - rewrite fallible_detectThenCommit_run, Hev.
    destruct (detectConflictsForEvent candidate (Map_values (events w)));
      cbn [snd requests]; rewrite Hreq.
    + rewrite app_nil_r. apply skipn_length_app.
    + rewrite <- app_assoc. apply skipn_length_app.
  - rewrite Hreq, app_nil_r. apply skipn_length_app.
Qed.

(** *** The update *)

(** The candidate of an update with the given priority. *)
Local Abbreviation updatedOf existing eventData keys p :=
  {| id := id existing;
     title := IEventInput.title eventData;
     description := IEventInput.description eventData;
     mode := IEventInput.mode eventData;
     venue := IEventInput.venue eventData;
     startTime := getTime (IEventInput.startTime eventData);
     endTime := getTime (IEventInput.endTime eventData);
     priority := p;
     tags := IEventInput.tags eventData;
     workingHours := spread (workingHours existing)
                       (IEventInput.workingHours eventData)
                       (ownWorkingHours keys) |}.

Lemma fallible_prepareUpdate_run existing eventData keys w :
  prepareUpdate existing eventData keys w
  = match spread (Some (priority existing)) (IEventInput.priority eventData)
            (ownPriority keys)
    with
    | Some p => (Returns (updatedOf existing eventData keys p), w)
    | None =>
        (match answers (List.length (requests w))
                 (PriorityPrompt (IEventInput.title eventData)
                    (IEventInput.description eventData))
         with
         | Answered response =>
             Returns (updatedOf existing eventData keys
                        (classifyPriority response))
         | Rejection error => Throws error
         end,
         sending w (PriorityPrompt (IEventInput.title eventData)
                      (IEventInput.description eventData)))
    end.
Proof.
  cbv [Fallible.prepareUpdate Fallible.generatePriority
         Fallible.generateContent bindX retX].
  destruct (spread _ _ _) as [p |]; [reflexivity |].
  now destruct (answers _ _).
Qed.

Lemma fallible_updateEventById_run eventId eventData keys w :
  updateEventById eventId eventData keys w
  = match Map_get eventId (events w) with
    | None => (Returns None, w)
    | Some existing =>
        match prepareUpdate existing eventData keys w with
        | (Returns candidate, w1) =>
            if startTime candidate >=? endTime candidate then
              (Throws (new_Error "Error"
                         "End time must be greater than start time"), w1)
            else
              match detectThenCommit candidate
                      (IEventInput.workingHours eventData) w1
              with
              | (Returns result, w2) => (Returns (Some result), w2)
              | (Throws error, w2) => (Throws error, w2)
              end
        | (Throws error, w1) => (Throws error, w1)
        end
    end.
Proof.
  unfold Fallible.updateEventById, bindX, liftX, events_get, retX, throwX.
  destruct (Map_get eventId (events w)) as [existing |]; [| reflexivity].
  destruct (prepareUpdate existing eventData keys w)
    as [[candidate | error] w1]; [| reflexivity].
  now destruct (startTime candidate >=? endTime candidate).
Qed.

(** *** The event routes *)

(** A create with a priority in its input: no priority request. *)
Lemma fallible_createEvent_with_priority uuid event p w :
  IEventInput.priority event = Some p ->
  createEvent uuid event w
  = detectThenCommit (candidateOf uuid event p)
      (IEventInput.workingHours event) w.
Proof.
  intros Hp. rewrite fallible_createEvent_run, fallible_prepareCreate_run, Hp.
  reflexivity.
Qed.

(** X16.  [POST /events].  A request whose body does not parse is handed
    to [errorMiddleware] with the parser's error, and a body the schema
    rejects is answered 400 with the schema's message; neither changes
    anything.  For an accepted body there are three cases.  When no stored
    event with another id overlaps the times of the body, no request is
    sent to the model, the reply is 201 with the new id, and the event is
    stored under that id with the times of the body.  Otherwise one time
    request is sent.  When the model answers it, the reply is 409 with
    exactly the stored events that clash and with the suggestion parsed
    from the answer.  When the model rejects it, the error is handed to
    [errorMiddleware], which answers 500, or 400 for an error named
    [ValidationError].  In the last two cases the store is as before. *)
Theorem post_replies (uuid : string) (body : RawBody) (w : World) :
  let h := fst (serve (PostRoot uuid body) w) in
  let w' := snd (serve (PostRoot uuid body) w) in
  (forall error,
     serve (Malformed error) w = (Failed (PassedError error), w))
  /\ match eventSchema body with
     | None =>
         h = Failed (PassedApiError (new_ApiError 400 (zodMessage body)))
         /\ w' = w
     | Some input =>
         (h = Sent 201
                (new_ApiResponse 201 "Event created successfully"
                   (DataId uuid))
          /\ (forall c, ~ clashes uuid input (events w) c)
          /\ requests w' = requests w
          /\ exists e,
               Map_get uuid (events w') = Some e
               /\ startTime e = getTime (IEventInput.startTime input)
               /\ endTime e = getTime (IEventInput.endTime input)
               /\ startTime e < endTime e)
         \/ (exists conflicts prompt text,
               h = Sent 409
                     (new_ApiResponse 409
                        "Event conflicts with existing events"
                        (DataConflicts conflicts (parseSuggestion text)))
               /\ conflicts <> []
               /\ (forall c, In c conflicts
                             <-> clashes uuid input (events w) c)
               /\ events w' = events w
               /\ requests w' = requests w ++ [prompt]
               /\ isPriorityPrompt prompt = false
               /\ answers (List.length (requests w)) prompt = Answered text)
         \/ (exists error prompt c,
               h = Failed (PassedError error)
               /\ Fallible.httpStatus h
                  = (if String.eqb (error_name error) "ValidationError"
                     then 400 else 500)%nat
               /\ clashes uuid input (events w) c
               /\ events w' = events w
               /\ requests w' = requests w ++ [prompt]
               /\ isPriorityPrompt prompt = false
               /\ answers (List.length (requests w)) prompt
                  = Rejection error)
     end.
Proof.
  intros h w'. subst h w'. split; [reflexivity |].
  unfold Fallible.Controller.serve, Fallible.Controller.validated,
    Fallible.Controller.validateMiddleware,
    Fallible.Controller.createEvent, asyncHandler, bindX, retX, ret.
  destruct (eventSchema body) as [input |] eqn:Hok; [| now split].
  destruct (eventSchema_accepts _ _ _ _ _ Hok) as (p & _ & Hp & Hvalid).
  unfold validInput in Hvalid.
  rewrite (fallible_createEvent_with_priority _ _ _ _ Hp),
    fallible_detectThenCommit_run.
  pose proof (fun c => detect_clashes (candidateOf uuid input p) input
                         (events w) c eq_refl eq_refl) as Hclash.
  cbn [id] in Hclash.
  destruct (detectConflictsForEvent _ (Map_values (events w))) as [| c cs].
  - left. cbn [fst snd events requests id].
    split; [reflexivity |].
    split; [intros c Hc; now apply Hclash in Hc |].
    split; [reflexivity |].
    eexists. rewrite Map_get_set, String.eqb_refl.
    split; [reflexivity |]. cbn [startTime endTime].
    split; [reflexivity |]. split; [reflexivity | exact Hvalid].
  - right.
    destruct (answers _ _) as [text | error] eqn:Ha;
      cbn [fst snd events requests].
    + left. do 3 eexists. split; [reflexivity |].
      split; [discriminate |]. split; [exact Hclash |].
      split; [reflexivity |].
      split; [reflexivity |]. split; [reflexivity | exact Ha].
    + right. exists error. eexists. exists c. split; [reflexivity |].
      split; [cbn; now destruct (String.eqb _ _) |].
      split; [apply Hclash; now left |].
      split; [reflexivity |].
      split; [reflexivity |]. split; [reflexivity | exact Ha].
Qed.

(** An update through the route: the body has a priority, and every own
    key of the validated body has a value. *)
Lemma fallible_updateEventById_parsed eventId eventData p existing w :
  IEventInput.priority eventData = Some p ->
  validInput eventData ->
  Map_get eventId (events w) = Some existing ->
  updateEventById eventId eventData parsedKeys w
  = match detectThenCommit (updatedOf existing eventData parsedKeys p)
            (IEventInput.workingHours eventData) w
    with
    | (Returns result, w2) => (Returns (Some result), w2)
    | (Throws error, w2) => (Throws error, w2)
    end.
Proof.
  intros Hp Hvalid Hget. unfold validInput in Hvalid.
  rewrite fallible_updateEventById_run, Hget, fallible_prepareUpdate_run, Hp.
  cbn [spread startTime endTime].
  destruct (Z.geb_spec (getTime (IEventInput.startTime eventData))
              (getTime (IEventInput.endTime eventData))) as [Hge | _];
    [lia | reflexivity].
Qed.

(** X17.  [PUT /events/:id].  A segment that does not decode and a body
    the schema rejects end the request, in this order, and change nothing.
    For an accepted body the range check of
    [updateEventById] never fires.  The reply is 404 for an unknown id,
    leaving the state alone.  For a known id, when no stored event with
    another id overlaps the times of the body, no request is sent to the
    model and the reply is 200 with the updated event, stored under the id
    of the existing one with the times of the body.  Otherwise one time
    request is sent.  When the model answers it, the reply is 409 with
    exactly the stored events that clash and with the suggestion parsed
    from the answer.  When the model rejects it, the [catch] of the
    controller hands [next] a 400 with the message of that error.  In the
    last two cases the store is as before. *)
Theorem put_replies (seg : PathSegment) (body : RawBody) (w : World) :
  let h := fst (serve (PutAt seg body) w) in
  let w' := snd (serve (PutAt seg body) w) in
  match decodeParam seg with
  | None => h = Failed (PassedError (decodeError seg)) /\ w' = w
  | Some eventId =>
      match eventSchema body with
      | None =>
          h = Failed (PassedApiError (new_ApiError 400 (zodMessage body)))
          /\ w' = w
      | Some eventData =>
          match Map_get (segment_text eventId) (events w) with
          | None =>
              h = Failed (PassedApiError (new_ApiError 404 "Event not found"))
              /\ w' = w
          | Some existing =>
              (exists event,
                 h = Sent 200
                       (new_ApiResponse 200 "Event updated successfully"
                          (DataEvent event))
                 /\ (forall c,
                       ~ clashes (id existing) eventData (events w) c)
                 /\ id event = id existing
                 /\ startTime event
                    = getTime (IEventInput.startTime eventData)
                 /\ endTime event = getTime (IEventInput.endTime eventData)
                 /\ startTime event < endTime event
                 /\ Map_get (id existing) (events w') = Some event
                 /\ requests w' = requests w)
              \/ (exists conflicts prompt text,
                    h = Sent 409
                          (new_ApiResponse 409
                             "Event conflicts with existing events"
                             (DataConflicts conflicts
                                (parseSuggestion text)))
                    /\ conflicts <> []
                    /\ (forall c,
                          In c conflicts
                          <-> clashes (id existing) eventData (events w) c)
                    /\ events w' = events w
                    /\ requests w' = requests w ++ [prompt]
                    /\ isPriorityPrompt prompt = false
                    /\ answers (List.length (requests w)) prompt
                       = Answered text)
              \/ (exists error prompt c,
                    h = Failed (PassedApiError
                                  (new_ApiError 400 (error_message error)))
                    /\ clashes (id existing) eventData (events w) c
                    /\ events w' = events w
                    /\ requests w' = requests w ++ [prompt]
                    /\ isPriorityPrompt prompt = false
                    /\ answers (List.length (requests w)) prompt
                       = Rejection error)
          end
      end
  end.
Proof.
  intros h w'. subst h w'.
  unfold Fallible.Controller.serve, Fallible.Controller.withParam,
    Fallible.Controller.validated, Fallible.Controller.validateMiddleware,
    Fallible.Controller.updateEventById, asyncHandler, tryCatch, bindX,
    retX, ret.
  destruct (decodeParam seg) as [eventId |]; [| now split].
  destruct (eventSchema body) as [eventData |] eqn:Hok; [| now split].
  destruct (eventSchema_accepts _ _ _ _ _ Hok) as (p & _ & Hp & Hvalid).
  change (String.eqb (segment_text eventId) "") with false. cbv iota.
  destruct (Map_get (segment_text eventId) (events w)) as [existing |]
    eqn:Hget.
  - rewrite (fallible_updateEventById_parsed _ _ _ _ _ Hp Hvalid Hget),
      fallible_detectThenCommit_run.
    unfold validInput in Hvalid.
    pose proof (fun c => detect_clashes
                           (updatedOf existing eventData parsedKeys p)
                           eventData (events w) c eq_refl eq_refl) as Hclash.
    cbn [id] in Hclash.
    destruct (detectConflictsForEvent _ (Map_values (events w))) as [| c cs].
    + left. cbn [fst snd events requests id].
      eexists. split; [reflexivity |].
      split; [intros c Hc; now apply Hclash in Hc |].
      cbn [id startTime endTime].
      split; [reflexivity |]. split; [reflexivity |]. split; [reflexivity |].
      split; [exact Hvalid |].
      rewrite Map_get_set, String.eqb_refl. split; reflexivity.
    + right.
      destruct (answers _ _) as [text | error] eqn:Ha;
        cbn [fst snd events requests].
      * left. do 3 eexists. split; [reflexivity |].
        split; [discriminate |]. split; [exact Hclash |].
        split; [reflexivity |].
        split; [reflexivity |]. split; [reflexivity | exact Ha].
      * right. exists error. eexists. exists c. split; [reflexivity |].
        split; [apply Hclash; now left |].
        split; [reflexivity |].
        split; [reflexivity |]. split; [reflexivity | exact Ha].
  - rewrite fallible_updateEventById_run, Hget. now split.
Qed.

(** X19.  [DELETE /events/:id] is answered 200 with the stored event when
    the id is known and 404 otherwise; a second [DELETE] of the same path
    is answered 404.  A [GET] of the same path afterwards is answered 404
    as well, unless the path is the one of the ['/filtered'] route, which
    the router tries first: then it is answered by [filterEventsByTag], so
    with 400 when the query has no tag.  A segment that does not decode
    ends the [DELETE] with the decoding error and changes nothing. *)
Theorem delete_replies (seg : PathSegment) (tag : option string)
    (w : World) :
  let h := fst (serve (DeleteAt seg) w) in
  let w' := snd (serve (DeleteAt seg) w) in
  match decodeParam seg with
  | None => h = Failed (PassedError (decodeError seg)) /\ w' = w
  | Some eventId =>
      h = match Map_get (segment_text eventId) (events w) with
          | Some event =>
              Sent 200
                (new_ApiResponse 200 "Event deleted successfully"
                   (DataEvent event))
          | None =>
              Failed (PassedApiError (new_ApiError 404 "Event not found"))
          end
      /\ Map_get (segment_text eventId) (events w') = None
      /\ fst (serve (DeleteAt seg) w')
         = Failed (PassedApiError (new_ApiError 404 "Event not found"))
      /\ fst (serve (GetAt seg tag) w')
         = (if matchesFiltered seg then
              fst (Fallible.Controller.filterEventsByTag JsValue tag w')
            else
              Failed (PassedApiError (new_ApiError 404 "Event not found")))
      /\ fst (Fallible.Controller.filterEventsByTag JsValue None w')
         = Failed (PassedApiError (new_ApiError 400 "Tag is required"))
  end.
Proof.
  intros h w'. subst h w'.
  unfold Fallible.Controller.serve, Fallible.Controller.withParam,
    Fallible.Controller.deleteEventById, Fallible.Controller.fetchEventById,
    Fallible.Controller.filterEventsByTag, asyncHandler, bindX, liftX, retX,
    ret.
  destruct (decodeParam seg) as [eventId |]; [| now split].
  change (String.eqb (segment_text eventId) "") with false. cbv iota.
  unfold deleteEventById, getEventById, bind, events_get, events_delete, ret.
  destruct (Map_get (segment_text eventId) (events w)) as [e |] eqn:Hget;
    cbn [fst snd events].
  - rewrite Map_get_delete, String.eqb_refl. cbn [fst].
    split; [reflexivity |]. split; [reflexivity |]. split; [reflexivity |].
    split; [destruct (matchesFiltered seg); [reflexivity |];
            cbv beta; cbn [events];
            now rewrite Map_get_delete, String.eqb_refl |].
    reflexivity.
  - rewrite Hget. cbn [fst].
    split; [reflexivity |]. split; [reflexivity |]. split; [reflexivity |].
    split; [destruct (matchesFiltered seg); [reflexivity |];
            cbv beta; now rewrite Hget |].
    reflexivity.
Qed.

(** What [errorMiddleware] answers: the status of an [ApiError]; for
    another error 400 when it is named [ValidationError], and 500
    otherwise.  The body has [success] cleared and carries the status. *)
Lemma errorMiddleware_reply err :
  let '(status, (success, bodyStatus, _)) := Fallible.errorMiddleware err in
  success = false /\ bodyStatus = status
  /\ match err with
     | PassedApiError e => status = err_statusCode e
     | PassedError e => status = 400%nat \/ status = 500%nat
     end.
Proof.
  destruct err as [e | e]; cbn [Fallible.errorMiddleware].
  - repeat split.
  - destruct (String.eqb _ _); repeat split; auto.
Qed.

Ltac run_route :=
  unfold Fallible.Controller.serve, Fallible.Controller.withParam,
    Fallible.Controller.validated, Fallible.Controller.validateMiddleware,
    Fallible.Controller.createEvent, Fallible.Controller.fetchEvents,
    Fallible.Controller.fetchEventById, Fallible.Controller.updateEventById,
    Fallible.Controller.deleteEventById,
    Fallible.Controller.filterEventsByTag, asyncHandler, tryCatch, bindX,
    liftX, retX, getEventById, events_get, bind, ret.

(* A reply with one of the statuses, and a failure with one of the errors. *)
Ltac close_status :=
  cbn [fst Fallible.httpStatus Fallible.errorMiddleware];
  try match goal with
      | |- context [String.eqb (error_name ?e) ?n] =>
          destruct (String.eqb (error_name e) n)
      end;
  solve [cbn; repeat split; auto 10].

(** X21.  The event routes answer with 200, 201, 400, 404, 409 or 500
    only.  A reply sent by a controller has status 200, 201 or 409, its
    body carries that status, and its [success] flag is set exactly for 200
    and 201, so a conflict report has it cleared.  A request that ends in
    [next(err)] is answered by [errorMiddleware] with 400, 404 or 500, in a
    body that carries that status and has [success] cleared. *)
Theorem routes_statuses (req : Arrival) (w : World) :
  In (Fallible.httpStatus (fst (serve req w)))
     [200; 201; 400; 404; 409; 500]%nat
  /\ match fst (serve req w) with
     | Sent status body =>
         In status [200; 201; 409]%nat
         /\ statusCode body = status
         /\ success body = (status <? 400)%nat
     | Failed err =>
         let '(status, (success, bodyStatus, _)) :=
           Fallible.errorMiddleware err in
         In status [400; 404; 500]%nat
         /\ success = false
         /\ bodyStatus = status
     end.
Proof.
  destruct req as [error | | uuid body | seg tag | seg body | seg];
    run_route.
  - close_status.
  - unfold getEvents, bind, ret, Array_from_values.
    destruct (_ =? _)%nat; close_status.
  - destruct (eventSchema body) as [input |]; [| close_status].
    destruct (createEvent uuid input w) as [[[e | cs sg] | error] w'];
      close_status.
  - destruct (matchesFiltered seg).
    + destruct tag as [[| c t] |]; try close_status.
      unfold filterEventsByTag, bind, ret, Array_from_values.
      destruct (_ =? _)%nat; close_status.
    + destruct (decodeParam seg) as [eventId |]; [| close_status].
      change (String.eqb (segment_text eventId) "") with false.
      cbv beta iota.
      destruct (Map_get (segment_text eventId) (events w)); close_status.
  - destruct (decodeParam seg) as [eventId |]; [| close_status].
    destruct (eventSchema body) as [input |]; [| close_status].
    change (String.eqb (segment_text eventId) "") with false.
      cbv beta iota.
    destruct (updateEventById (segment_text eventId) input parsedKeys w)
      as [[[[e | cs sg] |] | error] w']; close_status.
  - destruct (decodeParam seg) as [eventId |]; [| close_status].
    change (String.eqb (segment_text eventId) "") with false.
      cbv beta iota.
    destruct (deleteEventById (segment_text eventId) w) as [[e |] w'];
      close_status.
Qed.

(** *** The store behind the routes *)

(** What both workflows do to the store: nothing, or the candidate is set
    under its id when it has no conflict. *)
Lemma fallible_detectThenCommit_store candidate workingHours w :
  events (snd (detectThenCommit candidate workingHours w)) = events w
  \/ (detectConflictsForEvent candidate (Map_values (events w)) = []
      /\ events (snd (detectThenCommit candidate workingHours w))
         = Map_set (id candidate) candidate (events w)).
Proof.
  rewrite fallible_detectThenCommit_run.
  destruct (detectConflictsForEvent candidate (Map_values (events w)));
    [right | left]; now cbn.
Qed.

(** A served request leaves the store alone, sets an event with a
    non-empty range and no conflict under its id, or deletes a key. *)
Lemma fallible_serve_store req w :
  events (snd (serve req w)) = events w
  \/ (exists c,
        startTime c < endTime c
        /\ detectConflictsForEvent c (Map_values (events w)) = []
        /\ events (snd (serve req w)) = Map_set (id c) c (events w))
  \/ (exists k, events (snd (serve req w)) = Map_delete k (events w)).
Proof.
  destruct req as [error | | uuid body | seg tag | seg body | seg];
    run_route.
  - now left.
  - left. unfold getEvents, bind, ret, Array_from_values.
    now destruct (_ =? _)%nat.
  - destruct (eventSchema body) as [input |] eqn:Hok; [| now left].
    destruct (eventSchema_accepts _ _ _ _ _ Hok) as (p & _ & Hp & Hvalid).
    rewrite (fallible_createEvent_with_priority _ _ _ _ Hp).
    destruct (fallible_detectThenCommit_store (candidateOf uuid input p)
                (IEventInput.workingHours input) w) as [Hsame | [Hnil Hset]].
    + left. rewrite <- Hsame.
      now destruct (detectThenCommit _ _ w) as [[[e | cs sg] | error] w'].
    + right. left. exists (candidateOf uuid input p).
      split; [exact Hvalid |]. split; [exact Hnil |]. rewrite <- Hset.
      now destruct (detectThenCommit _ _ w) as [[[e | cs sg] | error] w'].
  - left. destruct (matchesFiltered seg).
    + destruct tag as [[| c t] |]; try reflexivity.
      unfold filterEventsByTag, bind, ret, Array_from_values.
      now destruct (_ =? _)%nat.
    + destruct (decodeParam seg) as [eventId |]; [| reflexivity].
      change (String.eqb (segment_text eventId) "") with false.
      cbv beta iota.
      now destruct (Map_get (segment_text eventId) (events w)).
  - destruct (decodeParam seg) as [eventId |]; [| now left].
    destruct (eventSchema body) as [input |] eqn:Hok; [| now left].
    destruct (eventSchema_accepts _ _ _ _ _ Hok) as (p & _ & Hp & Hvalid).
    change (String.eqb (segment_text eventId) "") with false.
    cbv beta iota.
    destruct (Map_get (segment_text eventId) (events w)) as [existing |]
      eqn:Hget.
    + rewrite (fallible_updateEventById_parsed _ _ _ _ _ Hp Hvalid Hget).
      destruct (fallible_detectThenCommit_store
                  (updatedOf existing input parsedKeys p)
                  (IEventInput.workingHours input) w)
        as [Hsame | [Hnil Hset]].
      * left. rewrite <- Hsame.
        now destruct (detectThenCommit _ _ w) as [[[e | cs sg] | error] w'].
      * right. left. exists (updatedOf existing input parsedKeys p).
        split; [exact Hvalid |]. split; [exact Hnil |]. rewrite <- Hset.
        now destruct (detectThenCommit _ _ w) as [[[e | cs sg] | error] w'].
    + left. rewrite fallible_updateEventById_run, Hget. reflexivity.
  - destruct (decodeParam seg) as [eventId |]; [| now left].
    change (String.eqb (segment_text eventId) "") with false.
    cbv beta iota.
    unfold deleteEventById, bind, events_get, events_delete, ret.
    destruct (Map_get (segment_text eventId) (events w)); [| now left].
    right. right. now exists (segment_text eventId).
Qed.

Lemma fallible_serveAll_invariants reqs w :
  storeInvariant (events w) -> bookingInvariant (events w) ->
  storeInvariant (events (serveAll reqs w))
  /\ bookingInvariant (events (serveAll reqs w)).
Proof.
  revert w. induction reqs as [| req reqs IH]; intros w Hs Hb;
    [now split |].
  cbn [Fallible.Controller.serveAll fold_left]. apply IH.
  - destruct (fallible_serve_store req w)
      as [-> | [(c & Hlt & _ & ->) | (k & ->)]];
      [exact Hs | now apply storeInvariant_set
       | now apply storeInvariant_delete].
  - destruct (fallible_serve_store req w)
      as [-> | [(c & _ & Hnil & ->) | (k & ->)]];
      [exact Hb | now apply bookingInvariant_set
       | now apply bookingInvariant_delete].
Qed.

(** X26.  Behind the routes the store stays sound also when calls fail:
    after any sequence of requests to the event routes, whatever their
    bodies and whatever the model answers or rejects, every stored event
    starts before it ends, the stored ids are pairwise distinct, and no two
    stored events overlap. *)
Theorem arrivals_keep_store_sound (reqs : list Arrival) :
  let w := serveAll reqs emptyWorld in
  Forall (fun e => startTime e < endTime e) (Map_values (events w))
  /\ NoDup (map id (Map_values (events w)))
  /\ (forall e1 e2,
        In e1 (Map_values (events w)) -> In e2 (Map_values (events w)) ->
        id e1 <> id e2 ->
        ~ (startTime e1 < endTime e2 /\ endTime e1 > startTime e2)).
Proof.
  intros w.
  destruct (fallible_serveAll_invariants reqs emptyWorld) as [Hs Hb].
  - split; simpl; constructor.
  - apply bookingInvariant_empty.
  - destruct (storeInvariant_ids _ Hs) as [Htimes Hids].
    split; [exact Htimes |]. split; [exact Hids |].
    now apply bookingInvariant_values.
Qed.

(** X25.  The merge of an update, [{ ...existing, ...eventData }].  The id
    is the one of the stored event and the times are those of [eventData].
    A priority in [eventData] is taken; without one, an absent key keeps
    the stored priority and no request is sent to the model, while an own
    key holding [undefined] makes [updateEventById] ask the model, whose
    rejection it throws.  Working hours in [eventData] are taken; an absent
    key keeps the stored ones, and an own key holding [undefined] erases
    them. *)
Theorem prepareUpdate_merge (existing : INormalizedEvent)
    (eventData : IEventInput.t) (keys : OwnUndefined) (w : World) :
  let askModel :=
    match IEventInput.priority eventData with
    | Some _ => false
    | None => ownPriority keys
    end in
  events (snd (prepareUpdate existing eventData keys w)) = events w
  /\ requests (snd (prepareUpdate existing eventData keys w))
     = requests w
       ++ (if askModel
           then [PriorityPrompt (IEventInput.title eventData)
                   (IEventInput.description eventData)]
           else [])
  /\ match fst (prepareUpdate existing eventData keys w) with
     | Returns candidate =>
         id candidate = id existing
         /\ startTime candidate = getTime (IEventInput.startTime eventData)
         /\ endTime candidate = getTime (IEventInput.endTime eventData)
         /\ match IEventInput.priority eventData with
            | Some p => priority candidate = p
            | None =>
                if ownPriority keys then
                  exists response,
                    answers (List.length (requests w))
                      (PriorityPrompt (IEventInput.title eventData)
                         (IEventInput.description eventData))
                    = Answered response
                    /\ priority candidate = classifyPriority response
                else priority candidate = priority existing
            end
         /\ workingHours candidate
            = match IEventInput.workingHours eventData with
              | Some h => Some h
              | None =>
                  if ownWorkingHours keys then None
                  else workingHours existing
              end
     | Throws error =>
         askModel = true
         /\ answers (List.length (requests w))
              (PriorityPrompt (IEventInput.title eventData)
                 (IEventInput.description eventData))
            = Rejection error
     end.
Proof.
  intros askModel. subst askModel. rewrite fallible_prepareUpdate_run.
  unfold spread.
  destruct (IEventInput.priority eventData) as [p |];
    [| destruct (ownPriority keys)]; cbn [fst snd events requests].
  - rewrite app_nil_r. repeat split.
  - split; [reflexivity |]. split; [reflexivity |].
    destruct (answers _ _) as [response | error]; [| now split].
    repeat split. now exists response.
  - rewrite app_nil_r. repeat split.
Qed.

End FallibleFacts.

(** ** Instances for the service when a call fails *)

(** C2, a counterexample to the claim as stated.  Lunch from 9:30 to 10:30
    overlaps the stored review and the stored standup; the model rejects
    the time request, and [createEvent] throws: nothing is reported. *)
Lemma createEvent_throws_on_conflict :
  let lunch := sampleInput "lunch" 570 630 [] in
  let review := sampleEvent "id-review" "review" 600 660 ["work"%string] in
  (In review (Map_values (events reviewThenStandup))
   /\ id review <> "id-lunch"%string
   /\ getTime (IEventInput.startTime lunch) < endTime review
   /\ getTime (IEventInput.endTime lunch) > startTime review)
  /\ fst (FallibleDemo.createEvent (rejecting fetchFailed) "id-lunch" lunch
            reviewThenStandup)
     = Throws fetchFailed
  /\ forall conflicts suggestion,
       fst (FallibleDemo.createEvent (rejecting fetchFailed) "id-lunch"
              lunch reviewThenStandup)
       <> Returns (ConflictReported conflicts suggestion).
Proof.
  intros lunch review.
  split; [| split].
  - split; [left; reflexivity |].
    split; [discriminate | simpl; lia].
  - reflexivity.
  - intros conflicts suggestion. discriminate.
Qed.

Lemma createEvent_conflict_outcome_witness :
  let lunch := sampleInput "lunch" 570 630 [] in
  let review := sampleEvent "id-review" "review" 600 660 ["work"%string] in
  let standup := sampleEvent "id-standup" "standup" 540 600 ["work"%string] in
  let advice := answering (fencedStartTime "2025-11-16T11:00:00Z") in
  (exists E, In E (Map_values (events reviewThenStandup))
             /\ id E <> "id-lunch"%string
             /\ getTime (IEventInput.startTime lunch) < endTime E
             /\ getTime (IEventInput.endTime lunch) > startTime E)
  /\ events (snd (FallibleDemo.createEvent advice "id-lunch" lunch
                    reviewThenStandup))
     = events reviewThenStandup
  /\ fst (FallibleDemo.createEvent advice "id-lunch" lunch reviewThenStandup)
     = Returns
         (ConflictReported [review; standup]
            (JObject [("startTime"%string,
                       JString "2025-11-16T11:00:00Z")])).
Proof.
  intros lunch review standup advice.
  assert (H : exists E, In E (Map_values (events reviewThenStandup))
                        /\ id E <> "id-lunch"%string
                        /\ getTime (IEventInput.startTime lunch) < endTime E
                        /\ getTime (IEventInput.endTime lunch) > startTime E).
  { exists review. split; [left; reflexivity |].
    split; [discriminate | simpl; lia]. }
  split; [exact H |].
  destruct (createEvent_conflict_outcome Json JNull Ascii7.JSON_parse
              Ascii7.toLowerCase Ascii7.trim advice
              "id-lunch" lunch reviewThenStandup H)
    as (Hevents & _ & _ & Hout).
  split; [exact Hevents |].
  exact (proj2 (proj2 (proj2 (proj2 Hout)))).
Defined.

(** A conflicting [POST] whose time request the model rejects is answered
    500, and so is a body that does not parse. *)
Example post_conflict_rejected_is_500 :
  let served := FallibleDemo.serve (rejecting fetchFailed)
                  (PostRoot "id-again" meetingBody) meetingBooked in
  fst served = Failed (PassedError fetchFailed)
  /\ Fallible.errorMiddleware (PassedError fetchFailed)
     = (500%nat, (false, 500%nat, "Internal Server Error"%string))
  /\ events (snd served) = events meetingBooked.
Proof. vm_compute. repeat split. Qed.

Example malformed_body_is_500 :
  Fallible.httpStatus
    (fst (FallibleDemo.serve (answering "")
            (Malformed
               (new_Error "SyntaxError" "Unexpected end of JSON input"))
            meetingBooked))
  = 500%nat.
Proof. reflexivity. Qed.

(** A conflicting [PUT] whose time request the model rejects is answered
    400 with the message of the rejection. *)
Example put_conflict_rejected_is_400 :
  fst (FallibleDemo.serve (rejecting fetchFailed)
         (PutAt otherSegment meetingBody) meetingAndOther)
  = Failed (PassedApiError (new_ApiError 400 "fetch failed")).
Proof. vm_compute. reflexivity. Qed.

(** After a [DELETE] of ['/filtered'], a [GET] of ['/filtered'] is answered
    by the tag filter. *)
Example get_filtered_after_delete :
  let w' := snd (FallibleDemo.serve (answering "")
                   (DeleteAt filteredSegment) meetingBooked) in
  fst (FallibleDemo.serve (answering "") (GetAt filteredSegment None) w')
  = Failed (PassedApiError (new_ApiError 400 "Tag is required"))
  /\ fst (FallibleDemo.serve (answering "")
            (GetAt filteredSegment (Some "meeting"%string)) w')
     = Sent 200
         (new_ApiResponse 200 "Events fetched successfully"
            (DataEvents (Map_values (events meetingBooked)))).
Proof. vm_compute. split; reflexivity. Qed.

Lemma arrivals_keep_store_sound_witness :
  let reqs :=
    [PostRoot "id-meeting" meetingBody;
     Malformed (new_Error "SyntaxError" "Unexpected end of JSON input");
     PostRoot "id-again" meetingBody;
     PutAt filteredSegment meetingBody;
     DeleteAt otherSegment] in
  let w := FallibleDemo.serveAll (rejecting fetchFailed) reqs emptyWorld in
  Map_keys (events w) = ["id-meeting"%string]
  /\ List.length (requests w) = 1%nat
  /\ Forall (fun e => startTime e < endTime e) (Map_values (events w)).
Proof.
  intros reqs w. split; [reflexivity |]. split; [reflexivity |].
  exact (proj1 (arrivals_keep_store_sound Json JNull Ascii7.JSON_parse
                  Ascii7.toLowerCase Ascii7.trim String.length
                  Ascii7.Date_parse (fun _ => "invalid body"%string)
                  (rejecting fetchFailed) demoMatchesFiltered
                  demoDecodeParam reqs)).
Defined.
